(** * pmg: the maze generator and its pixel footprint

    A shallow embedding of [src/maze.ts] (grid model, neighbour lookup, wall
    removal and the iterative depth-first backtracking loop) and of
    [getMazeDimensions] from [src/renderer.ts], followed by the properties of
    the generated mazes.

    Conventions of the embedding.
    - A JavaScript [number] that holds a row, a column, a size or an index is
      an integer [Z]; arithmetic on them is exact.
    - [Cell] objects are shared and mutated in place.  [createGrid] allocates
      exactly one object per slot and stores the slot's indices in its [row]
      and [col] fields, which no code ever writes; a reference to a cell
      object is therefore its pair [(row, col)], and the mutable fields
      ([walls], [visited]) live in the grid, the only store.  Reading a field
      through a reference goes through the grid, writing one updates the grid.
      That every object stays in the slot its fields name is the invariant
      [placed], proved for every state of the loop.
    - [Math.random()] is the n-th element of a sequence of rationals; its
      contract is [0 <= x < 1].  Rounding of the product with
      [neighbors.length] (at most 4) is not modelled.
    - The [while] loop runs on fuel; one unit is used per evaluation of the
      loop condition. *)

From stdpp Require Import base option list numbers strings pretty.
From Stdlib Require Import Ascii QArith Qround Qminmax Lqa.

Local Open Scope Z_scope.

(** ** Data model ([maze.ts], lines 5-23) *)

Record Walls := { top : bool; right : bool; bottom : bool; left : bool }.

Record Cell := { row : Z; col : Z; walls : Walls; visited : bool }.

Abbreviation Grid := (list (list Cell)).

Record Maze := {
  rows : Z;
  cols : Z;
  cells : Grid;
  start : Z * Z;
  end_ : Z * Z
}.

(** A reference to a cell object: its (immutable) [row] and [col]. *)
Abbreviation CellRef := (Z * Z)%type.

Definition ref (c : Cell) : CellRef := (row c, col c).

(** ** Arrays *)

(** [l[i]]: [undefined] ([None]) outside the array. *)
Definition at_index {A} (l : list A) (i : Z) : option A :=
  if bool_decide (0 ≤ i) then l !! Z.to_nat i else None.

(** [grid[r]?.[c]] *)
Definition cellAt (g : Grid) (r c : Z) : option Cell :=
  match at_index g r with
  | Some line => at_index line c
  | None => None
  end.

(** In-place update of the object behind a reference. *)
Definition modify (g : Grid) (p : CellRef) (f : Cell → Cell) : Grid :=
  if bool_decide (0 ≤ p.1 ∧ 0 ≤ p.2)
  then alter (alter f (Z.to_nat p.2)) (Z.to_nat p.1) g
  else g.

Definition set_top (b : bool) (c : Cell) : Cell :=
  {| row := row c; col := col c; visited := visited c;
     walls := {| top := b; right := right (walls c);
                 bottom := bottom (walls c); left := left (walls c) |} |}.
Definition set_right (b : bool) (c : Cell) : Cell :=
  {| row := row c; col := col c; visited := visited c;
     walls := {| top := top (walls c); right := b;
                 bottom := bottom (walls c); left := left (walls c) |} |}.
Definition set_bottom (b : bool) (c : Cell) : Cell :=
  {| row := row c; col := col c; visited := visited c;
     walls := {| top := top (walls c); right := right (walls c);
                 bottom := b; left := left (walls c) |} |}.
Definition set_left (b : bool) (c : Cell) : Cell :=
  {| row := row c; col := col c; visited := visited c;
     walls := {| top := top (walls c); right := right (walls c);
                 bottom := bottom (walls c); left := b |} |}.
Definition set_visited (b : bool) (c : Cell) : Cell :=
  {| row := row c; col := col c; walls := walls c; visited := b |}.

(** ** [createGrid] (lines 25-40) *)

Definition newCell (r c : Z) : Cell :=
  {| row := r; col := c;
     walls := {| top := true; right := true; bottom := true; left := true |};
     visited := false |}.

Definition createGrid (rows cols : Z) : Grid :=
  (λ r, newCell r <$> seqZ 0 cols) <$> seqZ 0 rows.

(** ** [getUnvisitedNeighbors] (lines 42-66) *)

(** [if (x && !x.visited) neighbors.push(x)] *)
Definition pushUnvisited (neighbors : list CellRef) (x : option Cell)
  : list CellRef :=
  match x with
  | Some c => if negb (visited c) then neighbors ++ [ref c] else neighbors
  | None => neighbors
  end.

Definition getUnvisitedNeighbors (grid : Grid) (cell : CellRef)
  : list CellRef :=
  let neighbors := [] in
  let '(row, col) := cell in
  let rows := Z.of_nat (length grid) in
  let cols :=
    match at_index grid 0 with
    | Some line => Z.of_nat (length line)
    | None => 0
    end in
  let neighbors :=
    if bool_decide (row > 0)
    then pushUnvisited neighbors (cellAt grid (row - 1) col)
    else neighbors in
  let neighbors :=
    if bool_decide (row < rows - 1)
    then pushUnvisited neighbors (cellAt grid (row + 1) col)
    else neighbors in
  let neighbors :=
    if bool_decide (col > 0)
    then pushUnvisited neighbors (cellAt grid row (col - 1))
    else neighbors in
  let neighbors :=
    if bool_decide (col < cols - 1)
    then pushUnvisited neighbors (cellAt grid row (col + 1))
    else neighbors in
  neighbors.

(** ** [removeWallBetween] (lines 68-85) *)

Definition removeWallBetween (grid : Grid) (current next : CellRef) : Grid :=
  let dx := next.2 - current.2 in
  let dy := next.1 - current.1 in
  if bool_decide (dx = 1) then
    modify (modify grid current (set_right false)) next (set_left false)
  else if bool_decide (dx = -1) then
    modify (modify grid current (set_left false)) next (set_right false)
  else if bool_decide (dy = 1) then
    modify (modify grid current (set_bottom false)) next (set_top false)
  else if bool_decide (dy = -1) then
    modify (modify grid current (set_top false)) next (set_bottom false)
  else grid.

(** ** [generateMaze] (lines 91-131) *)

(** The state of the carving loop.  The stack is kept with its top first:
    [stack.push(x)] is [x :: stack], [stack.pop()] drops the head,
    [stack[stack.length - 1]] is the head.  [draws] counts the calls to
    [Math.random()] made so far.  [pushed] is a history variable: the
    arguments of every [stack.push], latest first; nothing reads it. *)
Record LoopState := {
  grid : Grid;
  stack : list CellRef;
  draws : nat;
  pushed : list CellRef
}.

(** How a call ends.  A thrown error carries the grid as it is then. *)
Inductive Outcome (A : Type) : Type :=
  | Returned (a : A)
  | Thrown (msg : string) (heap : Grid)
  | OutOfFuel.
Arguments Returned {A} a.
Arguments Thrown {A} msg heap.
Arguments OutOfFuel {A}.

(** [Math.floor(Math.random() * n)] for the [k]-th random number. *)
Definition randomIndex (rnd : nat → Q) (k : nat) (n : nat) : Z :=
  Qfloor (rnd k * inject_Z (Z.of_nat n)).

(** One pass through the body of the [while] loop (lines 104-120); [None]
    when the loop condition [stack.length > 0] is false.  The guard
    [if (!current) break] cannot fire: the top of a non-empty stack is a
    cell object. *)
Definition step (rnd : nat → Q) (s : LoopState) : option LoopState :=
  match stack s with
  | [] => None
  | current :: below =>
    let neighbors := getUnvisitedNeighbors (grid s) current in
    if bool_decide (length neighbors = 0%nat) then
      Some {| grid := grid s; stack := below;
              draws := draws s; pushed := pushed s |}
    else
      let i := randomIndex rnd (draws s) (length neighbors) in
      match at_index neighbors i with
      | None =>
        Some {| grid := grid s; stack := stack s;
                draws := S (draws s); pushed := pushed s |}
      | Some next =>
        let g := removeWallBetween (grid s) current next in
        let g := modify g next (set_visited true) in
        Some {| grid := g; stack := next :: stack s;
                draws := S (draws s); pushed := next :: pushed s |}
      end
  end.

(** The [while] loop; [None] when the fuel runs out. *)
Fixpoint loop (fuel : nat) (rnd : nat → Q) (s : LoopState)
  : option LoopState :=
  match fuel with
  | O => None
  | S fuel' =>
    match step rnd s with
    | None => Some s
    | Some s' => loop fuel' rnd s'
    end
  end.

(** Lines 92-101: allocation, the size check and the first push. *)
Definition enter (rows cols : Z) : Outcome LoopState :=
  let grid := createGrid rows cols in
  match cellAt grid 0 0 with
  | None => Thrown "Invalid grid size" grid
  | Some startCell =>
    Returned {| grid := modify grid (ref startCell) (set_visited true);
                stack := [ref startCell];
                draws := 0;
                pushed := [ref startCell] |}
  end.

(** Lines 103-121 after [enter]: the final state of the loop. *)
Definition carve (fuel : nat) (rnd : nat → Q) (rows cols : Z)
  : Outcome LoopState :=
  match enter rows cols with
  | Returned s0 =>
    match loop fuel rnd s0 with
    | Some s => Returned s
    | None => OutOfFuel
    end
  | Thrown msg h => Thrown msg h
  | OutOfFuel => OutOfFuel
  end.

Definition generateMaze (fuel : nat) (rnd : nat → Q) (rows cols : Z)
  : Outcome Maze :=
  match carve fuel rnd rows cols with
  | Returned s =>
    Returned {| rows := rows; cols := cols; cells := grid s;
                start := (0, 0); end_ := (rows - 1, cols - 1) |}
  | Thrown msg h => Thrown msg h
  | OutOfFuel => OutOfFuel
  end.

(** ** [getMazeDimensions] ([renderer.ts], lines 7-23 and 59-70) *)

Record RenderOptions := {
  cellSize : Z;
  wallThickness : Z;
  wallColor : string;
  backgroundColor : string;
  startStarColor : string;
  endStarColor : string
}.

(** [Partial<RenderOptions>]: any key may be absent. *)
Record PartialRenderOptions := {
  cellSize_opt : option Z;
  wallThickness_opt : option Z;
  wallColor_opt : option string;
  backgroundColor_opt : option string;
  startStarColor_opt : option string;
  endStarColor_opt : option string
}.

Definition DEFAULT_OPTIONS : RenderOptions :=
  {| cellSize := 20; wallThickness := 4; wallColor := "#2c3e50";
     backgroundColor := "#ffffff"; startStarColor := "#e74c3c";
     endStarColor := "#27ae60" |}.

(** [{ ...d, ...o }] *)
Definition spread (d : RenderOptions) (o : PartialRenderOptions)
  : RenderOptions :=
  {| cellSize := default (cellSize d) (cellSize_opt o);
     wallThickness := default (wallThickness d) (wallThickness_opt o);
     wallColor := default (wallColor d) (wallColor_opt o);
     backgroundColor := default (backgroundColor d) (backgroundColor_opt o);
     startStarColor := default (startStarColor d) (startStarColor_opt o);
     endStarColor := default (endStarColor d) (endStarColor_opt o) |}.

Record Dimensions := { width : Z; height : Z }.

Definition getMazeDimensions (maze : Maze) (options : PartialRenderOptions)
  : Dimensions :=
  let opts := spread DEFAULT_OPTIONS options in
  let cellSize := cellSize opts in
  let wallThickness := wallThickness opts in
  let width := cols maze * cellSize + wallThickness in
  let height := rows maze * cellSize + wallThickness in
  {| width := width; height := height |}.


(** ** Vocabulary of the properties *)

(** The shape of a grid: [R] lines of [C] cells. *)
Definition shape (R C : Z) (g : Grid) : Prop :=
  Z.of_nat (length g) = R ∧
  ∀ r line, at_index g r = Some line → Z.of_nat (length line) = C.

(** Every cell object sits in the slot its [row] and [col] name. *)
Definition placed (g : Grid) : Prop :=
  ∀ r c x, cellAt g r c = Some x → row x = r ∧ col x = c.

(** The reference [p] names a cell of an [R] x [C] grid. *)
Definition inside (R C : Z) (p : CellRef) : Prop :=
  0 ≤ p.1 < R ∧ 0 ≤ p.2 < C.

#[local] Instance inside_dec R C p : Decision (inside R C p).
Proof. unfold inside. apply _. Defined.

(** The four cardinal directions, the neighbouring reference in a direction,
    and the wall flag of a cell that faces it. *)
Inductive Dir := North | South | West | East.

#[local] Instance Dir_eq_dec : EqDecision Dir.
Proof. solve_decision. Defined.

Definition move (p : CellRef) (d : Dir) : CellRef :=
  match d with
  | North => (p.1 - 1, p.2)
  | South => (p.1 + 1, p.2)
  | West => (p.1, p.2 - 1)
  | East => (p.1, p.2 + 1)
  end.

Definition opp (d : Dir) : Dir :=
  match d with
  | North => South
  | South => North
  | West => East
  | East => West
  end.

Definition wall (d : Dir) (x : Cell) : bool :=
  match d with
  | North => top (walls x)
  | South => bottom (walls x)
  | West => left (walls x)
  | East => right (walls x)
  end.

Definition clear (d : Dir) : Cell → Cell :=
  match d with
  | North => set_top false
  | South => set_bottom false
  | West => set_left false
  | East => set_right false
  end.

(** [visited] of the cell behind a reference ([false] when there is none). *)
Definition visitedAt (g : Grid) (p : CellRef) : bool :=
  match cellAt g p.1 p.2 with
  | Some x => visited x
  | None => false
  end.

(** There is no wall between the cells [a] and [b], and they are adjacent:
    both flags that face each other are cleared. *)
Definition passage (g : Grid) (a b : CellRef) : bool :=
  match cellAt g a.1 a.2, cellAt g b.1 b.2 with
  | Some x, Some y =>
    if bool_decide (b = (a.1, a.2 + 1)) then
      negb (right (walls x)) && negb (left (walls y))
    else if bool_decide (b = (a.1, a.2 - 1)) then
      negb (left (walls x)) && negb (right (walls y))
    else if bool_decide (b = (a.1 + 1, a.2)) then
      negb (bottom (walls x)) && negb (top (walls y))
    else if bool_decide (b = (a.1 - 1, a.2)) then
      negb (top (walls x)) && negb (bottom (walls y))
    else false
  | _, _ => false
  end.

(** ** Graph vocabulary: walks, simple paths, trees *)

(** Consecutive vertices of [p] are joined by an edge. *)
Fixpoint walk {V} (E : V → V → Prop) (p : list V) : Prop :=
  match p with
  | x :: (y :: _) as q => E x y ∧ walk E q
  | _ => True
  end.
Arguments walk {V} E p : simpl never.

(** [p] is a simple path from [a] to [b]: it starts at [a], ends at [b],
    follows edges and visits no vertex twice. *)
Definition simple_path {V} (E : V → V → Prop) (a b : V) (p : list V) : Prop :=
  head p = Some a ∧ last p = Some b ∧ NoDup p ∧ walk E p.

(** [p] is a simple cycle: at least three distinct vertices in a ring. *)
Definition cycle {V} (E : V → V → Prop) (p : list V) : Prop :=
  (3 ≤ length p)%nat ∧ NoDup p ∧ walk E p ∧
  ∃ a b, head p = Some a ∧ last p = Some b ∧ E b a.

(** Any two vertices of [S] are joined by exactly one simple path. *)
Definition tree_on {V} (E : V → V → Prop) (S : V → Prop) : Prop :=
  ∀ a b, S a → S b →
    ∃ p, simple_path E a b p ∧ ∀ q, simple_path E a b q → q = p.

(** ** The grid graph and the passages of a grid *)

(** All references of an [R] x [C] grid. *)
Definition all_cells (R C : Z) : list CellRef :=
  cprod (seqZ 0 R) (seqZ 0 C).

(** The edges of the [R] x [C] grid graph, each once: a cell and its right
    neighbour, then a cell and the neighbour below it. *)
Definition grid_edges (R C : Z) : list (CellRef * CellRef) :=
  ((λ p, (p, move p East)) <$> cprod (seqZ 0 R) (seqZ 0 (C - 1))) ++
  ((λ p, (p, move p South)) <$> cprod (seqZ 0 (R - 1)) (seqZ 0 C)).

(** The edges of the grid graph without a wall. *)
Definition passages (R C : Z) (g : Grid) : list (CellRef * CellRef) :=
  filter (λ e, passage g e.1 e.2 = true) (grid_edges R C).

(** [passage] as an edge relation. *)
Definition edge (g : Grid) (a b : CellRef) : Prop := passage g a b = true.

(** The grid after carving from [p] in direction [d] (lines 117-118). *)
Definition carved (g : Grid) (p : CellRef) (d : Dir) : Grid :=
  modify (removeWallBetween g p (move p d)) (move p d) (set_visited true).

(** ** The contract of the random source and the loop invariant *)

(** [Math.random()] returns a number in [0, 1). *)
Definition random_ok (rnd : nat → Q) : Prop :=
  ∀ k, (0 <= rnd k)%Q ∧ (rnd k < 1)%Q.

(** The invariant of the carving loop on an [R] x [C] grid. *)
Record Inv (R C : Z) (s : LoopState) : Prop := {
  inv_shape : shape R C (grid s);
  inv_placed : placed (grid s);
  (* the cells pushed so far are the visited cells of the grid *)
  inv_pushed :
    ∀ p, p ∈ pushed s ↔ inside R C p ∧ visitedAt (grid s) p = true;
  inv_nodup : NoDup (pushed s);
  inv_stack : ∀ p, p ∈ stack s → p ∈ pushed s;
  inv_start : (0, 0) ∈ pushed s;
  (* a visited cell that has left the stack has no unvisited neighbour *)
  inv_done :
    ∀ p d, p ∈ pushed s → p ∉ stack s →
           inside R C (move p d) → move p d ∈ pushed s;
  (* a cleared wall flag belongs to a passage and to a visited cell *)
  inv_walls :
    ∀ p x d, cellAt (grid s) p.1 p.2 = Some x → wall d x = false →
             passage (grid s) p (move p d) = true ∧ visited x = true;
  inv_count : S (length (passages R C (grid s))) = length (pushed s);
  inv_tree : tree_on (edge (grid s)) (λ p, p ∈ pushed s)
}.

(** The variant of the loop: two units per cell still to push, one per
    stack entry still to pop. *)
Definition measure (R C : Z) (s : LoopState) : nat :=
  2 * (Z.to_nat (R * C) - length (pushed s)) + length (stack s).

(** ** Properties of a maze *)

(** The reference [p] names a cell of the maze. *)
Definition in_maze (m : Maze) (p : CellRef) : Prop :=
  inside (rows m) (cols m) p.

(** The passage graph of a maze: cells are nodes, "no wall between two
    adjacent cells" is an edge. *)
Definition maze_edge (m : Maze) (a b : CellRef) : Prop :=
  passage (cells m) a b = true.

(** Its edges join cells of the maze that are neighbours in the grid. *)
Definition grid_subgraph (m : Maze) : Prop :=
  ∀ a b, maze_edge m a b →
         in_maze m a ∧ in_maze m b ∧ maze_edge m b a ∧ ∃ d, b = move a d.

Definition connected (m : Maze) : Prop :=
  ∀ a b, in_maze m a → in_maze m b →
         ∃ p, head p = Some a ∧ last p = Some b ∧ walk (maze_edge m) p.

Definition acyclic (m : Maze) : Prop := ∀ p, ¬ cycle (maze_edge m) p.

(** The number of edges of the grid graph that are passages. *)
Definition edge_count (m : Maze) : Z :=
  Z.of_nat (length (passages (rows m) (cols m) (cells m))).

Definition unique_paths (m : Maze) : Prop :=
  tree_on (maze_edge m) (in_maze m).

(** A perfect maze: the passage graph is a spanning tree of the grid graph. *)
Definition perfect (m : Maze) : Prop :=
  grid_subgraph m ∧ connected m ∧ acyclic m ∧
  edge_count m = rows m * cols m - 1 ∧ unique_paths m.

(** Number of hops of a path. *)
Definition hops (p : list CellRef) : Z := Z.of_nat (length p) - 1.

Definition all_walls : Walls :=
  {| top := true; right := true; bottom := true; left := true |}.

(** A visited cell with the given walls (top, right, bottom, left). *)
Definition visitedCell (r c : Z) (t rt b l : bool) : Cell :=
  {| row := r; col := c;
     walls := {| top := t; right := rt; bottom := b; left := l |};
     visited := true |}.

(** No option given. *)
Definition no_options : PartialRenderOptions :=
  {| cellSize_opt := None; wallThickness_opt := None;
     wallColor_opt := None; backgroundColor_opt := None;
     startStarColor_opt := None; endStarColor_opt := None |}.

(** A sample random sequence within [0, 1). *)
Definition rnd_sample (k : nat) : Q :=
  if Nat.even k then (1 # 2)%Q else (9 # 10)%Q.

(** The first [n] numbers of [rnd_sample], then numbers outside [0, 1). *)
Definition rnd_prefix (n k : nat) : Q :=
  if (k <? n)%nat then rnd_sample k else (7 # 2)%Q.

(** The same numbers written as other fractions. *)
Definition rnd_sample' (k : nat) : Q :=
  if Nat.even k then (2 # 4)%Q else (18 # 20)%Q.

(** ** States reached by the carving loop *)

(** The state after [n] passes through the body of the [while] loop; [None]
    when the loop has ended before. *)
Fixpoint run (n : nat) (rnd : nat → Q) (s : LoopState) : option LoopState :=
  match n with
  | O => Some s
  | S n' =>
    match step rnd s with
    | None => None
    | Some s' => run n' rnd s'
    end
  end.

(** The four neighbouring references in the order the code looks at them. *)
Definition around (p : CellRef) : list CellRef :=
  [(p.1 - 1, p.2); (p.1 + 1, p.2); (p.1, p.2 - 1); (p.1, p.2 + 1)].

(** The stack, top first, is a simple path of passages that ends at the
    start cell. *)
Definition stack_path (s : LoopState) : Prop :=
  walk (edge (grid s)) (stack s) ∧ NoDup (stack s) ∧
  (stack s ≠ [] → last (stack s) = Some (0, 0)).

(** ** [renderMaze] ([renderer.ts], lines 75-151) *)

(** The calls made on the drawing context, in order; an assignment to a
    property of the context is the call of its setter.  [DrawStar] stands
    for a call of [drawStar], whose trigonometry is not modelled.  Sizes and
    offsets are integers; coordinates are rationals, because of
    [wallThickness / 2]. *)
Inductive Command :=
  | SetFillStyle (color : string)
  | FillRect (x y w h : Q)
  | SetStrokeStyle (color : string)
  | SetLineWidth (w : Q)
  | SetLineCap (cap : string)
  | SetLineJoin (join : string)
  | BeginPath
  | MoveTo (x y : Q)
  | LineTo (x y : Q)
  | Stroke
  | DrawStar (cx cy outerRadius innerRadius : Q) (color : string).

(** A complete [RenderOptions] passed where a [Partial<RenderOptions>] is
    expected. *)
Definition as_partial (o : RenderOptions) : PartialRenderOptions :=
  {| cellSize_opt := Some (cellSize o);
     wallThickness_opt := Some (wallThickness o);
     wallColor_opt := Some (wallColor o);
     backgroundColor_opt := Some (backgroundColor o);
     startStarColor_opt := Some (startStarColor o);
     endStarColor_opt := Some (endStarColor o) |}.

(** [ctx.beginPath(); ctx.moveTo(..); ctx.lineTo(..); ctx.stroke();] *)
Definition strokeLine (xa ya xb yb : Q) : list Command :=
  [BeginPath; MoveTo xa ya; LineTo xb yb; Stroke].

(** The body of the two [for] loops (lines 101-135) for the slot
    [(r, c)]. *)
Definition renderCell (maze : Maze) (offsetX offsetY cellSize : Z)
    (halfWall : Q) (r c : Z) : list Command :=
  match cellAt (cells maze) r c with
  | None => []
  | Some cell =>
    let x := (inject_Z offsetX + inject_Z c * inject_Z cellSize + halfWall)%Q in
    let y := (inject_Z offsetY + inject_Z r * inject_Z cellSize + halfWall)%Q in
    (if top (walls cell)
     then strokeLine x y (x + inject_Z cellSize)%Q y else []) ++
    (if left (walls cell)
     then strokeLine x y x (y + inject_Z cellSize)%Q else []) ++
    (if bool_decide (c = cols maze - 1) && right (walls cell)
     then strokeLine (x + inject_Z cellSize)%Q y
                     (x + inject_Z cellSize)%Q (y + inject_Z cellSize)%Q
     else []) ++
    (if bool_decide (r = rows maze - 1) && bottom (walls cell)
     then strokeLine x (y + inject_Z cellSize)%Q
                     (x + inject_Z cellSize)%Q (y + inject_Z cellSize)%Q
     else [])
  end.

Definition renderMaze (maze : Maze) (offsetX offsetY : Z)
    (options : PartialRenderOptions) : list Command :=
  let opts := spread DEFAULT_OPTIONS options in
  let halfWall := (inject_Z (wallThickness opts) / 2)%Q in
  let dims := getMazeDimensions maze (as_partial opts) in
  let starRadius := (inject_Z (cellSize opts) * (35 # 100))%Q in
  let startCellX :=
    (inject_Z offsetX + inject_Z (start maze).2 * inject_Z (cellSize opts)
     + halfWall + inject_Z (cellSize opts) / 2)%Q in
  let startCellY :=
    (inject_Z offsetY + inject_Z (start maze).1 * inject_Z (cellSize opts)
     + halfWall + inject_Z (cellSize opts) / 2)%Q in
  let endCellX :=
    (inject_Z offsetX + inject_Z (end_ maze).2 * inject_Z (cellSize opts)
     + halfWall + inject_Z (cellSize opts) / 2)%Q in
  let endCellY :=
    (inject_Z offsetY + inject_Z (end_ maze).1 * inject_Z (cellSize opts)
     + halfWall + inject_Z (cellSize opts) / 2)%Q in
  [SetFillStyle (backgroundColor opts);
   FillRect (inject_Z offsetX) (inject_Z offsetY)
            (inject_Z (width dims)) (inject_Z (height dims));
   SetStrokeStyle (wallColor opts);
   SetLineWidth (inject_Z (wallThickness opts));
   SetLineCap "round";
   SetLineJoin "round"] ++
  (r ← seqZ 0 (rows maze);
   c ← seqZ 0 (cols maze);
   renderCell maze offsetX offsetY (cellSize opts) halfWall r c) ++
  [DrawStar startCellX startCellY starRadius (starRadius * (4 # 10))%Q
            (startStarColor opts);
   DrawStar endCellX endCellY starRadius (starRadius * (4 # 10))%Q
            (endStarColor opts)].

(** ** What a list of drawing calls paints *)

(** A straight line from [(xa, ya)] to [(xb, yb)]. *)
Record Segment := { xa : Q; ya : Q; xb : Q; yb : Q }.

(** The same line, whatever fractions its coordinates are written as. *)
Definition same_segment (s t : Segment) : Prop :=
  (xa s == xa t)%Q ∧ (ya s == ya t)%Q ∧ (xb s == xb t)%Q ∧ (yb s == yb t)%Q.

(** The lines stroked by a list of calls: each group
    [beginPath, moveTo, lineTo, stroke]. *)
Fixpoint segments (cmds : list Command) : list Segment :=
  match cmds with
  | BeginPath :: MoveTo x y :: LineTo x' y' :: Stroke :: rest =>
    {| xa := x; ya := y; xb := x'; yb := y' |} :: segments rest
  | _ :: rest => segments rest
  | [] => []
  end.

(** The line along the side [d] of the slot [(r, c)] of a maze drawn at
    [(offsetX, offsetY)]: walls run along the grid lines
    [offset + k * cellSize + wallThickness / 2]. *)
Definition gridLine (offset cellSize wallThickness k : Z) : Q :=
  (inject_Z offset + inject_Z k * inject_Z cellSize
   + inject_Z wallThickness / 2)%Q.

Definition wallLine (offsetX offsetY cellSize wallThickness : Z)
    (r c : Z) (d : Dir) : Segment :=
  let X := gridLine offsetX cellSize wallThickness in
  let Y := gridLine offsetY cellSize wallThickness in
  match d with
  | North => {| xa := X c; ya := Y r; xb := X (c + 1); yb := Y r |}
  | West => {| xa := X c; ya := Y r; xb := X c; yb := Y (r + 1) |}
  | East => {| xa := X (c + 1); ya := Y r; xb := X (c + 1); yb := Y (r + 1) |}
  | South => {| xa := X c; ya := Y (r + 1); xb := X (c + 1); yb := Y (r + 1) |}
  end.

(** Facing wall flags of neighbouring cells agree. *)
Definition symmetric_walls (g : Grid) : Prop :=
  ∀ r c d x y, cellAt g r c = Some x →
    cellAt g (move (r, c) d).1 (move (r, c) d).2 = Some y →
    wall d x = wall (opp d) y.

(** The sides of the slot [(r, c)] that [renderCell] strokes, in order. *)
Definition drawnSides (maze : Maze) (r c : Z) : list Dir :=
  match cellAt (cells maze) r c with
  | None => []
  | Some cell =>
    (if top (walls cell) then [North] else []) ++
    (if left (walls cell) then [West] else []) ++
    (if bool_decide (c = cols maze - 1) && right (walls cell)
     then [East] else []) ++
    (if bool_decide (r = rows maze - 1) && bottom (walls cell)
     then [South] else [])
  end.

(** The line [renderCell] strokes for the side [d] of the slot [(r, c)],
    with the coordinates as the code computes them. *)
Definition sideLine (offsetX offsetY cellSize : Z) (halfWall : Q)
    (r c : Z) (d : Dir) : Segment :=
  let x := (inject_Z offsetX + inject_Z c * inject_Z cellSize + halfWall)%Q in
  let y := (inject_Z offsetY + inject_Z r * inject_Z cellSize + halfWall)%Q in
  match d with
  | North => {| xa := x; ya := y; xb := (x + inject_Z cellSize)%Q; yb := y |}
  | West => {| xa := x; ya := y; xb := x; yb := (y + inject_Z cellSize)%Q |}
  | East => {| xa := (x + inject_Z cellSize)%Q; ya := y;
               xb := (x + inject_Z cellSize)%Q;
               yb := (y + inject_Z cellSize)%Q |}
  | South => {| xa := x; ya := (y + inject_Z cellSize)%Q;
                xb := (x + inject_Z cellSize)%Q;
                yb := (y + inject_Z cellSize)%Q |}
  end.

(** The sides stroked for the whole maze, slot by slot. *)
Definition drawnWalls (maze : Maze) : list (Z * Z * Dir) :=
  r ← seqZ 0 (rows maze);
  c ← seqZ 0 (cols maze);
  (λ d, (r, c, d)) <$> drawnSides maze r c.

(** The maze that [generateMaze(2, 2)] carves from [rnd_sample]. *)
Definition sample_maze : Maze :=
  {| rows := 2; cols := 2;
     cells := [[visitedCell 0 0 true false true true;
                visitedCell 0 1 true true false false];
               [visitedCell 1 0 true false true true;
                visitedCell 1 1 false true true false]];
     start := (0, 0); end_ := (1, 1) |}.

(** ** [calculateLayout] ([pdf.ts], lines 9-98) *)

(** Numbers are exact rationals here; the rounding of JavaScript's floating
    point is not modelled.  [Infinity], the first value of [minScale], is
    [None]. *)

Module MazeLayout.
Record t := { x : Q; y : Q; width : Q; height : Q; scale : Q }.
End MazeLayout.

Definition PAGE_WIDTH_PT : Q := (85 # 10) * 72.
Definition PAGE_HEIGHT_PT : Q := 11 * 72.
Definition MARGIN_PT : Q := 36.
Definition USABLE_WIDTH : Q := PAGE_WIDTH_PT - 2 * MARGIN_PT.
Definition USABLE_HEIGHT : Q := PAGE_HEIGHT_PT - 2 * MARGIN_PT.

(** The object [{ cellSize, wallThickness }]. *)
Definition sizeOptions (cellSize wallThickness : Z) : PartialRenderOptions :=
  {| cellSize_opt := Some cellSize;
     wallThickness_opt := Some wallThickness;
     wallColor_opt := None; backgroundColor_opt := None;
     startStarColor_opt := None; endStarColor_opt := None |}.

(** Lines 56-58: the scale at which a maze of size [dim] fills 90% of a
    cell of [cellWidth] x [cellHeight]. *)
Definition scaleOf (cellWidth cellHeight : Q) (dim : Dimensions) : Q :=
  let scaleX := (cellWidth / inject_Z (width dim))%Q in
  let scaleY := (cellHeight / inject_Z (height dim))%Q in
  (Qmin scaleX scaleY * (9 # 10))%Q.

(** [Math.min(minScale, scale)], with [None] for [Infinity]. *)
Definition minWith (minScale : option Q) (scale : Q) : Q :=
  match minScale with
  | None => scale
  | Some m => Qmin m scale
  end.

(** Lines 54-60: the smallest scale over all mazes ([None]: still
    [Infinity]). *)
Definition minScaleFor (cellWidth cellHeight : Q)
    (mazeDimensions : list Dimensions) : option Q :=
  foldl (λ minScale dim,
           Some (minWith minScale (scaleOf cellWidth cellHeight dim)))
        None mazeDimensions.

(** [Math.ceil(count / cols)] *)
Definition rowsFor (count cols : Z) : Z :=
  Qceiling (inject_Z count / inject_Z cols).

(** Lines 46-67, one pass of the loop over [cols]; the state is
    [(bestCols, bestRows, bestScale)]. *)
Definition tryArrangement (count : Z) (mazeDimensions : list Dimensions)
    (best : Z * Z * option Q) (cols : Z) : Z * Z * option Q :=
  let '(bestCols, bestRows, bestScale) := best in
  let rows := rowsFor count cols in
  let cellWidth := (USABLE_WIDTH / inject_Z cols)%Q in
  let cellHeight := (USABLE_HEIGHT / inject_Z rows)%Q in
  let minScale := minScaleFor cellWidth cellHeight mazeDimensions in
  let better :=
    match minScale, bestScale with
    | Some m, Some b => if Qlt_le_dec b m then true else false
    | None, Some _ => true
    | _, None => false
    end in
  if better then (cols, rows, minScale) else best.

(** Lines 78-94: the place of the maze number [i], of size [dim]. *)
Definition layoutOf (bestCols bestRows : Z) (bestScale : Q) (i : Z)
    (dim : Dimensions) : MazeLayout.t :=
  let cellWidth := (USABLE_WIDTH / inject_Z bestCols)%Q in
  let cellHeight := (USABLE_HEIGHT / inject_Z bestRows)%Q in
  let col := Z.rem i bestCols in
  let row := Qfloor (inject_Z i / inject_Z bestCols) in
  let scaledWidth := (inject_Z (width dim) * bestScale)%Q in
  let scaledHeight := (inject_Z (height dim) * bestScale)%Q in
  let x := (MARGIN_PT + inject_Z col * cellWidth
            + (cellWidth - scaledWidth) / 2)%Q in
  let y := (MARGIN_PT + inject_Z row * cellHeight
            + (cellHeight - scaledHeight) / 2)%Q in
  {| MazeLayout.x := x; MazeLayout.y := y;
     MazeLayout.width := scaledWidth; MazeLayout.height := scaledHeight;
     MazeLayout.scale := bestScale |}.

(** Lines 74-95 for the index [i]. *)
Definition layoutAt (mazeDimensions : list Dimensions)
    (bestCols bestRows : Z) (bestScale : Q) (i : Z) : list MazeLayout.t :=
  match at_index mazeDimensions i with
  | None => []
  | Some dim => [layoutOf bestCols bestRows bestScale i dim]
  end.

(** The result is [None] where JavaScript would compute with [Infinity] or
    [NaN], which the rationals do not have: when a maze has a width or a
    height of [0] (a division by zero), and when [bestScale] is still
    [Infinity] after the loop. *)
Definition calculateLayout (mazes : list Maze) (cellSize wallThickness : Z)
  : option (list MazeLayout.t) :=
  let count := Z.of_nat (length mazes) in
  if bool_decide (count = 0) then Some [] else
  let mazeDimensions :=
    (λ maze, getMazeDimensions maze (sizeOptions cellSize wallThickness))
    <$> mazes in
  if bool_decide (Exists (λ d, width d = 0 ∨ height d = 0) mazeDimensions)
  then None else
  let mazeAspects :=
    (λ d, (inject_Z (width d) / inject_Z (height d))%Q) <$> mazeDimensions in
  let avgAspect :=
    (foldl Qplus 0%Q mazeAspects / inject_Z count)%Q in
  let '(bestCols, bestRows, bestScale) :=
    foldl (tryArrangement count mazeDimensions) (1, count, Some 0%Q)
          (seqZ 1 count) in
  match bestScale with
  | None => None
  | Some bestScale =>
    Some (i ← seqZ 0 count;
          layoutAt mazeDimensions bestCols bestRows bestScale i)
  end.

(** The [minScale] that lines 47-60 compute for [cols] columns. *)
Definition arrangementScale (count : Z) (mazeDimensions : list Dimensions)
    (cols : Z) : option Q :=
  minScaleFor (USABLE_WIDTH / inject_Z cols)
              (USABLE_HEIGHT / inject_Z (rowsFor count cols)) mazeDimensions.

(** A maze that [getMazeDimensions] gives a positive width and height, for
    the sizes [calculateLayout] is called with. *)
Definition positive_size (cellSize wallThickness : Z) (maze : Maze) : Prop :=
  0 < width (getMazeDimensions maze (sizeOptions cellSize wallThickness)) ∧
  0 < height (getMazeDimensions maze (sizeOptions cellSize wallThickness)).



(** ** [exportToPdf] ([pdf.ts], lines 103-166) *)

(** What [exportToPdf] does to its canvas and to the document, in order: the
    two assignments to the size of the canvas, the calls on the drawing
    context, and the calls on the document.  [AddImage] stands for
    [canvas.toDataURL] followed by [doc.addImage]: the picture is what the
    canvas shows at that moment. *)
Inductive PdfCall :=
  | SetCanvasWidth (w : Z)
  | SetCanvasHeight (h : Z)
  | Ctx (c : Command)
  | CtxSave
  | CtxScale (sx sy : Z)
  | CtxRestore
  | AddImage (format : string) (x y w h : Q)
  | SaveDoc (filename : string).

Inductive PdfOutcome :=
  | NoDocument                        (* line 104: [return] *)
  | PdfThrown (msg : string)          (* line 122 *)
  | NotANumber                        (* a layout of [NaN] or [Infinity] *)
  | Saved (calls : list PdfCall).

(** Lines 126-133: the largest width and height over the mazes, at
    [renderScale], and at least [0]. *)
Definition canvasSize (mazes : list Maze) (baseCellSize wallThickness : Z)
    (renderScale : Z) : Z * Z :=
  foldl (λ '(maxWidth, maxHeight) maze,
           let dim := getMazeDimensions maze
                        (sizeOptions baseCellSize wallThickness) in
           (Z.max maxWidth (width dim * renderScale),
            Z.max maxHeight (height dim * renderScale)))
        (0, 0) mazes.

(** Lines 139-162, one pass of the loop. *)
Definition exportPage (canvasWidth canvasHeight : Z)
    (baseCellSize wallThickness renderScale : Z)
    (maze : option Maze) (layout : option MazeLayout.t) : list PdfCall :=
  match maze, layout with
  | Some maze, Some layout =>
    [Ctx (SetFillStyle "#ffffff");
     Ctx (FillRect 0 0 (inject_Z canvasWidth) (inject_Z canvasHeight));
     CtxSave;
     CtxScale renderScale renderScale] ++
    (Ctx <$> renderMaze maze 0 0 (sizeOptions baseCellSize wallThickness)) ++
    [CtxRestore;
     AddImage "PNG" (MazeLayout.x layout) (MazeLayout.y layout)
              (MazeLayout.width layout) (MazeLayout.height layout)]
  | _, _ => []
  end.

(** [hasContext] tells whether [canvas.getContext("2d")] gives a context;
    [filename] is [None] when the argument is left out. *)
Definition exportToPdf (hasContext : bool) (mazes : list Maze)
    (filename : option string) : PdfOutcome :=
  let filename := default "mazes.pdf" filename in
  if bool_decide (length mazes = 0%nat) then NoDocument else
  let baseCellSize := 20 in
  let wallThickness := 4 in
  let layouts := calculateLayout mazes baseCellSize wallThickness in
  if negb hasContext then PdfThrown "Could not create canvas context" else
  let renderScale := 2 in
  let '(maxWidth, maxHeight) :=
    canvasSize mazes baseCellSize wallThickness renderScale in
  match layouts with
  | None => NotANumber
  | Some layouts =>
    Saved ([SetCanvasWidth maxWidth; SetCanvasHeight maxHeight] ++
           (i ← seq 0 (length mazes);
            exportPage maxWidth maxHeight baseCellSize wallThickness
              renderScale (mazes !! i) (layouts !! i)) ++
           [SaveDoc filename])
  end.

(** The rectangle [(x, y, width, height)] of a layout, and the rectangles of
    the page on which a list of calls puts a picture. *)
Definition placement (l : MazeLayout.t) : Q * Q * Q * Q :=
  (MazeLayout.x l, MazeLayout.y l, MazeLayout.width l, MazeLayout.height l).

Definition images (calls : list PdfCall) : list (Q * Q * Q * Q) :=
  omap (λ call,
          match call with
          | AddImage _ x y w h => Some (x, y, w, h)
          | _ => None
          end) calls.

(** * The application ([main.ts]) *)

Module Settings.
Record t := { rows : Z; cols : Z; mazesPerPage : Z }.
End Settings.

Definition DEFAULT_SETTINGS : Settings.t :=
  {| Settings.rows := 30; Settings.cols := 20; Settings.mazesPerPage := 2 |}.

(** ** [parseInt(string, 10)] and [String(number)] *)

(** The value of an input element is a string of characters below 256.
    Numbers are exact integers: the rounding of numerals of more than 15
    digits is not modelled.  [None] is [NaN]. *)
Definition isWhiteSpace (a : ascii) : bool :=
  let n := nat_of_ascii a in
  bool_decide (9 ≤ n ≤ 13)%nat || bool_decide (n = 32)%nat
  || bool_decide (n = 160)%nat.

Fixpoint trimStart (s : string) : string :=
  match s with
  | String a s' => if isWhiteSpace a then trimStart s' else s
  | EmptyString => s
  end.

Definition digitOf (a : ascii) : option Z :=
  let n := Z.of_nat (nat_of_ascii a) in
  if bool_decide (48 ≤ n ≤ 57) then Some (n - 48) else None.

(** The number that the leading digits of [s] denote, after the digits
    already read, which denote [acc]. *)
Fixpoint readDigits (acc : Z) (s : string) : Z :=
  match s with
  | String a s' =>
    match digitOf a with
    | Some d => readDigits (acc * 10 + d) s'
    | None => acc
    end
  | EmptyString => acc
  end.

Definition parseInt (s : string) : option Z :=
  let s := trimStart s in
  let '(sign, s) :=
    match s with
    | String "-"%char s' => (-1, s')
    | String "+"%char s' => (1, s')
    | _ => (1, s)
    end in
  match s with
  | String a _ =>
    match digitOf a with
    | Some _ => Some (sign * readDigits 0 s)
    | None => None
    end
  | EmptyString => None
  end.

(** [String(n)] for an integer [n] with less than 22 digits: the decimal
    numeral, with [-] before a negative one. *)
Definition String_ (n : Z) : string := pretty n.

(** [x || d] for numbers: [NaN] and [0] are falsy. *)
Definition orDefault (x : option Z) (d : Z) : Z :=
  match x with
  | Some z => if bool_decide (z = 0) then d else z
  | None => d
  end.

(** ** The page and the state of the application *)

(** A canvas element that [renderMazesToContainer] has made: the width and
    height assigned to it, its class, and the calls made on its context. *)
Record Canvas := {
  canvasWidth : Z;
  canvasHeight : Z;
  className : string;
  painted : list Command
}.

Inductive Listener := GenerateNewMazes | HandlePrint.

(** What [main.ts] sees of the document.  An element is [None] when
    [getElementById] gives [null]; an input element is its [value], the
    container its children, a button its [click] listeners.
    [canvasContext] tells whether [getContext("2d")] gives a context. *)
Record Page := {
  rowsInput : option string;
  colsInput : option string;
  mazesInput : option string;
  mazeContainer : option (list Canvas);
  generateBtn : option (list Listener);
  printBtn : option (list Listener);
  canvasContext : bool
}.

(** The two module variables, the page, and the number of calls of
    [Math.random] made so far. *)
Record App := {
  currentSettings : Settings.t;
  currentMazes : list Maze;
  page : Page;
  randoms : nat
}.

(** How a function of the application ends. *)
Inductive Ran :=
  | Finished (app : App)
  | Failed (msg : string) (app : App)
  | Unfinished.

(** Lines 24-34. *)
Definition getSettings (p : Page) : Settings.t :=
  {| Settings.rows :=
       match rowsInput p with
       | Some value => orDefault (parseInt value) (Settings.rows DEFAULT_SETTINGS)
       | None => Settings.rows DEFAULT_SETTINGS
       end;
     Settings.cols :=
       match colsInput p with
       | Some value => orDefault (parseInt value) (Settings.cols DEFAULT_SETTINGS)
       | None => Settings.cols DEFAULT_SETTINGS
       end;
     Settings.mazesPerPage :=
       match mazesInput p with
       | Some value =>
         orDefault (parseInt value) (Settings.mazesPerPage DEFAULT_SETTINGS)
       | None => Settings.mazesPerPage DEFAULT_SETTINGS
       end |}.

(** Lines 46-58, one pass of the loop. *)
Definition canvasFor (hasContext : bool) (maze : Maze) : Canvas :=
  let cellSize := 16 in
  let wallThickness := 3 in
  let dims := getMazeDimensions maze (sizeOptions cellSize wallThickness) in
  {| canvasWidth := width dims;
     canvasHeight := height dims;
     className := "maze-canvas";
     painted := if hasContext
                then renderMaze maze 0 0 (sizeOptions cellSize wallThickness)
                else [] |}.

Definition setContainer (p : Page) (children : list Canvas) : Page :=
  {| rowsInput := rowsInput p; colsInput := colsInput p;
     mazesInput := mazesInput p; mazeContainer := Some children;
     generateBtn := generateBtn p; printBtn := printBtn p;
     canvasContext := canvasContext p |}.

(** Lines 36-60. *)
Definition renderMazesToContainer (app : App) : App :=
  match mazeContainer (page app) with
  | None => app
  | Some _ =>
    {| currentSettings := currentSettings app;
       currentMazes := currentMazes app;
       page := setContainer (page app)
                 (canvasFor (canvasContext (page app)) <$> currentMazes app);
       randoms := randoms app |}
  end.

(** A call [generateMaze(rows, cols)] after [drawn] calls of [Math.random]:
    the maze, and the number of calls made when it returns. *)
Definition generateMazeAfter (fuel : nat) (rnd : nat → Q) (drawn : nat)
    (rows cols : Z) : Outcome (Maze * nat) :=
  let rnd' := λ k, rnd (drawn + k)%nat in
  match generateMaze fuel rnd' rows cols, carve fuel rnd' rows cols with
  | Returned maze, Returned s => Returned (maze, (drawn + draws s)%nat)
  | Thrown msg h, _ => Thrown msg h
  | _, _ => OutOfFuel
  end.

(** Lines 66-68: [n] more passes of the loop. *)
Fixpoint generateLoop (fuel : nat) (rnd : nat → Q) (n : nat) (app : App)
  : Ran :=
  match n with
  | O => Finished app
  | S n' =>
    match generateMazeAfter fuel rnd (randoms app)
            (Settings.rows (currentSettings app))
            (Settings.cols (currentSettings app)) with
    | Returned (maze, drawn) =>
      generateLoop fuel rnd n'
        {| currentSettings := currentSettings app;
           currentMazes := currentMazes app ++ [maze];
           page := page app;
           randoms := drawn |}
    | Thrown msg _ => Failed msg app
    | OutOfFuel => Unfinished
    end
  end.

(** Lines 62-71.  [fuel] bounds the loop of each call of [generateMaze]. *)
Definition generateNewMazes (fuel : nat) (rnd : nat → Q) (app : App) : Ran :=
  let app :=
    {| currentSettings := getSettings (page app);
       currentMazes := [];
       page := page app;
       randoms := randoms app |} in
  match generateLoop fuel rnd
          (Z.to_nat (Settings.mazesPerPage (currentSettings app))) app with
  | Finished app => Finished (renderMazesToContainer app)
  | r => r
  end.

(** Lines 73-78: how the call ends, and what [exportToPdf] did when it was
    reached. *)
Definition handlePrint (fuel : nat) (rnd : nat → Q) (app : App)
  : Ran * option PdfOutcome :=
  let r := if bool_decide (length (currentMazes app) = 0%nat)
           then generateNewMazes fuel rnd app
           else Finished app in
  match r with
  | Finished app =>
    match exportToPdf (canvasContext (page app)) (currentMazes app)
            (Some "mazes.pdf") with
    | PdfThrown msg => (Failed msg app, Some (PdfThrown msg))
    | out => (Finished app, Some out)
    end
  | r => (r, None)
  end.

(** Lines 80-104. *)
Definition init (fuel : nat) (rnd : nat → Q) (app : App) : Ran :=
  let p := page app in
  let p :=
    {| rowsInput := (λ _, String_ (Settings.rows DEFAULT_SETTINGS))
                      <$> rowsInput p;
       colsInput := (λ _, String_ (Settings.cols DEFAULT_SETTINGS))
                      <$> colsInput p;
       mazesInput := (λ _, String_ (Settings.mazesPerPage DEFAULT_SETTINGS))
                       <$> mazesInput p;
       mazeContainer := mazeContainer p;
       generateBtn := (λ ls, ls ++ [GenerateNewMazes]) <$> generateBtn p;
       printBtn := (λ ls, ls ++ [HandlePrint]) <$> printBtn p;
       canvasContext := canvasContext p |} in
  generateNewMazes fuel rnd
    {| currentSettings := currentSettings app;
       currentMazes := currentMazes app;
       page := p;
       randoms := randoms app |}.

(** * Properties *)

(** ** Arrays and the grid as a store *)

Lemma at_index_Some {A} (l : list A) (i : Z) (x : A) :
  at_index l i = Some x ↔ 0 ≤ i ∧ l !! Z.to_nat i = Some x.
Proof.
  unfold at_index. case_bool_decide; [tauto|].
  split; [done | intros [? _]; lia].
Qed.

Lemma at_index_is_Some {A} (l : list A) (i : Z) :
  is_Some (at_index l i) ↔ 0 ≤ i < Z.of_nat (length l).
Proof.
  unfold at_index. case_bool_decide.
  - rewrite lookup_lt_is_Some. lia.
  - split; [intros [? ?]; done | lia].
Qed.

Lemma at_index_None {A} (l : list A) (i : Z) :
  at_index l i = None ↔ ¬ (0 ≤ i < Z.of_nat (length l)).
Proof.
  rewrite <- at_index_is_Some, eq_None_not_Some. done.
Qed.

Lemma length_modify g p f : length (modify g p f) = length g.
Proof.
  unfold modify. case_bool_decide; [apply length_alter | done].
Qed.

Lemma at_index_modify g p f r :
  at_index (modify g p f) r =
  if decide (p.1 = r ∧ 0 ≤ p.2)
  then alter f (Z.to_nat p.2) <$> at_index g r
  else at_index g r.
Proof.
  unfold modify, at_index. destruct p as [pr pc]; simpl.
  repeat (case_bool_decide || case_decide); try done; try lia.
  - rewrite list_lookup_alter. case_decide; [|lia].
    replace r with pr by lia. done.
  - rewrite list_lookup_alter. case_decide; [lia | done].
Qed.

Lemma cellAt_modify g p f r c :
  cellAt (modify g p f) r c =
  if decide (p = (r, c)) then f <$> cellAt g r c else cellAt g r c.
Proof.
  unfold cellAt. rewrite at_index_modify. destruct p as [pr pc]; simpl.
  case_decide as H1.
  - destruct H1 as [-> H1]. destruct (at_index g r) as [line|]; simpl.
    + unfold at_index. case_bool_decide.
      * rewrite list_lookup_alter.
        destruct (decide (pc = c)) as [->|Hne].
        -- by rewrite !decide_True.
        -- rewrite !decide_False by (try lia; congruence). done.
      * case_decide; [simplify_eq; lia | done].
    + case_decide; done.
  - case_decide; [simplify_eq|done].
    destruct (at_index g r) as [line|]; [|done]; simpl.
    unfold at_index. case_bool_decide; [lia | done].
Qed.

Lemma shape_modify R C g p f : shape R C g → shape R C (modify g p f).
Proof.
  intros [HR HC]. split; [by rewrite length_modify|].
  intros r line. rewrite at_index_modify. case_decide.
  - destruct (at_index g r) as [l0|] eqn:E; [|done]. simpl.
    intros [= <-]. rewrite length_alter. eauto.
  - eauto.
Qed.

Lemma shape_cellAt R C g r c :
  shape R C g → is_Some (cellAt g r c) ↔ inside R C (r, c).
Proof.
  intros [HR HC]. unfold cellAt, inside. simpl.
  destruct (at_index g r) as [line|] eqn:E.
  - rewrite at_index_is_Some. rewrite (HC _ _ E).
    assert (is_Some (at_index g r)) as H by eauto.
    apply at_index_is_Some in H. lia.
  - apply at_index_None in E. split; [intros [? ?]; done | lia].
Qed.

Lemma shape_first_line R C g :
  shape R C g → 0 < R →
  match at_index g 0 with
  | Some line => Z.of_nat (length line)
  | None => 0
  end = C.
Proof.
  intros [HR HC] ?. destruct (at_index g 0) as [line|] eqn:E; [eauto|].
  apply at_index_None in E. lia.
Qed.

Lemma placed_modify g p f :
  (∀ x, row (f x) = row x ∧ col (f x) = col x) →
  placed g → placed (modify g p f).
Proof.
  intros Hf Hg r c x. rewrite cellAt_modify. case_decide; [|apply Hg].
  destruct (cellAt g r c) as [y|] eqn:E; [|done]. simpl. intros [= <-].
  destruct (Hf y) as [-> ->]. eauto.
Qed.

(** ** [createGrid] *)

Lemma cellAt_createGrid R C r c :
  cellAt (createGrid R C) r c =
  if decide (inside R C (r, c)) then Some (newCell r c) else None.
Proof.
  unfold cellAt, createGrid, at_index, inside. simpl.
  case_bool_decide as Hr.
  - rewrite list_lookup_fmap.
    destruct (seqZ 0 R !! Z.to_nat r) as [r'|] eqn:Er; simpl.
    + apply lookup_seqZ in Er as [-> Er].
      case_bool_decide as Hc.
      * rewrite list_lookup_fmap.
        destruct (seqZ 0 C !! Z.to_nat c) as [c'|] eqn:Ec; simpl.
        -- apply lookup_seqZ in Ec as [-> Ec].
           rewrite decide_True by lia. f_equal. f_equal; lia.
        -- rewrite decide_False; [done|].
           intros [? ?]. rewrite lookup_seqZ_lt in Ec by lia. done.
      * rewrite decide_False; [done | lia].
    + rewrite decide_False; [done|].
      intros [? ?]. rewrite lookup_seqZ_lt in Er by lia. done.
  - rewrite decide_False; [done | lia].
Qed.

Lemma shape_createGrid R C : 0 ≤ R → 0 ≤ C → shape R C (createGrid R C).
Proof.
  intros HR HC. unfold createGrid. split.
  - rewrite length_fmap, length_seqZ. lia.
  - intros r line. rewrite at_index_Some, list_lookup_fmap.
    intros [_ H]. apply fmap_Some in H as (r' & _ & ->).
    rewrite length_fmap, length_seqZ. lia.
Qed.

Lemma placed_createGrid R C : placed (createGrid R C).
Proof.
  intros r c x. rewrite cellAt_createGrid. case_decide; [|done].
  by intros [= <-].
Qed.

(** ** Directions *)

Lemma move_opp p d : move (move p d) (opp d) = p.
Proof. destruct p, d; simpl; f_equal; lia. Qed.

Lemma opp_opp d : opp (opp d) = d.
Proof. by destruct d. Qed.

Lemma move_ne p d : move p d ≠ p.
Proof. destruct p, d; simpl; intros [=]; lia. Qed.

Lemma move_inj p d d' : move p d = move p d' → d = d'.
Proof. destruct p, d, d'; simpl; intros [=]; try done; lia. Qed.

Lemma wall_clear d d' x :
  wall d' (clear d x) = if decide (d = d') then false else wall d' x.
Proof. by destruct d, d'. Qed.

Lemma wall_set_visited d b x : wall d (set_visited b x) = wall d x.
Proof. by destruct d. Qed.

Lemma clear_fields d x :
  row (clear d x) = row x ∧ col (clear d x) = col x ∧
  visited (clear d x) = visited x.
Proof. by destruct d. Qed.

Lemma passage_dir g a b :
  passage g a b = true ↔
  ∃ d x y, b = move a d ∧ cellAt g a.1 a.2 = Some x ∧
           cellAt g b.1 b.2 = Some y ∧
           wall d x = false ∧ wall (opp d) y = false.
Proof.
  unfold passage. destruct a as [r c], b as [r' c']; simpl. split.
  - destruct (cellAt g r c) as [x|]; [|done].
    destruct (cellAt g r' c') as [y|]; [|done].
    repeat case_bool_decide; try done; simplify_eq;
      rewrite andb_true_iff, !negb_true_iff; intros [? ?].
    + by exists East, x, y.
    + by exists West, x, y.
    + by exists South, x, y.
    + by exists North, x, y.
  - intros (d & x & y & Hb & -> & -> & Hx & Hy).
    destruct d; simpl in *; simplify_eq;
      repeat (case_bool_decide; simplify_eq; try lia);
      by rewrite Hx, Hy.
Qed.

Lemma passage_sym g a b : passage g a b = passage g b a.
Proof.
  assert (∀ a b, passage g a b = true → passage g b a = true) as H.
  { intros a' b'. rewrite !passage_dir.
    intros (d & x & y & -> & ? & ? & ? & ?).
    exists (opp d), y, x. by rewrite move_opp, opp_opp. }
  destruct (passage g a b) eqn:E1, (passage g b a) eqn:E2; try done.
  - apply H in E1. congruence.
  - apply H in E2. congruence.
Qed.

(** ** [getUnvisitedNeighbors] *)

Lemma elem_of_pushUnvisited R C g l r c q :
  shape R C g → placed g →
  q ∈ pushUnvisited l (cellAt g r c) ↔
  q ∈ l ∨ (q = (r, c) ∧ inside R C q ∧ visitedAt g q = false).
Proof.
  intros Hs Hp. unfold pushUnvisited, visitedAt.
  destruct (cellAt g r c) as [x|] eqn:E.
  - destruct (Hp _ _ _ E) as [Hr Hc].
    assert (inside R C (r, c)) by (apply (shape_cellAt _ _ g); eauto).
    unfold ref. rewrite Hr, Hc.
    destruct (visited x) eqn:Ev; simpl.
    + split; [auto|]. intros [?|(-> & _ & H')]; [done|].
      simpl in H'. rewrite E in H'. congruence.
    + rewrite elem_of_app, list_elem_of_singleton.
      split; intros [?|?]; auto.
      * subst q. right. simpl. by rewrite E.
      * tauto.
  - split; [auto|]. intros [?|(-> & H' & _)]; [done|].
    apply (shape_cellAt _ _ g) in H'; [|done]. rewrite E in H'.
    by destruct H'.
Qed.

Lemma elem_of_getUnvisitedNeighbors R C g p q :
  shape R C g → placed g → 0 < R →
  q ∈ getUnvisitedNeighbors g p ↔
  ∃ d, q = move p d ∧ inside R C q ∧ visitedAt g q = false.
Proof.
  intros Hs Hp HR. unfold getUnvisitedNeighbors. destruct p as [r c].
  rewrite (shape_first_line R C g Hs HR).
  destruct Hs as [Hlen Hs']. rewrite Hlen.
  assert (shape R C g) as Hs by done.
  split.
  - intros H.
    repeat (case_bool_decide;
            [apply (elem_of_pushUnvisited R C) in H; [|done..];
             destruct H as [H|(-> & ? & ?)]|]);
      try (by apply elem_of_nil in H);
      first [ by exists East | by exists West | by exists South
            | by exists North ].
  - intros (d & -> & Hin & Hv).
    assert (∀ l r' c', (r', c') = move (r, c) d ∨ move (r, c) d ∈ l →
              move (r, c) d ∈ pushUnvisited l (cellAt g r' c')) as Hpush.
    { intros l r' c' [Heq|Hl];
        apply (elem_of_pushUnvisited R C); auto. }
    unfold inside in Hin.
    destruct d; simpl in *;
      repeat (case_bool_decide; try lia);
      repeat first [ apply Hpush; left; reflexivity
                   | apply Hpush; right ].
Qed.

(** ** [removeWallBetween] *)

Lemma removeWallBetween_move g p d :
  removeWallBetween g p (move p d) =
  modify (modify g p (clear d)) (move p d) (clear (opp d)).
Proof.
  unfold removeWallBetween. destruct p as [r c], d; simpl;
    repeat (case_bool_decide; try lia); done.
Qed.

Lemma cellAt_carved g p d r c :
  cellAt (carved g p d) r c =
  if decide ((r, c) = move p d)
  then (λ x, set_visited true (clear (opp d) x)) <$> cellAt g r c
  else if decide ((r, c) = p) then clear d <$> cellAt g r c
  else cellAt g r c.
Proof.
  unfold carved. rewrite removeWallBetween_move, !cellAt_modify.
  pose proof (move_ne p d).
  repeat case_decide; simplify_eq; try done.
  by destruct (cellAt g r c).
Qed.

(** ** Trees grow by leaves *)

Section graph.
Context {V : Type} `{EqDecision V}.
Implicit Types (E : V → V → Prop) (p q : list V).

Lemma walk_nil E : walk E [].
Proof. exact I. Qed.

Lemma walk_singleton E x : walk E [x].
Proof. exact I. Qed.

Lemma walk_cons_cons E x y p :
  walk E (x :: y :: p) ↔ E x y ∧ walk E (y :: p).
Proof. reflexivity. Qed.

Lemma walk_cons E x p : walk E (x :: p) → walk E p.
Proof.
  destruct p; [intros; apply walk_nil|].
  rewrite walk_cons_cons. tauto.
Qed.

Lemma walk_mono_in E E' p :
  (∀ x y, x ∈ p → y ∈ p → E x y → E' x y) → walk E p → walk E' p.
Proof.
  induction p as [|x p IH]; [done|]. destruct p as [|y p]; [done|].
  rewrite !walk_cons_cons. intros HE [? ?]. split.
  - apply HE; [left | right; left | done].
  - apply IH; [|done]. intros; apply HE; auto using list_elem_of_further.
Qed.

Lemma walk_mono E E' p :
  (∀ x y, E x y → E' x y) → walk E p → walk E' p.
Proof. intros HE. apply walk_mono_in. auto. Qed.

Lemma walk_app_r E p q : walk E (p ++ q) → walk E q.
Proof.
  induction p as [|x p IH]; simpl; [done|].
  intros H. apply IH. by apply walk_cons in H.
Qed.

Lemma walk_app_l E p q : walk E (p ++ q) → walk E p.
Proof.
  induction p as [|x p IH]; [intros; apply walk_nil|].
  destruct p as [|y p]; [intros; apply walk_singleton|].
  simpl. rewrite !walk_cons_cons. intros [? ?]. split; [done|].
  by apply IH.
Qed.

Lemma walk_middle E p x y q : walk E (p ++ x :: y :: q) → E x y.
Proof.
  intros H. apply walk_app_r in H. by apply walk_cons_cons in H as [? _].
Qed.

Lemma walk_head_cons E x y p :
  head p = Some y → E x y → walk E p → walk E (x :: p).
Proof.
  destruct p; simpl; [done|]. intros [= ->]. by rewrite walk_cons_cons.
Qed.

Lemma walk_snoc E p x y :
  last p = Some x → E x y → walk E p → walk E (p ++ [y]).
Proof.
  induction p as [|z p IH]; [done|]. destruct p as [|w p].
  - simpl. intros [= ->] ? _. by rewrite walk_cons_cons.
  - rewrite last_cons_cons. simpl. rewrite !walk_cons_cons.
    intros Hl Hxy [? ?]. split; [done|]. by apply IH.
Qed.

(** The vertices of a walk with an edge are endpoints of edges. *)
Lemma walk_vertices E (S : V → Prop) p :
  (∀ x y, E x y → S x ∧ S y) →
  walk E p → (2 ≤ length p)%nat → ∀ x, x ∈ p → S x.
Proof.
  intros HE. induction p as [|x p IH]; simpl; [lia|].
  destruct p as [|y p]; simpl; [lia|]. rewrite walk_cons_cons.
  intros [Hxy Hw] _ z Hz. apply elem_of_cons in Hz as [->|Hz].
  - by apply HE in Hxy as [? ?].
  - destruct p as [|w p].
    + apply list_elem_of_singleton in Hz as ->.
      by apply HE in Hxy as [? ?].
    + apply IH; [done | simpl; lia | done].
Qed.

Lemma simple_path_refl E a : simple_path E a a [a].
Proof.
  unfold simple_path. split_and!; [done | done | | apply walk_singleton].
  apply NoDup_singleton.
Qed.

Lemma simple_path_loop E a p : simple_path E a a p → p = [a].
Proof.
  intros (Hh & Hl & Hnd & _). destruct p as [|x p]; [done|].
  simpl in Hh. simplify_eq. destruct p as [|y p]; [done|].
  rewrite last_cons_cons in Hl. apply last_Some_elem_of in Hl.
  by apply NoDup_cons in Hnd as [? _].
Qed.

Section extend.
Context (E E' : V → V → Prop) (S : V → Prop) (u v : V).
Hypothesis E_in : ∀ x y, E x y → S x ∧ S y.
Hypothesis E'_spec :
  ∀ x y, E' x y ↔ E x y ∨ (x = u ∧ y = v) ∨ (x = v ∧ y = u).
Hypothesis S_u : S u.
Hypothesis S_v : ¬ S v.

Lemma extend_edge_to_leaf x : E' x v → x = u.
Proof.
  intros H. apply E'_spec in H as [H|[[? _]|[-> ->]]]; try done.
  by apply E_in in H as [_ ?].
Qed.

Lemma extend_edge_from_leaf x : E' v x → x = u.
Proof.
  intros H. apply E'_spec in H as [H|[[-> ->]|[_ ?]]]; try done.
  by apply E_in in H as [? _].
Qed.

Lemma extend_walk_old p : walk E' p → v ∉ p → walk E p.
Proof.
  intros Hw Hv. eapply walk_mono_in; [|done].
  intros x y Hx Hy H. apply E'_spec in H as [H|[[_ ->]|[-> _]]]; done.
Qed.

(** The new leaf is never in the middle of a simple path. *)
Lemma extend_leaf_not_inner a b p :
  simple_path E' a b p → a ≠ v → b ≠ v → v ∉ p.
Proof.
  intros (Hh & Hl & Hnd & Hw) Ha Hb Hv.
  apply list_elem_of_split in Hv as (l1 & l2 & ->).
  destruct (decide (l1 = [])) as [->|Hl1]; [by simplify_eq/=|].
  destruct l2 as [|y l2].
  { rewrite last_snoc in Hl. by simplify_eq. }
  apply (proj2 (last_is_Some l1)) in Hl1 as [x Hx].
  apply last_Some in Hx as [l1' ->].
  rewrite <- app_assoc in Hw, Hnd. simpl in *.
  pose proof (walk_middle _ _ _ _ _ Hw) as H1.
  apply walk_app_r, walk_cons in Hw. destruct Hw as [H2 _].
  apply extend_edge_to_leaf in H1 as ->.
  apply extend_edge_from_leaf in H2 as ->.
  apply NoDup_app in Hnd as (_ & _ & Hnd).
  apply NoDup_cons in Hnd as [Hnd _]. apply Hnd.
  right. left.
Qed.

Theorem tree_extend : tree_on E S → tree_on E' (λ x, S x ∨ x = v).
Proof.
  intros HT a b Ha Hb.
  assert (∀ x y, E x y → E' x y) as Hsub.
  { intros x y H. apply E'_spec. by left. }
  assert (∀ a b p, simple_path E a b p → S a → v ∉ p) as Hfresh.
  { intros a' b' p (Hh & Hl & Hnd & Hw) Ha' Hv.
    destruct p as [|x [|y p]]; simplify_eq/=.
    - apply list_elem_of_singleton in Hv as <-. done.
    - apply S_v. eapply walk_vertices; [done|exact Hw|simpl; lia|done]. }
  destruct (decide (a = v)) as [->|Hav];
    destruct (decide (b = v)) as [->|Hbv].
  - exists [v]. split; [apply simple_path_refl|].
    apply simple_path_loop.
  - destruct Hb as [Hb|?]; [|done].
    destruct (HT u b S_u Hb) as (p & Hp & Hpu).
    pose proof (Hfresh _ _ _ Hp S_u) as Hvp.
    destruct Hp as (Hh & Hl & Hnd & Hw).
    exists (v :: p). split.
    + unfold simple_path; split_and!.
      * done.
      * destruct p; [done|]. rewrite last_cons_cons. done.
      * by apply NoDup_cons.
      * eapply walk_head_cons; [done| |by eapply walk_mono].
        apply E'_spec. auto.
    + intros q (Hqh & Hql & Hqnd & Hqw).
      destruct q as [|x q]; simplify_eq/=. f_equal.
      destruct q as [|y q]; [by simplify_eq/=|].
      rewrite last_cons_cons in Hql.
      apply NoDup_cons in Hqnd as [Hvq Hqnd].
      destruct Hqw as [Hvy Hqw].
      apply extend_edge_from_leaf in Hvy as ->.
      apply Hpu. unfold simple_path; split_and!; try done.
      by apply extend_walk_old.
  - destruct Ha as [Ha|?]; [|done].
    destruct (HT a u Ha S_u) as (p & Hp & Hpu).
    pose proof (Hfresh _ _ _ Hp Ha) as Hvp.
    destruct Hp as (Hh & Hl & Hnd & Hw).
    exists (p ++ [v]). split.
    + unfold simple_path; split_and!.
      * destruct p; simplify_eq/=. done.
      * apply last_snoc.
      * apply NoDup_app. unfold simple_path; split_and!; [done| |apply NoDup_singleton].
        intros x Hx ->%list_elem_of_singleton. done.
      * eapply walk_snoc; [done| |by eapply walk_mono].
        apply E'_spec. auto.
    + intros q (Hqh & Hql & Hqnd & Hqw).
      apply last_Some in Hql as [q' ->]. f_equal.
      apply NoDup_app in Hqnd as (Hqnd & Hvq & _).
      assert (v ∉ q') as Hvq'.
      { intros ?. eapply Hvq; [done|left]. }
      destruct (decide (q' = [])) as [->|Hq'];
        [by simplify_eq/=|].
      apply (proj2 (last_is_Some q')) in Hq' as [x Hx].
      assert (x = u) as ->.
      { apply last_Some in Hx as [q'' ->].
        rewrite <- app_assoc in Hqw. simpl in Hqw.
        apply walk_middle in Hqw. by apply extend_edge_to_leaf. }
      apply Hpu. unfold simple_path; split_and!; try done.
      * destruct q'; simplify_eq/=. done.
      * apply extend_walk_old; [|done]. by apply walk_app_l in Hqw.
  - destruct Ha as [Ha|?]; [|done]. destruct Hb as [Hb|?]; [|done].
    destruct (HT a b Ha Hb) as (p & Hp & Hpu).
    exists p. split.
    + destruct Hp as (Hh & Hl & Hnd & Hw). unfold simple_path; split_and!; try done.
      by eapply walk_mono.
    + intros q Hq. apply Hpu.
      pose proof (extend_leaf_not_inner _ _ _ Hq Hav Hbv).
      destruct Hq as (Hh & Hl & Hnd & Hw). unfold simple_path; split_and!; try done.
      by apply extend_walk_old.
Qed.
End extend.

(** A tree has no cycle. *)
Lemma tree_on_acyclic E (S : V → Prop) :
  (∀ x y, E x y → S x ∧ S y) → (∀ x y, E x y → E y x) →
  tree_on E S → ∀ p, ¬ cycle E p.
Proof.
  intros HE Hsym HT p (Hlen & Hnd & Hw & a & b & Hh & Hl & Hba).
  destruct (HE _ _ Hba) as [Hb Ha].
  destruct (HT a b Ha Hb) as (p0 & _ & Hp0).
  assert (p = p0) as <- by (by apply Hp0).
  assert ([a; b] = p) as <-.
  { apply Hp0. unfold simple_path; split_and!; simpl; auto.
    - apply NoDup_cons. split; [|apply NoDup_singleton].
      intros ->%list_elem_of_singleton.
      destruct p as [|x [|y p]]; simpl in *; try lia. simplify_eq.
      apply last_Some_elem_of in Hl.
      by apply NoDup_cons in Hnd as [? _].
    - apply walk_cons_cons. split; [by apply Hsym | apply walk_singleton]. }
  simpl in Hlen. lia.
Qed.
End graph.

(** ** Counting cells and edges *)

Lemma NoDup_cprod {A B} (l : list A) (k : list B) :
  NoDup l → NoDup k → NoDup (cprod l k).
Proof.
  intros Hl Hk. unfold cprod, list_cprod. apply NoDup_bind; [| |done].
  - intros x1 x2 y _ _ H1 H2.
    apply list_elem_of_fmap in H1 as (? & -> & _).
    apply list_elem_of_fmap in H2 as (? & [= -> _] & _). done.
  - intros x _. apply NoDup_fmap_2; [|done]. by intros ? ? [=].
Qed.

Lemma length_cprod {A B} (l : list A) (k : list B) :
  length (cprod l k) = (length l * length k)%nat.
Proof. rewrite list_cprod_list_prod. apply List.length_prod. Qed.

Lemma elem_of_all_cells R C p : p ∈ all_cells R C ↔ inside R C p.
Proof.
  unfold all_cells, inside. rewrite list_elem_of_cprod, !elem_of_seqZ. lia.
Qed.

Lemma NoDup_all_cells R C : NoDup (all_cells R C).
Proof. apply NoDup_cprod; apply NoDup_seqZ. Qed.

Lemma length_all_cells R C :
  0 ≤ R → 0 ≤ C → Z.of_nat (length (all_cells R C)) = R * C.
Proof.
  intros. unfold all_cells. rewrite length_cprod, !length_seqZ. lia.
Qed.

Lemma elem_of_grid_edges R C a b :
  (a, b) ∈ grid_edges R C ↔
  inside R C a ∧ inside R C b ∧ (b = move a East ∨ b = move a South).
Proof.
  unfold grid_edges, inside. rewrite elem_of_app, !list_elem_of_fmap.
  destruct a as [r c], b as [r' c']. simpl. split.
  - intros [([r0 c0] & [= -> -> -> ->] & H)|([r0 c0] & [= -> -> -> ->] & H)];
      apply list_elem_of_cprod in H; rewrite !elem_of_seqZ in H;
      simpl in *; split_and!; try lia; auto.
  - intros (? & ? & [[= -> ->]|[= -> ->]]); [left|right];
      exists (r, c); (split; [done|]);
      apply list_elem_of_cprod; rewrite !elem_of_seqZ; simpl; lia.
Qed.

Lemma NoDup_grid_edges R C : NoDup (grid_edges R C).
Proof.
  unfold grid_edges. apply NoDup_app. split_and!.
  - apply NoDup_fmap_2; [by intros ? ? [=]|].
    apply NoDup_cprod; apply NoDup_seqZ.
  - intros [a b] (p & [= -> ->] & _)%list_elem_of_fmap
                 (q & [= -> H] & _)%list_elem_of_fmap.
    lia.
  - apply NoDup_fmap_2; [by intros ? ? [=]|].
    apply NoDup_cprod; apply NoDup_seqZ.
Qed.

Lemma length_filter_agree {A} (P P' : A → Prop)
    `{!∀ x, Decision (P x)} `{!∀ x, Decision (P' x)} (l : list A) :
  (∀ x, x ∈ l → P' x ↔ P x) →
  length (filter P' l) = length (filter P l).
Proof.
  induction l as [|x l IH]; [done|]. intros Hag.
  assert (P' x ↔ P x) as Hx by (apply Hag; left).
  assert (length (filter P' l) = length (filter P l)) as IH'.
  { apply IH. intros y Hy. apply Hag. by right. }
  destruct (decide (P x)) as [HPx|HPx].
  - rewrite (filter_cons_True P'), (filter_cons_True P) by tauto.
    simpl. by f_equal.
  - rewrite (filter_cons_False P'), (filter_cons_False P) by tauto. done.
Qed.

Lemma length_filter_one_more {A} (P P' : A → Prop)
    `{!∀ x, Decision (P x)} `{!∀ x, Decision (P' x)} (l : list A) (e : A) :
  NoDup l → e ∈ l → ¬ P e →
  (∀ x, x ∈ l → P' x ↔ P x ∨ x = e) →
  length (filter P' l) = S (length (filter P l)).
Proof.
  intros Hnd He HPe HP'.
  induction Hnd as [|x l Hx Hnd IH]; [by apply elem_of_nil in He|].
  apply elem_of_cons in He as [<- | He].
  - rewrite (filter_cons_True P') by (apply HP'; [left | by right]).
    rewrite (filter_cons_False P) by done.
    simpl. f_equal. apply length_filter_agree.
    intros y Hy. rewrite HP' by (by right). split; [|auto].
    intros [? | ->]; done.
  - assert (x ≠ e) by (by intros ->).
    assert (∀ y, y ∈ l → P' y ↔ P y ∨ y = e) as HP'l.
    { intros y Hy. apply HP'. by right. }
    destruct (decide (P x)) as [HPx|HPx].
    + rewrite (filter_cons_True P') by (apply HP'; [left | by left]).
      rewrite (filter_cons_True P) by done.
      simpl. f_equal. by apply IH.
    + rewrite (filter_cons_False P') by (rewrite HP' by left; tauto).
      rewrite (filter_cons_False P) by done. by apply IH.
Qed.

Lemma length_filter_all {A} (P : A → Prop) `{!∀ x, Decision (P x)}
    (l : list A) :
  length (filter P l) = length l → ∀ x, x ∈ l → P x.
Proof.
  intros Hlen x Hx. destruct (decide (P x)) as [|Hn]; [done|].
  pose proof (length_filter_lt P l x Hx Hn). lia.
Qed.

(** ** The effect of carving one passage *)

Lemma move_inj_l p q d : move p d = move q d → p = q.
Proof. destruct p, q, d; simpl; intros [=]; f_equal; lia. Qed.

Lemma opp_inj d d' : opp d = opp d' → d = d'.
Proof. by destruct d, d'. Qed.

Lemma cellAt_carved_ref g p d (a : CellRef) :
  cellAt (carved g p d) a.1 a.2 =
  if decide (a = move p d)
  then (λ x, set_visited true (clear (opp d) x)) <$> cellAt g a.1 a.2
  else if decide (a = p) then clear d <$> cellAt g a.1 a.2
  else cellAt g a.1 a.2.
Proof. destruct a as [r c]. apply cellAt_carved. Qed.

Lemma shape_carved R C g p d : shape R C g → shape R C (carved g p d).
Proof.
  intros. unfold carved. rewrite removeWallBetween_move.
  by repeat apply shape_modify.
Qed.

Lemma placed_carved g p d : placed g → placed (carved g p d).
Proof.
  intros. unfold carved. rewrite removeWallBetween_move.
  repeat apply placed_modify; try done; intros x;
    by destruct (clear_fields d x) as (? & ? & ?),
                (clear_fields (opp d) x) as (? & ? & ?).
Qed.

Lemma visitedAt_carved g p d a :
  is_Some (cellAt g (move p d).1 (move p d).2) →
  visitedAt (carved g p d) a = true ↔ visitedAt g a = true ∨ a = move p d.
Proof.
  intros [xq Hq]. unfold visitedAt.
  rewrite cellAt_carved_ref. pose proof (clear_fields d) as Hc.
  repeat case_decide; simplify_eq.
  - rewrite Hq. simpl. by split; [right|].
  - destruct (cellAt g p.1 p.2) as [x|]; cbn -[clear];
      [destruct (Hc x) as (_ & _ & ->)|];
      (split; [by left | by intros [?|?]]).
  - split; [by left | by intros [?|?]].
Qed.

(** Walls are only ever cleared. *)
Lemma wall_carved g p d r c x :
  cellAt g r c = Some x →
  ∃ x', cellAt (carved g p d) r c = Some x' ∧
        ∀ d', wall d' x = false → wall d' x' = false.
Proof.
  intros Hx. rewrite cellAt_carved, Hx.
  repeat case_decide; simpl; eexists; (split; [done|]); intros d' Hd';
    rewrite ?wall_set_visited, ?wall_clear; by try case_decide.
Qed.

Lemma passage_carved g p d xp xq a b :
  cellAt g p.1 p.2 = Some xp →
  cellAt g (move p d).1 (move p d).2 = Some xq →
  (∀ d', wall d' xq = true) →
  passage (carved g p d) a b = true ↔
  passage g a b = true ∨ (a = p ∧ b = move p d) ∨ (a = move p d ∧ b = p).
Proof.
  intros Hp Hq Hclosed. rewrite !passage_dir. split.
  - intros (d' & x & y & -> & Ha & Hb & Hx & Hy).
    rewrite cellAt_carved_ref in Ha, Hb.
    destruct (decide (a = move p d)) as [->|Haq].
    + (* the walk leaves the new cell: only towards [p] *)
      rewrite Hq in Ha. simpl in Ha. simplify_eq.
      rewrite wall_set_visited, wall_clear in Hx.
      case_decide as Hd; [|by rewrite Hclosed in Hx]. subst d'.
      right. right. by rewrite move_opp.
    + destruct (decide (move a d' = move p d)) as [Hbq|Hbq].
      * rewrite Hbq, Hq in Hb. simpl in Hb. simplify_eq.
        rewrite wall_set_visited, wall_clear in Hy.
        case_decide as Hd; [|by rewrite Hclosed in Hy].
        apply opp_inj in Hd. subst d'. apply move_inj_l in Hbq as ->.
        right. by left.
      * left. exists d'.
        destruct (decide (a = p)) as [->|Hap].
        -- rewrite Hp in Ha. simpl in Ha. simplify_eq.
           rewrite wall_clear in Hx. case_decide; [by subst|].
           rewrite decide_False in Hb by apply move_ne.
           by exists xp, y.
        -- destruct (decide (move a d' = p)) as [Hbp|Hbp].
           ++ rewrite Hbp, Hp in Hb. simpl in Hb. simplify_eq.
              rewrite wall_clear in Hy. case_decide as Hd.
              { exfalso. apply Haq. by rewrite Hd, move_opp. }
              by exists x, xp.
           ++ by exists x, y.
  - intros [(d' & x & y & -> & Ha & Hb & Hx & Hy)|[[-> ->]|[-> ->]]].
    + destruct (wall_carved g p d _ _ _ Ha) as (x' & ? & Hx').
      destruct (wall_carved g p d _ _ _ Hb) as (y' & ? & Hy').
      exists d', x', y'. split_and!; auto.
    + exists d, (clear d xp), (set_visited true (clear (opp d) xq)).
      rewrite !cellAt_carved_ref.
      rewrite (decide_False (P := p = move p d))
        by (by intros ?%eq_sym%move_ne).
      rewrite !decide_True by done. rewrite Hp, Hq. simpl.
      rewrite wall_set_visited, !wall_clear, !decide_True by done. done.
    + exists (opp d), (set_visited true (clear (opp d) xq)), (clear d xp).
      rewrite move_opp.
      rewrite !cellAt_carved_ref.
      rewrite (decide_False (P := p = move p d))
        by (by intros ?%eq_sym%move_ne).
      rewrite !decide_True by done. rewrite Hp, Hq. simpl.
      rewrite wall_set_visited, !wall_clear, opp_opp, !decide_True by done.
      done.
Qed.

(** ** The loop invariant *)

Lemma inv_cell R C s p :
  Inv R C s → p ∈ pushed s →
  ∃ x, cellAt (grid s) p.1 p.2 = Some x ∧ visited x = true.
Proof.
  intros HI Hp. apply (inv_pushed _ _ _ HI) in Hp as [_ Hv].
  unfold visitedAt in Hv. destruct (cellAt (grid s) p.1 p.2); [eauto|done].
Qed.

Lemma inv_edge R C s a b :
  Inv R C s → edge (grid s) a b → a ∈ pushed s ∧ b ∈ pushed s.
Proof.
  intros HI. unfold edge. rewrite passage_dir.
  intros (d & x & y & -> & Ha & Hb & Hx & Hy).
  destruct (inv_walls _ _ _ HI _ _ _ Ha Hx) as [_ Hvx].
  destruct (inv_walls _ _ _ HI _ _ _ Hb Hy) as [_ Hvy].
  split; apply (inv_pushed _ _ _ HI); unfold visitedAt.
  - rewrite Ha. split; [|done].
    rewrite (surjective_pairing a).
    apply (shape_cellAt _ _ (grid s)); [apply HI | eauto].
  - rewrite Hb. split; [|done].
    rewrite (surjective_pairing (move a d)).
    apply (shape_cellAt _ _ (grid s)); [apply HI | eauto].
Qed.

Lemma inv_length_pushed R C s :
  Inv R C s → 0 ≤ R → 0 ≤ C → Z.of_nat (length (pushed s)) ≤ R * C.
Proof.
  intros HI HR HC. rewrite <- (length_all_cells R C) by done.
  apply inj_le, submseteq_length, NoDup_submseteq; [apply HI|].
  intros p Hp. apply elem_of_all_cells. by apply (inv_pushed _ _ _ HI).
Qed.

Lemma inv_retry R C s :
  Inv R C s →
  Inv R C {| grid := grid s; stack := stack s;
             draws := S (draws s); pushed := pushed s |}.
Proof. intros []. by constructor. Qed.

Lemma inv_pop R C s cur below :
  Inv R C s → 0 < R → stack s = cur :: below →
  getUnvisitedNeighbors (grid s) cur = [] →
  Inv R C {| grid := grid s; stack := below;
             draws := draws s; pushed := pushed s |}.
Proof.
  intros HI HR Hst Hnone. destruct HI. constructor; simpl; try done.
  - intros p Hp. apply inv_stack0. rewrite Hst. by right.
  - intros p d Hp Hnot Hin.
    destruct (decide (p = cur)) as [->|Hne].
    + apply inv_pushed0. split; [done|].
      destruct (visitedAt (grid s) (move cur d)) eqn:Ev; [done|].
      assert (move cur d ∈ getUnvisitedNeighbors (grid s) cur) as Hx.
      { apply (elem_of_getUnvisitedNeighbors R C); eauto. }
      rewrite Hnone in Hx. by apply elem_of_nil in Hx.
    + apply inv_done0; [done| |done].
      rewrite Hst. intros [?|?]%elem_of_cons; done.
Qed.

Lemma inv_push R C s cur below next :
  Inv R C s → 0 < R → stack s = cur :: below →
  next ∈ getUnvisitedNeighbors (grid s) cur →
  Inv R C
    {| grid := modify (removeWallBetween (grid s) cur next) next
                 (set_visited true);
       stack := next :: stack s;
       draws := S (draws s);
       pushed := next :: pushed s |}.
Proof.
  intros HI HR Hst Hnext.
  apply (elem_of_getUnvisitedNeighbors R C) in Hnext as (d & -> & Hin & Hnv);
    [|apply HI..|done].
  change (modify _ _ _) with (carved (grid s) cur d).
  assert (cur ∈ pushed s) as Hcur.
  { apply (inv_stack _ _ _ HI). rewrite Hst. left. }
  destruct (inv_cell _ _ _ _ HI Hcur) as (xp & Hxp & Hvp).
  assert (is_Some (cellAt (grid s) (move cur d).1 (move cur d).2))
    as [xq Hxq].
  { apply (shape_cellAt R C); [apply HI|].
    by rewrite <- surjective_pairing. }
  assert (visited xq = false) as Hvq.
  { unfold visitedAt in Hnv. by rewrite Hxq in Hnv. }
  assert (∀ d', wall d' xq = true) as Hclosed.
  { intros d'. destruct (wall d' xq) eqn:Ew; [done|].
    destruct (inv_walls _ _ _ HI _ _ _ Hxq Ew). congruence. }
  assert (move cur d ∉ pushed s) as Hfresh.
  { intros H. apply (inv_pushed _ _ _ HI) in H as [_ ?]. congruence. }
  pose proof (passage_carved (grid s) cur d xp xq) as Hpass.
  assert (∀ p, visitedAt (carved (grid s) cur d) p = true ↔
               visitedAt (grid s) p = true ∨ p = move cur d) as Hvis.
  { intros p. apply visitedAt_carved. eauto. }
  constructor; simpl.
  - apply shape_carved, (inv_shape _ _ _ HI).
  - apply placed_carved, (inv_placed _ _ _ HI).
  - intros p. rewrite elem_of_cons, Hvis, (inv_pushed _ _ _ HI).
    split; [|tauto]. intros [->|?]; tauto.
  - apply NoDup_cons. split; [done | apply (inv_nodup _ _ _ HI)].
  - intros p [->|Hp]%elem_of_cons; [left|right].
    by apply (inv_stack _ _ _ HI).
  - right. apply (inv_start _ _ _ HI).
  - intros p d' [->|Hp]%elem_of_cons Hnot Hin'.
    + exfalso. apply Hnot. left.
    + right. apply (inv_done _ _ _ HI); [done| |done].
      intros ?. apply Hnot. by right.
  - intros p x d' Hx Hw. rewrite cellAt_carved_ref in Hx.
    rewrite Hpass by done.
    destruct (decide (p = move cur d)) as [->|Hpq].
    + rewrite Hxq in Hx. simpl in Hx. simplify_eq. split; [|done].
      rewrite wall_set_visited, wall_clear in Hw.
      case_decide as Hd; [|by rewrite Hclosed in Hw]. subst d'.
      right. right. by rewrite move_opp.
    + destruct (decide (p = cur)) as [->|Hpc].
      * rewrite Hxp in Hx. simpl in Hx. simplify_eq.
        destruct (clear_fields d xp) as (_ & _ & ->). split; [|done].
        rewrite wall_clear in Hw. case_decide as Hd; [subst; auto|].
        left. by apply (inv_walls _ _ _ HI _ _ _ Hxp).
      * destruct (inv_walls _ _ _ HI _ _ _ Hx Hw). auto.
  - f_equal. rewrite <- (inv_count _ _ _ HI). unfold passages.
    assert (¬ passage (grid s) cur (move cur d) = true) as Hno.
    { intros H. by apply (inv_edge _ _ _ _ _ HI) in H as [_ ?]. }
    assert (inside R C cur) as Hcin by (by apply (inv_pushed _ _ _ HI)).
    destruct (decide (d = East ∨ d = South)) as [Hd|Hd].
    + apply length_filter_one_more with (e := (cur, move cur d)).
      * apply NoDup_grid_edges.
      * apply elem_of_grid_edges. destruct Hd as [->| ->]; auto.
      * done.
      * intros [a b] Hab. simpl. rewrite Hpass by done.
        split; [|intros [?|[= -> ->]]; auto].
        intros [?|[[-> ->]|[-> ->]]]; auto.
        apply elem_of_grid_edges in Hab as (_ & _ & Hab).
        destruct cur, Hd as [->| ->], Hab as [Hab|Hab];
          simpl in Hab; injection Hab; lia.
    + apply length_filter_one_more with (e := (move cur d, cur)).
      * apply NoDup_grid_edges.
      * apply elem_of_grid_edges. split_and!; [done..|].
        destruct cur, d; simpl; try (exfalso; by auto);
          [right | left]; f_equal; lia.
      * simpl. by rewrite passage_sym.
      * intros [a b] Hab. simpl. rewrite Hpass by done.
        split; [|intros [?|[= -> ->]]; auto].
        intros [?|[[-> ->]|[-> ->]]]; auto.
        apply elem_of_grid_edges in Hab as (_ & _ & Hab).
        destruct cur, d, Hab as [Hab|Hab];
          simpl in Hab; try (injection Hab; lia); exfalso; by auto.
  - intros a b Ha Hb.
    apply (tree_extend (edge (grid s)) _ (λ p, p ∈ pushed s)
             cur (move cur d)); try done.
    + intros x y. by apply (inv_edge R C).
    + intros x y. unfold edge. by apply Hpass.
    + apply (inv_tree _ _ _ HI).
    + apply elem_of_cons in Ha. tauto.
    + apply elem_of_cons in Hb. tauto.
Qed.

(** ** The random index *)

Lemma randomIndex_range rnd k n :
  random_ok rnd → (0 < n)%nat →
  0 ≤ randomIndex rnd k n < Z.of_nat n.
Proof.
  intros Hok Hn. destruct (Hok k) as [H0 H1]. unfold randomIndex.
  set (x := (rnd k * inject_Z (Z.of_nat n))%Q).
  assert (0 <= x)%Q as Hx0.
  { apply Qmult_le_0_compat; [done|].
    rewrite <- (Zle_Qle 0). lia. }
  assert (x < inject_Z (Z.of_nat n))%Q as Hx1.
  { rewrite <- (Qmult_1_l (inject_Z (Z.of_nat n))). unfold x.
    apply Qmult_lt_compat_r; [|done].
    rewrite <- (Zlt_Qlt 0). lia. }
  split.
  - change 0 with (Qfloor 0). by apply Qfloor_resp_le.
  - rewrite Zlt_Qlt. eapply Qle_lt_trans; [apply Qfloor_le | done].
Qed.

(** ** The steps of the loop *)

Lemma step_cases rnd s s' :
  step rnd s = Some s' →
  ∃ cur below, stack s = cur :: below ∧
    ((getUnvisitedNeighbors (grid s) cur = [] ∧
      s' = {| grid := grid s; stack := below;
              draws := draws s; pushed := pushed s |}) ∨
     (∃ next, next ∈ getUnvisitedNeighbors (grid s) cur ∧
        s' = {| grid := modify (removeWallBetween (grid s) cur next) next
                          (set_visited true);
                stack := next :: stack s;
                draws := S (draws s);
                pushed := next :: pushed s |}) ∨
     (at_index (getUnvisitedNeighbors (grid s) cur)
        (randomIndex rnd (draws s)
           (length (getUnvisitedNeighbors (grid s) cur))) = None ∧
      getUnvisitedNeighbors (grid s) cur ≠ [] ∧
      s' = {| grid := grid s; stack := stack s;
              draws := S (draws s); pushed := pushed s |})).
Proof.
  unfold step. destruct (stack s) as [|cur below] eqn:Hst; [done|].
  intros H. exists cur, below. split; [done|].
  case_bool_decide as Hlen.
  - left. split; [by apply length_zero_iff_nil | by simplify_eq].
  - destruct (at_index _ _) as [next|] eqn:Hnext.
    + right. left. exists next. split; [|by simplify_eq].
      apply at_index_Some in Hnext as [_ Hnext].
      by apply list_elem_of_lookup_2 in Hnext.
    + right. right. split_and!; [done| |by simplify_eq].
      intros Hnil. by rewrite Hnil in Hlen.
Qed.

Lemma step_inv R C rnd s s' :
  Inv R C s → 0 < R → step rnd s = Some s' → Inv R C s'.
Proof.
  intros HI HR Hstep.
  apply step_cases in Hstep
    as (cur & below & Hst & [[Hnone ->]|[(next & Hnext & ->)|(_ & _ & ->)]]).
  - by eapply inv_pop.
  - by eapply inv_push.
  - by apply inv_retry.
Qed.

Lemma step_measure R C rnd s s' :
  Inv R C s → 0 < R → 0 < C → random_ok rnd → step rnd s = Some s' →
  (measure R C s' < measure R C s)%nat.
Proof.
  intros HI HR HC Hok Hstep.
  pose proof (step_inv _ _ _ _ _ HI HR Hstep) as HI'.
  pose proof (inv_length_pushed _ _ _ HI' ltac:(lia) ltac:(lia)) as Hlen.
  apply step_cases in Hstep
    as (cur & below & Hst &
        [[Hnone ->]|[(next & Hnext & ->)|(Hidx & Hne & ->)]]);
    unfold measure in *; simpl in *.
  - rewrite Hst. simpl. lia.
  - lia.
  - exfalso. apply at_index_None in Hidx. apply Hidx.
    apply randomIndex_range; [done|].
    destruct (getUnvisitedNeighbors (grid s) cur); [done | simpl; lia].
Qed.

Lemma loop_terminates R C rnd fuel s :
  0 < R → 0 < C → random_ok rnd → Inv R C s →
  (measure R C s < fuel)%nat →
  ∃ s', loop fuel rnd s = Some s' ∧ Inv R C s' ∧ stack s' = [].
Proof.
  intros HR HC Hok. revert s.
  induction fuel as [|fuel IH]; intros s HI Hm; [lia|]. simpl.
  destruct (step rnd s) as [s1|] eqn:Hstep.
  - apply IH; [by eapply step_inv|].
    pose proof (step_measure _ _ _ _ _ HI HR HC Hok Hstep). lia.
  - exists s. split_and!; [done..|].
    unfold step in Hstep. destruct (stack s); [done|].
    case_bool_decide; [done|]. by destruct (at_index _ _).
Qed.

Lemma loop_fuel_mono rnd fuel fuel' s s' :
  loop fuel rnd s = Some s' → (fuel ≤ fuel')%nat →
  loop fuel' rnd s = Some s'.
Proof.
  revert fuel' s. induction fuel as [|fuel IH]; intros fuel' s; [done|].
  intros H Hle. destruct fuel' as [|fuel']; [lia|]. simpl in *.
  destruct (step rnd s); [|done]. apply IH; [done | lia].
Qed.

(** ** The state on entry *)

Lemma filter_none {A} (P : A → Prop) `{!∀ x, Decision (P x)} (l : list A) :
  (∀ x, x ∈ l → ¬ P x) → filter P l = [].
Proof.
  induction l as [|x l IH]; [done|]. intros Hno.
  rewrite filter_cons_False by (apply Hno; left).
  apply IH. intros y Hy. apply Hno. by right.
Qed.

Lemma enter_ok R C :
  0 < R → 0 < C →
  enter R C =
  Returned {| grid := modify (createGrid R C) (0, 0) (set_visited true);
              stack := [(0, 0)]; draws := 0; pushed := [(0, 0)] |}.
Proof.
  intros HR HC. unfold enter. rewrite cellAt_createGrid.
  rewrite decide_True by (unfold inside; simpl; lia). done.
Qed.

Lemma inv_enter R C :
  0 < R → 0 < C →
  Inv R C {| grid := modify (createGrid R C) (0, 0) (set_visited true);
             stack := [(0, 0)]; draws := 0; pushed := [(0, 0)] |}.
Proof.
  intros HR HC.
  set (g := modify (createGrid R C) (0, 0) (set_visited true)).
  assert (∀ p x, cellAt g p.1 p.2 = Some x →
            inside R C p ∧ (∀ d, wall d x = true) ∧
            (visited x = true ↔ p = (0, 0))) as Hcell.
  { intros [r c] x. unfold g. simpl.
    rewrite cellAt_modify, cellAt_createGrid.
    repeat case_decide; simplify_eq/=; try done.
    - intros [= <-]. split_and!; [done|by intros []|done].
    - intros [= <-]. split_and!; [done|by intros []|]. simpl.
      split; [done|]. intros [= -> ->]. done. }
  assert (∀ a b, ¬ passage g a b = true) as Hpass.
  { intros a b. rewrite passage_dir.
    intros (d & x & y & _ & Ha & _ & Hx & _).
    apply Hcell in Ha as (_ & Hw & _). by rewrite Hw in Hx. }
  constructor; simpl.
  - apply shape_modify, shape_createGrid; lia.
  - apply placed_modify; [done | apply placed_createGrid].
  - intros p. rewrite list_elem_of_singleton. unfold visitedAt. split.
    + intros ->. unfold g. simpl.
      rewrite cellAt_modify, cellAt_createGrid.
      rewrite !decide_True by (try done; unfold inside; simpl; lia).
      split; [unfold inside; simpl; lia | done].
    + intros [_ Hv].
      destruct (cellAt g p.1 p.2) as [x|] eqn:E; [|done].
      apply Hcell in E as (_ & _ & E). by apply E.
  - apply NoDup_singleton.
  - done.
  - left.
  - intros p d ->%list_elem_of_singleton Hnot. exfalso. apply Hnot. left.
  - intros p x d Hx Hw. apply Hcell in Hx as (_ & Hx & _).
    by rewrite Hx in Hw.
  - unfold passages. rewrite filter_none; [done|].
    intros [a b] _. apply Hpass.
  - intros a b ->%list_elem_of_singleton ->%list_elem_of_singleton.
    exists [(0, 0)]. split; [apply simple_path_refl|].
    apply simple_path_loop.
Qed.

(** ** When the stack is empty every cell has been visited *)

Lemma inv_all_pushed R C s p :
  Inv R C s → stack s = [] → inside R C p → p ∈ pushed s.
Proof.
  intros HI Hst.
  assert (∀ q d, q ∈ pushed s → inside R C (move q d) →
                 move q d ∈ pushed s) as Hgo.
  { intros q d Hq Hin. apply (inv_done _ _ _ HI); [done| |done].
    rewrite Hst. apply not_elem_of_nil. }
  assert (∀ n : nat, Z.of_nat n < R → 0 < C → (Z.of_nat n, 0) ∈ pushed s)
    as Hcol.
  { induction n as [|n IH]; intros Hn HC; [apply (inv_start _ _ _ HI)|].
    replace (Z.of_nat (S n), 0) with (move (Z.of_nat n, 0) South)
      by (simpl; f_equal; lia).
    apply Hgo; [apply IH; lia|]. unfold inside. simpl. lia. }
  assert (∀ (m : nat) r, 0 ≤ r < R → Z.of_nat m < C →
                         (r, Z.of_nat m) ∈ pushed s) as Hrow.
  { induction m as [|m IH]; intros r Hr Hm.
    - replace r with (Z.of_nat (Z.to_nat r)) by lia. apply Hcol; lia.
    - replace (r, Z.of_nat (S m)) with (move (r, Z.of_nat m) East)
        by (simpl; f_equal; lia).
      apply Hgo; [apply IH; lia|]. unfold inside. simpl. lia. }
  destruct p as [r c]. intros [Hr Hc]. simpl in *.
  replace c with (Z.of_nat (Z.to_nat c)) by lia. apply Hrow; lia.
Qed.

(** ** The whole run *)

Lemma carve_spec R C rnd fuel :
  0 < R → 0 < C → random_ok rnd → 2 * R * C ≤ Z.of_nat fuel →
  ∃ s, carve fuel rnd R C = Returned s ∧ Inv R C s ∧ stack s = [] ∧
       ∀ p, p ∈ pushed s ↔ inside R C p.
Proof.
  intros HR HC Hok Hfuel. unfold carve. rewrite enter_ok by done.
  destruct (loop_terminates R C rnd fuel _ HR HC Hok (inv_enter R C HR HC))
    as (s & Hloop & HI & Hst).
  { unfold measure. simpl. nia. }
  rewrite Hloop. exists s. split_and!; try done.
  intros p. split.
  - by intros [? _]%(inv_pushed _ _ _ HI).
  - by apply inv_all_pushed.
Qed.

Lemma generateMaze_carve fuel rnd R C s :
  carve fuel rnd R C = Returned s →
  generateMaze fuel rnd R C =
  Returned {| rows := R; cols := C; cells := grid s;
              start := (0, 0); end_ := (R - 1, C - 1) |}.
Proof. unfold generateMaze. by intros ->. Qed.

(** ** Consequences of the invariant for the walls *)

Lemma inv_wall_inside R C s a x d :
  Inv R C s → cellAt (grid s) a.1 a.2 = Some x → wall d x = false →
  inside R C (move a d).
Proof.
  intros HI Ha Hw. destruct (inv_walls _ _ _ HI _ _ _ Ha Hw) as [Hp _].
  apply (inv_edge R C) in Hp as [_ Hp]; [|done].
  by apply (inv_pushed _ _ _ HI) in Hp as [? _].
Qed.

Lemma inv_wall_sym R C s a x y d :
  Inv R C s → cellAt (grid s) a.1 a.2 = Some x →
  cellAt (grid s) (move a d).1 (move a d).2 = Some y →
  wall d x = wall (opp d) y.
Proof.
  intros HI Ha Hb.
  assert (∀ a d x y, cellAt (grid s) a.1 a.2 = Some x →
            cellAt (grid s) (move a d).1 (move a d).2 = Some y →
            wall d x = false → wall (opp d) y = false) as Hhalf.
  { intros a' d' x' y' Ha' Hb' Hw.
    destruct (inv_walls _ _ _ HI _ _ _ Ha' Hw) as [Hp _].
    apply passage_dir in Hp as (d0 & x0 & y0 & Hd & _ & Hy0 & _ & Hw0).
    apply move_inj in Hd as <-. congruence. }
  destruct (wall d x) eqn:E1, (wall (opp d) y) eqn:E2; try done.
  - assert (wall (opp (opp d)) x = false) as H.
    { apply (Hhalf (move a d) (opp d) y x); [done| |done].
      by rewrite move_opp. }
    rewrite opp_opp in H. congruence.
  - pose proof (Hhalf a d x y Ha Hb E1). congruence.
Qed.

Lemma random_ok_sample : random_ok rnd_sample.
Proof.
  intros k. unfold rnd_sample. destruct (Nat.even k); split; done.
Qed.

Lemma length_grid_edges R C :
  0 < R → 0 < C →
  Z.of_nat (length (grid_edges R C)) = R * (C - 1) + (R - 1) * C.
Proof.
  intros. unfold grid_edges.
  rewrite length_app, !length_fmap, !length_cprod, !length_seqZ. nia.
Qed.

Lemma inv_tree_maze R C s (m : Maze) :
  Inv R C s → (∀ p, p ∈ pushed s ↔ inside R C p) →
  rows m = R → cols m = C → cells m = grid s → perfect m.
Proof.
  intros HI Hall HR HC Hg.
  assert (∀ a b, maze_edge m a b → in_maze m a ∧ in_maze m b) as Hin.
  { intros a b H. unfold maze_edge, in_maze in *. rewrite Hg, HR, HC in *.
    apply (inv_edge R C) in H as [? ?]; [|done]. by rewrite <- !Hall. }
  assert (∀ a b, maze_edge m a b → maze_edge m b a) as Hsym.
  { intros a b. unfold maze_edge. by rewrite passage_sym. }
  assert (unique_paths m) as Htree.
  { intros a b Ha Hb. unfold in_maze in *. rewrite HR, HC in *.
    apply Hall in Ha, Hb.
    destruct (inv_tree _ _ _ HI a b Ha Hb) as (p & Hp & Hu).
    exists p. unfold maze_edge, edge in *. by rewrite Hg. }
  split_and!.
  - intros a b H. destruct (Hin _ _ H). split_and!; auto.
    apply passage_dir in H as (d & _ & _ & ? & _). eauto.
  - intros a b Ha Hb. destruct (Htree a b Ha Hb) as (p & Hp & _).
    exists p. by destruct Hp as (? & ? & _ & ?).
  - exact (tree_on_acyclic (maze_edge m) (in_maze m) Hin Hsym Htree).
  - unfold edge_count. rewrite HR, HC, Hg.
    pose proof (inv_count _ _ _ HI) as Hc.
    assert (Z.of_nat (length (pushed s)) = R * C) as Hlen; [|lia].
    assert (0 ≤ R ∧ 0 ≤ C) as [? ?].
    { pose proof (inv_start _ _ _ HI) as H0.
      apply Hall in H0. unfold inside in H0. simpl in H0. lia. }
    rewrite <- (length_all_cells R C) by done. f_equal.
    apply Permutation_length, NoDup_Permutation.
    + apply (inv_nodup _ _ _ HI).
    + apply NoDup_all_cells.
    + intros p. by rewrite Hall, elem_of_all_cells.
  - done.
Qed.

(** ** Determinism *)

Lemma randomIndex_ext rnd1 rnd2 k n :
  (rnd1 k == rnd2 k)%Q → randomIndex rnd1 k n = randomIndex rnd2 k n.
Proof.
  intros H. unfold randomIndex. apply Qfloor_comp. by rewrite H.
Qed.

Lemma step_ext rnd1 rnd2 s :
  (∀ k, (rnd1 k == rnd2 k)%Q) → step rnd1 s = step rnd2 s.
Proof.
  intros H. unfold step. destruct (stack s); [done|].
  by rewrite (randomIndex_ext rnd1 rnd2).
Qed.

Lemma loop_ext rnd1 rnd2 fuel s :
  (∀ k, (rnd1 k == rnd2 k)%Q) → loop fuel rnd1 s = loop fuel rnd2 s.
Proof.
  intros H. revert s. induction fuel as [|fuel IH]; intros s; [done|].
  simpl. rewrite (step_ext rnd1 rnd2) by done.
  destruct (step rnd2 s); [apply IH | done].
Qed.

(** ** The random numbers consumed *)

(** Only the current random number matters to a step, and only when the
    top of the stack has an unvisited neighbour. *)
Lemma step_ext_at rnd1 rnd2 s :
  (∀ cur below, stack s = cur :: below →
     getUnvisitedNeighbors (grid s) cur = [] ∨
     (rnd1 (draws s) == rnd2 (draws s))%Q) →
  step rnd1 s = step rnd2 s.
Proof.
  intros H. unfold step. destruct (stack s) as [|cur below]; [done|].
  destruct (H cur below eq_refl) as [Hnil|Heq].
  - by rewrite Hnil.
  - by rewrite (randomIndex_ext rnd1 rnd2).
Qed.

(** Every pass that does not pop draws one number and pushes one cell. *)
Lemma step_draws R C rnd s s' :
  Inv R C s → 0 < R → random_ok rnd →
  S (draws s) = length (pushed s) → step rnd s = Some s' →
  S (draws s') = length (pushed s').
Proof.
  intros HI HR Hok Hd Hstep.
  apply step_cases in Hstep
    as (cur & below & Hst &
        [[Hnone ->]|[(next & Hnext & ->)|(Hidx & Hne & ->)]]); simpl.
  - done.
  - by f_equal.
  - exfalso. apply at_index_None in Hidx. apply Hidx.
    apply randomIndex_range; [done|].
    destruct (getUnvisitedNeighbors (grid s) cur); [done | simpl; lia].
Qed.

(** Once [R * C] cells are pushed no cell has an unvisited neighbour. *)
Lemma inv_full R C s cur :
  Inv R C s → 0 < R → 0 < C →
  R * C ≤ Z.of_nat (length (pushed s)) →
  getUnvisitedNeighbors (grid s) cur = [].
Proof.
  intros HI HR HC Hlen.
  assert (pushed s ≡ₚ all_cells R C) as Hperm.
  { apply submseteq_length_Permutation.
    - apply NoDup_submseteq; [apply (inv_nodup _ _ _ HI)|].
      intros p Hp. apply elem_of_all_cells.
      by apply (inv_pushed _ _ _ HI) in Hp as [? _].
    - pose proof (length_all_cells R C). lia. }
  destruct (getUnvisitedNeighbors (grid s) cur) as [|q l] eqn:E; [done|].
  assert (q ∈ getUnvisitedNeighbors (grid s) cur) as Hq
    by (rewrite E; left).
  apply (elem_of_getUnvisitedNeighbors R C) in Hq as (d & -> & Hin & Hnv);
    [|apply (inv_shape _ _ _ HI)|apply (inv_placed _ _ _ HI)|done].
  apply elem_of_all_cells in Hin. rewrite <- Hperm in Hin.
  apply (inv_pushed _ _ _ HI) in Hin as [_ ?]. congruence.
Qed.

Lemma loop_ext_prefix R C rnd1 rnd2 fuel s :
  0 < R → 0 < C → random_ok rnd1 →
  (∀ k, Z.of_nat k < R * C - 1 → (rnd1 k == rnd2 k)%Q) →
  Inv R C s → S (draws s) = length (pushed s) →
  loop fuel rnd1 s = loop fuel rnd2 s.
Proof.
  intros HR HC Hok Hpre. revert s.
  induction fuel as [|fuel IH]; intros s HI Hd; [done|]. simpl.
  assert (step rnd1 s = step rnd2 s) as Hstep.
  { apply step_ext_at. intros cur below Hst.
    destruct (decide (Z.of_nat (draws s) < R * C - 1)) as [Hlt|Hge].
    - right. by apply Hpre.
    - left. apply (inv_full R C); [done..|lia]. }
  rewrite <- Hstep. destruct (step rnd1 s) as [s1|] eqn:E; [|done].
  apply IH; [by eapply step_inv | by eapply step_draws].
Qed.

Lemma loop_draws R C rnd fuel s s' :
  0 < R → random_ok rnd → Inv R C s →
  S (draws s) = length (pushed s) → loop fuel rnd s = Some s' →
  S (draws s') = length (pushed s').
Proof.
  intros HR Hok. revert s.
  induction fuel as [|fuel IH]; intros s HI Hd; [done|]. simpl.
  destruct (step rnd s) as [s1|] eqn:E; [|by intros [= <-]].
  apply IH; [by eapply step_inv | by eapply step_draws].
Qed.

(** ** Corridors and the 2 x 2 maze *)

Lemma passage_walls g a d :
  passage g a (move a d) = true →
  ∃ x y, cellAt g a.1 a.2 = Some x ∧
         cellAt g (move a d).1 (move a d).2 = Some y ∧
         wall d x = false ∧ wall (opp d) y = false.
Proof.
  intros (d' & x & y & Hd & ? & ? & ? & ?)%passage_dir.
  apply move_inj in Hd as <-. by exists x, y.
Qed.

(** In a one-line or one-column grid every edge of the grid graph has to be
    a passage. *)
Lemma inv_corridor R C s :
  Inv R C s → (∀ p, p ∈ pushed s ↔ inside R C p) →
  0 < R → 0 < C → R = 1 ∨ C = 1 →
  ∀ a b, (a, b) ∈ grid_edges R C → passage (grid s) a b = true.
Proof.
  intros HI Hall HR HC H1 a b Hab.
  assert (Z.of_nat (length (pushed s)) = R * C) as Hlen.
  { rewrite <- (length_all_cells R C) by lia. f_equal.
    apply Permutation_length, NoDup_Permutation.
    - apply (inv_nodup _ _ _ HI).
    - apply NoDup_all_cells.
    - intros p. by rewrite Hall, elem_of_all_cells. }
  pose proof (inv_count _ _ _ HI) as Hc.
  pose proof (length_grid_edges R C HR HC) as He.
  apply (length_filter_all (λ e, passage (grid s) e.1 e.2 = true)
           (grid_edges R C) ltac:(unfold passages in Hc; nia) (a, b) Hab).
Qed.

Lemma filter_three_of_four {A} (P : A → Prop) `{!∀ x, Decision (P x)}
    (a b c d : A) :
  length (filter P [a; b; c; d]) = 3%nat → (P a ∧ P d) ∨ (P c ∧ P b).
Proof.
  rewrite !filter_cons, filter_nil.
  repeat case_decide; simpl; intros; try lia; tauto.
Qed.

Lemma simple_path_length (m : Maze) a b p :
  grid_subgraph m → 0 ≤ rows m → 0 ≤ cols m →
  simple_path (maze_edge m) a b p →
  Z.of_nat (length p) ≤ Z.max 1 (rows m * cols m).
Proof.
  intros Hsub HR HC (_ & _ & Hnd & Hw).
  destruct (decide (length p ≤ 1)%nat) as [|Hlen]; [lia|].
  rewrite <- (length_all_cells (rows m) (cols m)) by done.
  apply Z.max_le_iff. right.
  apply inj_le, submseteq_length, NoDup_submseteq; [done|].
  intros x Hx. apply elem_of_all_cells.
  apply (walk_vertices (maze_edge m) (in_maze m) p); [|done|lia|done].
  intros y z Hyz. by destruct (Hsub _ _ Hyz) as (? & ? & _).
Qed.

(** ** Sample runs *)

(** From [(0,0)] the neighbours are [(1,0); (0,1)] and [floor(0.5 * 2) = 1]
    picks [(0,1)]; then [(1,1)] and [(1,0)] are the only choices. *)
Example sample_run_2x2 :
  generateMaze 8 rnd_sample 2 2 =
  Returned
    {| rows := 2; cols := 2;
       cells := [[visitedCell 0 0 true false true true;
                  visitedCell 0 1 true true false false];
                 [visitedCell 1 0 true false true true;
                  visitedCell 1 1 false true true false]];
       start := (0, 0); end_ := (1, 1) |}.
Proof. vm_compute. reflexivity. Qed.

Example sample_run_2x2_history :
  carve 8 rnd_sample 2 2 =
  Returned {| grid := [[visitedCell 0 0 true false true true;
                        visitedCell 0 1 true true false false];
                       [visitedCell 1 0 true false true true;
                        visitedCell 1 1 false true true false]];
              stack := []; draws := 3;
              pushed := [(1, 0); (1, 1); (0, 1); (0, 0)] |}.
Proof. vm_compute. reflexivity. Qed.

(** Eight loop tests are needed for four cells: seven are not enough. *)
Example sample_run_2x2_short_fuel :
  generateMaze 7 rnd_sample 2 2 = OutOfFuel.
Proof. vm_compute. reflexivity. Qed.

Example sample_run_1x3 :
  generateMaze 6 rnd_sample 1 3 =
  Returned
    {| rows := 1; cols := 3;
       cells := [[visitedCell 0 0 true false true true;
                  visitedCell 0 1 true false true false;
                  visitedCell 0 2 true true true false]];
       start := (0, 0); end_ := (0, 2) |}.
Proof. vm_compute. reflexivity. Qed.

Example sample_run_invalid :
  generateMaze 3 rnd_sample 0 3 = Thrown "Invalid grid size" [] ∧
  generateMaze 3 rnd_sample 2 0 = Thrown "Invalid grid size" [[]; []] ∧
  generateMaze 3 rnd_sample (-1) (-1) = Thrown "Invalid grid size" [].
Proof. vm_compute. done. Qed.

(** A random number outside [0, 1) makes [neighbors[randomIndex]]
    undefined and the loop spins on [continue]. *)
Example sample_run_bad_random :
  generateMaze 1000 (λ _, 1%Q) 2 2 = OutOfFuel.
Proof. vm_compute. reflexivity. Qed.

Example sample_neighbors :
  getUnvisitedNeighbors (createGrid 3 3) (1, 1) =
  [(0, 1); (2, 1); (1, 0); (1, 2)].
Proof. vm_compute. reflexivity. Qed.

(** Without options the defaults apply: cell size 20, wall thickness 4. *)
Lemma getMazeDimensions_defaults maze :
  getMazeDimensions maze no_options =
  {| width := cols maze * 20 + 4; height := rows maze * 20 + 4 |}.
Proof. reflexivity. Qed.

(** * Main theorems *)

(** C1.  For positive [rows] and [cols] and every random sequence within
    [0, 1), [generateMaze] returns (given fuel for [2 * rows * cols] loop
    tests) a perfect maze: its passage graph is a subgraph of the grid
    graph, connected, without cycle, with exactly [rows * cols - 1] edges,
    and any two cells are joined by exactly one simple path; [start] and
    [end] are cells of the maze. *)
Theorem generateMaze_perfect rnd rows cols fuel :
  0 < rows → 0 < cols → random_ok rnd →
  2 * rows * cols ≤ Z.of_nat fuel →
  ∃ m, generateMaze fuel rnd rows cols = Returned m ∧ perfect m ∧
       in_maze m (start m) ∧ in_maze m (end_ m).
Proof.
  intros HR HC Hok Hfuel.
  destruct (carve_spec rows cols rnd fuel HR HC Hok Hfuel)
    as (s & Hs & HI & _ & Hall).
  eexists. split; [by apply generateMaze_carve|]. split_and!.
  - by apply (inv_tree_maze rows cols s).
  - unfold in_maze, inside. simpl. lia.
  - unfold in_maze, inside. simpl. lia.
Qed.

Lemma generateMaze_perfect_witness :
  random_ok rnd_sample ∧
  ∃ m, generateMaze 18 rnd_sample 3 3 = Returned m ∧ perfect m ∧
       in_maze m (start m) ∧ in_maze m (end_ m).
Proof.
  split; [apply random_ok_sample|].
  apply (generateMaze_perfect rnd_sample 3 3 18);
    [lia | lia | apply random_ok_sample | lia].
Defined.

(** C2.  [generateMaze] throws if and only if [rows <= 0] or [cols <= 0];
    the error is "Invalid grid size", thrown on the untouched fresh grid (no
    wall of any cell has been cleared); for positive [rows] and [cols] the
    call returns a maze. *)
Theorem generateMaze_invalid_grid_size fuel rnd R C :
  ((R ≤ 0 ∨ C ≤ 0) →
     generateMaze fuel rnd R C =
       Thrown "Invalid grid size" (createGrid R C) ∧
     ∀ r c x, cellAt (createGrid R C) r c = Some x →
              walls x = all_walls ∧ visited x = false) ∧
  ((∃ msg heap, generateMaze fuel rnd R C = Thrown msg heap) →
     R ≤ 0 ∨ C ≤ 0) ∧
  (0 < R → 0 < C → random_ok rnd → 2 * R * C ≤ Z.of_nat fuel →
     ∃ m, generateMaze fuel rnd R C = Returned m).
Proof.
  split_and!.
  - intros Hbad. split.
    + unfold generateMaze, carve, enter. rewrite cellAt_createGrid.
      rewrite decide_False; [done|]. unfold inside. simpl. lia.
    + intros r c x. rewrite cellAt_createGrid.
      case_decide; [|done]. by intros [= <-].
  - intros (msg & heap & Hthrown).
    destruct (decide (0 < R ∧ 0 < C)) as [[HR HC]|]; [|lia].
    unfold generateMaze, carve in Hthrown.
    rewrite enter_ok in Hthrown by done.
    by destruct (loop fuel rnd _).
  - intros HR HC Hok Hfuel.
    destruct (carve_spec R C rnd fuel HR HC Hok Hfuel) as (s & Hs & _).
    eexists. by apply generateMaze_carve.
Qed.

Lemma generateMaze_invalid_grid_size_witness :
  generateMaze 0 rnd_sample 0 5 = Thrown "Invalid grid size" [] ∧
  generateMaze 7 rnd_sample 5 (-2) =
    Thrown "Invalid grid size" [[]; []; []; []; []] ∧
  ∃ m, generateMaze 8 rnd_sample 2 2 = Returned m.
Proof.
  split_and!.
  - apply (generateMaze_invalid_grid_size 0 rnd_sample 0 5). lia.
  - apply (generateMaze_invalid_grid_size 7 rnd_sample 5 (-2)). lia.
  - apply (generateMaze_invalid_grid_size 8 rnd_sample 2 2);
      [lia | lia | apply random_ok_sample | lia].
Defined.

(** C3.  Wall symmetry of a generated maze: for horizontally adjacent cells
    [A] at [(r, c)] and [B] at [(r, c + 1)], [A.walls.right = B.walls.left];
    for vertically adjacent cells [A] at [(r, c)] and [B] at [(r + 1, c)],
    [A.walls.bottom = B.walls.top]. *)
Theorem generateMaze_wall_symmetry rnd R C fuel :
  0 < R → 0 < C → random_ok rnd → 2 * R * C ≤ Z.of_nat fuel →
  ∃ m, generateMaze fuel rnd R C = Returned m ∧
       ∀ r c A B, cellAt (cells m) r c = Some A →
         (cellAt (cells m) r (c + 1) = Some B →
          right (walls A) = left (walls B)) ∧
         (cellAt (cells m) (r + 1) c = Some B →
          bottom (walls A) = top (walls B)).
Proof.
  intros HR HC Hok Hfuel.
  destruct (carve_spec R C rnd fuel HR HC Hok Hfuel)
    as (s & Hs & HI & _ & Hall).
  eexists. split; [by apply generateMaze_carve|]. simpl.
  intros r c A B HA. split; intros HB.
  - apply (inv_wall_sym R C s (r, c) A B East HI HA HB).
  - apply (inv_wall_sym R C s (r, c) A B South HI HA HB).
Qed.

Lemma generateMaze_wall_symmetry_witness :
  random_ok rnd_sample ∧
  ∃ m, generateMaze 24 rnd_sample 4 3 = Returned m ∧
       ∀ r c A B, cellAt (cells m) r c = Some A →
         (cellAt (cells m) r (c + 1) = Some B →
          right (walls A) = left (walls B)) ∧
         (cellAt (cells m) (r + 1) c = Some B →
          bottom (walls A) = top (walls B)).
Proof.
  split; [apply random_ok_sample|].
  apply (generateMaze_wall_symmetry rnd_sample 4 3 24);
    [lia | lia | apply random_ok_sample | lia].
Defined.

(** C4.  Boundary walls of a generated maze: every cell with [col = 0] has
    its left wall, every cell with [col = cols - 1] its right wall, every
    cell with [row = 0] its top wall and every cell with [row = rows - 1]
    its bottom wall. *)
Theorem generateMaze_boundary_walls rnd R C fuel :
  0 < R → 0 < C → random_ok rnd → 2 * R * C ≤ Z.of_nat fuel →
  ∃ m, generateMaze fuel rnd R C = Returned m ∧
       ∀ r c A, cellAt (cells m) r c = Some A →
         (col A = 0 → left (walls A) = true) ∧
         (col A = cols m - 1 → right (walls A) = true) ∧
         (row A = 0 → top (walls A) = true) ∧
         (row A = rows m - 1 → bottom (walls A) = true).
Proof.
  intros HR HC Hok Hfuel.
  destruct (carve_spec R C rnd fuel HR HC Hok Hfuel)
    as (s & Hs & HI & _ & Hall).
  eexists. split; [by apply generateMaze_carve|]. simpl.
  intros r c A HA.
  destruct (inv_placed _ _ _ HI _ _ _ HA) as [Hr Hc].
  assert (∀ d, ¬ inside R C (move (r, c) d) → wall d A = true) as Hout.
  { intros d Hd. destruct (wall d A) eqn:E; [done|].
    exfalso. apply Hd.
    by apply (inv_wall_inside R C s (r, c) A d HI). }
  rewrite Hr, Hc. split_and!; intros Heq.
  - apply (Hout West). unfold inside. simpl. lia.
  - apply (Hout East). unfold inside. simpl. lia.
  - apply (Hout North). unfold inside. simpl. lia.
  - apply (Hout South). unfold inside. simpl. lia.
Qed.

Lemma generateMaze_boundary_walls_witness :
  random_ok rnd_sample ∧
  ∃ m, generateMaze 24 rnd_sample 3 4 = Returned m ∧
       ∀ r c A, cellAt (cells m) r c = Some A →
         (col A = 0 → left (walls A) = true) ∧
         (col A = cols m - 1 → right (walls A) = true) ∧
         (row A = 0 → top (walls A) = true) ∧
         (row A = rows m - 1 → bottom (walls A) = true).
Proof.
  split; [apply random_ok_sample|].
  apply (generateMaze_boundary_walls rnd_sample 3 4 24);
    [lia | lia | apply random_ok_sample | lia].
Defined.

(** C5.  Degenerate sizes: [generateMaze(1, n)] and [generateMaze(n, 1)]
    return one connected corridor; between consecutive cells no wall is
    left, and the two long outer walls are intact (top and bottom of every
    cell of the one-line maze, left and right of every cell of the
    one-column maze). *)
Theorem generateMaze_degenerate rnd n fuel :
  0 < n → random_ok rnd → 2 * n ≤ Z.of_nat fuel →
  (∃ m, generateMaze fuel rnd 1 n = Returned m ∧ connected m ∧
        (∀ c, 0 ≤ c < n - 1 →
           ∃ A B, cellAt (cells m) 0 c = Some A ∧
                  cellAt (cells m) 0 (c + 1) = Some B ∧
                  right (walls A) = false ∧ left (walls B) = false) ∧
        (∀ c A, cellAt (cells m) 0 c = Some A →
           top (walls A) = true ∧ bottom (walls A) = true)) ∧
  (∃ m, generateMaze fuel rnd n 1 = Returned m ∧ connected m ∧
        (∀ r, 0 ≤ r < n - 1 →
           ∃ A B, cellAt (cells m) r 0 = Some A ∧
                  cellAt (cells m) (r + 1) 0 = Some B ∧
                  bottom (walls A) = false ∧ top (walls B) = false) ∧
        (∀ r A, cellAt (cells m) r 0 = Some A →
           left (walls A) = true ∧ right (walls A) = true)).
Proof.
  intros Hn Hok Hfuel. split.
  - destruct (carve_spec 1 n rnd fuel ltac:(lia) Hn Hok ltac:(lia))
      as (s & Hs & HI & _ & Hall).
    eexists. split; [by apply generateMaze_carve|]. simpl. split_and!.
    + by apply (inv_tree_maze 1 n s).
    + intros c Hc.
      assert (passage (grid s) (0, c) (move (0, c) East) = true) as Hp.
      { apply (inv_corridor 1 n s HI Hall); [lia | lia | by left |].
        apply elem_of_grid_edges. unfold inside. simpl.
        split_and!; try lia. by left. }
      apply passage_walls in Hp as (A & B & HA & HB & ? & ?).
      by exists A, B.
    + intros c A HA.
      assert (∀ d, ¬ inside 1 n (move (0, c) d) → wall d A = true) as Hout.
      { intros d Hd. destruct (wall d A) eqn:E; [done|].
        exfalso. apply Hd.
        by apply (inv_wall_inside 1 n s (0, c) A d HI). }
      split.
      * apply (Hout North). unfold inside. simpl. lia.
      * apply (Hout South). unfold inside. simpl. lia.
  - destruct (carve_spec n 1 rnd fuel Hn ltac:(lia) Hok ltac:(lia))
      as (s & Hs & HI & _ & Hall).
    eexists. split; [by apply generateMaze_carve|]. simpl. split_and!.
    + by apply (inv_tree_maze n 1 s).
    + intros r Hr.
      assert (passage (grid s) (r, 0) (move (r, 0) South) = true) as Hp.
      { apply (inv_corridor n 1 s HI Hall); [lia | lia | by right |].
        apply elem_of_grid_edges. unfold inside. simpl.
        split_and!; try lia. by right. }
      apply passage_walls in Hp as (A & B & HA & HB & ? & ?).
      by exists A, B.
    + intros r A HA.
      assert (∀ d, ¬ inside n 1 (move (r, 0) d) → wall d A = true) as Hout.
      { intros d Hd. destruct (wall d A) eqn:E; [done|].
        exfalso. apply Hd.
        by apply (inv_wall_inside n 1 s (r, 0) A d HI). }
      split.
      * apply (Hout West). unfold inside. simpl. lia.
      * apply (Hout East). unfold inside. simpl. lia.
Qed.

Lemma generateMaze_degenerate_witness :
  random_ok rnd_sample ∧
  (∃ m, generateMaze 10 rnd_sample 1 5 = Returned m ∧ connected m ∧
        (∀ c, 0 ≤ c < 5 - 1 →
           ∃ A B, cellAt (cells m) 0 c = Some A ∧
                  cellAt (cells m) 0 (c + 1) = Some B ∧
                  right (walls A) = false ∧ left (walls B) = false) ∧
        (∀ c A, cellAt (cells m) 0 c = Some A →
           top (walls A) = true ∧ bottom (walls A) = true)) ∧
  (∃ m, generateMaze 10 rnd_sample 5 1 = Returned m ∧ connected m ∧
        (∀ r, 0 ≤ r < 5 - 1 →
           ∃ A B, cellAt (cells m) r 0 = Some A ∧
                  cellAt (cells m) (r + 1) 0 = Some B ∧
                  bottom (walls A) = false ∧ top (walls B) = false) ∧
        (∀ r A, cellAt (cells m) r 0 = Some A →
           left (walls A) = true ∧ right (walls A) = true)).
Proof.
  split; [apply random_ok_sample|].
  apply (generateMaze_degenerate rnd_sample 5 10);
    [lia | apply random_ok_sample | lia].
Defined.

(** C6.  [generateMaze(2, 2)]: exactly 4 cells, exactly 3 passages,
    [start = (0,0)], [end = (1,1)]; there is a simple path from the start to
    the end and every such path has at most 2 hops; every simple path of
    the maze has at most 3 hops. *)
Theorem generateMaze_two_by_two rnd fuel :
  random_ok rnd → 8 ≤ Z.of_nat fuel →
  ∃ m, generateMaze fuel rnd 2 2 = Returned m ∧
       length (concat (cells m)) = 4%nat ∧
       edge_count m = 3 ∧
       start m = (0, 0) ∧ end_ m = (1, 1) ∧
       (∃ p, simple_path (maze_edge m) (0, 0) (1, 1) p) ∧
       (∀ p, simple_path (maze_edge m) (0, 0) (1, 1) p → hops p ≤ 2) ∧
       (∀ a b p, simple_path (maze_edge m) a b p → hops p ≤ 3).
Proof.
  intros Hok Hfuel.
  destruct (carve_spec 2 2 rnd fuel ltac:(lia) ltac:(lia) Hok ltac:(lia))
    as (s & Hs & HI & _ & Hall).
  eexists. split; [by apply generateMaze_carve|].
  set (m := {| rows := 2; cols := 2; cells := grid s;
               start := (0, 0); end_ := (2 - 1, 2 - 1) |}).
  destruct (inv_tree_maze 2 2 s m HI Hall eq_refl eq_refl eq_refl)
    as (Hsub & _ & _ & Hcount & Htree).
  assert (∃ q, simple_path (maze_edge m) (0, 0) (1, 1) q ∧ hops q = 2)
    as (q & Hq & Hhops).
  { unfold edge_count in Hcount. simpl in Hcount.
    assert (length (passages 2 2 (grid s)) = 3%nat) as H3 by lia.
    apply filter_three_of_four in H3 as [[H1 H2]|[H1 H2]]; simpl in H1, H2.
    - exists [(0, 0); (0, 1); (1, 1)]. split; [|done].
      unfold simple_path. split_and!; [done|done| |].
      + by apply (bool_decide_unpack _).
      + rewrite !walk_cons_cons. split_and!; [done|done|].
        apply walk_singleton.
    - exists [(0, 0); (1, 0); (1, 1)]. split; [|done].
      unfold simple_path. split_and!; [done|done| |].
      + by apply (bool_decide_unpack _).
      + rewrite !walk_cons_cons. split_and!; [done|done|].
        apply walk_singleton. }
  split_and!; try done.
  - destruct (inv_shape _ _ _ HI) as [Hlen Hlines]. simpl.
    destruct (grid s) as [|l0 [|l1 [|l2 g]]] eqn:Eg; simpl in Hlen; try lia.
    pose proof (Hlines 0 l0 eq_refl). pose proof (Hlines 1 l1 eq_refl).
    simpl. rewrite length_app, length_app. simpl. lia.
  - eauto.
  - intros p Hp.
    destruct (Htree (0, 0) (1, 1)) as (p0 & _ & Hu);
      [unfold in_maze, inside; simpl; lia..|].
    rewrite (Hu p Hp), <- (Hu q Hq). lia.
  - intros a b p Hp.
    pose proof (simple_path_length m a b p Hsub) as Hl. simpl in Hl.
    unfold hops. specialize (Hl ltac:(lia) ltac:(lia) Hp). lia.
Qed.

Lemma generateMaze_two_by_two_witness :
  random_ok rnd_sample ∧
  ∃ m, generateMaze 8 rnd_sample 2 2 = Returned m ∧
       length (concat (cells m)) = 4%nat ∧
       edge_count m = 3 ∧
       start m = (0, 0) ∧ end_ m = (1, 1) ∧
       (∃ p, simple_path (maze_edge m) (0, 0) (1, 1) p) ∧
       (∀ p, simple_path (maze_edge m) (0, 0) (1, 1) p → hops p ≤ 2) ∧
       (∀ a b p, simple_path (maze_edge m) a b p → hops p ≤ 3).
Proof.
  split; [apply random_ok_sample|].
  apply (generateMaze_two_by_two rnd_sample 8);
    [apply random_ok_sample | lia].
Defined.


(** C7.  For positive [rows] and [cols] the carving loop terminates with an
    empty stack (within [2 * rows * cols] loop tests); no cell was pushed
    twice, and every one of the [rows * cols] cells was pushed and is marked
    visited.  The maze returned holds the grid of that final state. *)
Theorem generateMaze_terminates_visiting_once rnd R C fuel :
  0 < R → 0 < C → random_ok rnd → 2 * R * C ≤ Z.of_nat fuel →
  ∃ s, carve fuel rnd R C = Returned s ∧
       stack s = [] ∧
       NoDup (pushed s) ∧
       Z.of_nat (length (pushed s)) = R * C ∧
       (∀ p, inside R C p → p ∈ pushed s ∧ visitedAt (grid s) p = true) ∧
       generateMaze fuel rnd R C =
       Returned {| rows := R; cols := C; cells := grid s;
                   start := (0, 0); end_ := (R - 1, C - 1) |}.
Proof.
  intros HR HC Hok Hfuel.
  destruct (carve_spec R C rnd fuel HR HC Hok Hfuel)
    as (s & Hs & HI & Hst & Hall).
  exists s. split_and!; try done.
  - apply (inv_nodup _ _ _ HI).
  - rewrite <- (length_all_cells R C) by lia. f_equal.
    apply Permutation_length, NoDup_Permutation.
    + apply (inv_nodup _ _ _ HI).
    + apply NoDup_all_cells.
    + intros p. by rewrite Hall, elem_of_all_cells.
  - intros p Hp. apply Hall in Hp. split; [done|].
    by apply (inv_pushed _ _ _ HI) in Hp as [_ ?].
  - by apply generateMaze_carve.
Qed.

Lemma generateMaze_terminates_visiting_once_witness :
  random_ok rnd_sample ∧
  ∃ s, carve 30 rnd_sample 3 5 = Returned s ∧
       stack s = [] ∧
       NoDup (pushed s) ∧
       Z.of_nat (length (pushed s)) = 3 * 5 ∧
       (∀ p, inside 3 5 p → p ∈ pushed s ∧ visitedAt (grid s) p = true) ∧
       generateMaze 30 rnd_sample 3 5 =
       Returned {| rows := 3; cols := 5; cells := grid s;
                   start := (0, 0); end_ := (3 - 1, 5 - 1) |}.
Proof.
  split; [apply random_ok_sample|].
  apply (generateMaze_terminates_visiting_once rnd_sample 3 5 30);
    [lia | lia | apply random_ok_sample | lia].
Defined.

(** C8.  Two calls that consume equal random numbers (equal as rationals)
    end in the same way: the same maze, wall for wall, with the same start
    and end.  For positive sizes and numbers within [0, 1) the call consumes
    exactly the first [rows * cols - 1] numbers of the sequence, and equal
    numbers there are enough. *)
Theorem generateMaze_deterministic fuel rnd1 rnd2 R C :
  ((∀ k, (rnd1 k == rnd2 k)%Q) →
   generateMaze fuel rnd1 R C = generateMaze fuel rnd2 R C) ∧
  (0 < R → 0 < C → random_ok rnd1 →
   (∀ k, Z.of_nat k < R * C - 1 → (rnd1 k == rnd2 k)%Q) →
   generateMaze fuel rnd1 R C = generateMaze fuel rnd2 R C ∧
   ∀ s, carve fuel rnd1 R C = Returned s →
        Z.of_nat (draws s) = R * C - 1).
Proof.
  split.
  - intros H. unfold generateMaze, carve. destruct (enter R C); try done.
    by rewrite (loop_ext rnd1 rnd2).
  - intros HR HC Hok Hpre. unfold generateMaze, carve.
    rewrite enter_ok by done. split.
    + rewrite (loop_ext_prefix R C rnd1 rnd2); try done.
      by apply inv_enter.
    + intros s Hs.
      destruct (loop fuel rnd1 _) as [s'|] eqn:Hloop; [|done].
      injection Hs as ->.
      pose proof (loop_draws R C rnd1 fuel _ s HR Hok
                    (inv_enter R C HR HC) eq_refl Hloop) as Hd.
      destruct (carve_spec R C rnd1 (Nat.max fuel (Z.to_nat (2 * R * C)))
                  HR HC Hok ltac:(lia)) as (s2 & Hs2 & HI & _ & Hall).
      unfold carve in Hs2. rewrite enter_ok in Hs2 by done.
      rewrite (loop_fuel_mono rnd1 fuel _ _ s Hloop) in Hs2 by lia.
      injection Hs2 as <-.
      assert (Z.of_nat (length (pushed s)) = R * C) as Hlen; [|lia].
      rewrite <- (length_all_cells R C) by lia. f_equal.
      apply Permutation_length, NoDup_Permutation.
      * apply (inv_nodup _ _ _ HI).
      * apply NoDup_all_cells.
      * intros p. by rewrite Hall, elem_of_all_cells.
Qed.

Lemma generateMaze_deterministic_witness :
  (∀ k, (rnd_sample k == rnd_sample' k)%Q) ∧
  generateMaze 18 rnd_sample 3 3 = generateMaze 18 rnd_sample' 3 3 ∧
  random_ok rnd_sample ∧
  (∀ k, Z.of_nat k < 3 * 3 - 1 → (rnd_sample k == rnd_prefix 8 k)%Q) ∧
  generateMaze 18 rnd_sample 3 3 = generateMaze 18 (rnd_prefix 8) 3 3 ∧
  ∀ s, carve 18 rnd_sample 3 3 = Returned s → Z.of_nat (draws s) = 3 * 3 - 1.
Proof.
  assert (∀ k, (rnd_sample k == rnd_sample' k)%Q) as H.
  { intros k. unfold rnd_sample, rnd_sample'.
    destruct (Nat.even k); reflexivity. }
  assert (∀ k, Z.of_nat k < 3 * 3 - 1 →
               (rnd_sample k == rnd_prefix 8 k)%Q) as H'.
  { intros k Hk. unfold rnd_prefix.
    destruct (k <? 8)%nat eqn:E; [reflexivity|].
    apply Nat.ltb_ge in E. lia. }
  pose proof (generateMaze_deterministic 18 rnd_sample rnd_sample' 3 3)
    as [Hall _].
  pose proof (generateMaze_deterministic 18 rnd_sample (rnd_prefix 8) 3 3)
    as [_ Hpre].
  destruct (Hpre ltac:(lia) ltac:(lia) random_ok_sample H') as [Heq Hdraws].
  split_and!; [exact H | exact (Hall H) | apply random_ok_sample
              | exact H' | exact Heq | exact Hdraws].
Defined.

(** C9.  For every maze, cell size and wall thickness, [getMazeDimensions]
    returns [width = cols * cellSize + wallThickness] and
    [height = rows * cellSize + wallThickness]. *)
Theorem getMazeDimensions_footprint maze size thickness c1 c2 c3 c4 :
  getMazeDimensions maze
    {| cellSize_opt := Some size; wallThickness_opt := Some thickness;
       wallColor_opt := c1; backgroundColor_opt := c2;
       startStarColor_opt := c3; endStarColor_opt := c4 |} =
  {| width := cols maze * size + thickness;
     height := rows maze * size + thickness |}.
Proof. reflexivity. Qed.

(** C10.  When [generateMaze] returns, the grid is well formed and fully
    marked: [cells] has exactly [rows] lines of exactly [cols] cells, the
    cell in slot [(r, c)] has [row = r] and [col = c], and every cell has
    [visited = true]. *)
Theorem generateMaze_grid_well_formed rnd R C fuel :
  0 < R → 0 < C → random_ok rnd → 2 * R * C ≤ Z.of_nat fuel →
  ∃ m, generateMaze fuel rnd R C = Returned m ∧
       rows m = R ∧ cols m = C ∧
       Z.of_nat (length (cells m)) = R ∧
       (∀ line, line ∈ cells m → Z.of_nat (length line) = C) ∧
       ∀ r c, 0 ≤ r < R → 0 ≤ c < C →
         ∃ x, cellAt (cells m) r c = Some x ∧
              row x = r ∧ col x = c ∧ visited x = true.
Proof.
  intros HR HC Hok Hfuel.
  destruct (carve_spec R C rnd fuel HR HC Hok Hfuel)
    as (s & Hs & HI & _ & Hall).
  eexists. split; [by apply generateMaze_carve|]. simpl.
  destruct (inv_shape _ _ _ HI) as [Hlen Hlines]. split_and!; try done.
  - intros line (i & Hi)%list_elem_of_lookup.
    apply (Hlines (Z.of_nat i)). apply at_index_Some.
    split; [lia|]. by rewrite Nat2Z.id.
  - intros r c Hr Hc.
    assert ((r, c) ∈ pushed s) as Hp by (by apply Hall).
    destruct (inv_cell _ _ _ _ HI Hp) as (x & Hx & Hv). simpl in Hx.
    exists x. destruct (inv_placed _ _ _ HI _ _ _ Hx). done.
Qed.

Lemma generateMaze_grid_well_formed_witness :
  random_ok rnd_sample ∧
  ∃ m, generateMaze 24 rnd_sample 3 4 = Returned m ∧
       rows m = 3 ∧ cols m = 4 ∧
       Z.of_nat (length (cells m)) = 3 ∧
       (∀ line, line ∈ cells m → Z.of_nat (length line) = 4) ∧
       ∀ r c, 0 ≤ r < 3 → 0 ≤ c < 4 →
         ∃ x, cellAt (cells m) r c = Some x ∧
              row x = r ∧ col x = c ∧ visited x = true.
Proof.
  split; [apply random_ok_sample|].
  apply (generateMaze_grid_well_formed rnd_sample 3 4 24);
    [lia | lia | apply random_ok_sample | lia].
Defined.

(** * Further properties of the generator *)

(** ** The helpers *)

(** X1.  [createGrid(rows, cols)] has [max(rows, 0)] lines of [max(cols, 0)]
    cells; the cell in slot [(r, c)] carries [row = r], [col = c], all four
    walls and [visited = false]; outside the grid there is no cell. *)
Theorem createGrid_fresh R C :
  Z.of_nat (length (createGrid R C)) = Z.max 0 R ∧
  (∀ line, line ∈ createGrid R C → Z.of_nat (length line) = Z.max 0 C) ∧
  ∀ r c, cellAt (createGrid R C) r c =
         if decide (0 ≤ r < R ∧ 0 ≤ c < C)
         then Some {| row := r; col := c; walls := all_walls;
                      visited := false |}
         else None.
Proof.
  split_and!.
  - unfold createGrid. rewrite length_fmap, length_seqZ. lia.
  - unfold createGrid. intros line (r & -> & _)%list_elem_of_fmap.
    rewrite length_fmap, length_seqZ. lia.
  - intros r c. apply cellAt_createGrid.
Qed.

Lemma pushUnvisited_filter R C g l r c :
  shape R C g → placed g →
  pushUnvisited l (cellAt g r c) =
  l ++ filter (λ q, inside R C q ∧ visitedAt g q = false) [(r, c)].
Proof.
  intros Hs Hp. unfold pushUnvisited.
  destruct (cellAt g r c) as [x|] eqn:E.
  - destruct (Hp _ _ _ E) as [Hr Hc].
    assert (inside R C (r, c)) by (apply (shape_cellAt _ _ g); eauto).
    unfold ref. rewrite Hr, Hc.
    destruct (visited x) eqn:Ev; simpl.
    + rewrite filter_cons_False, filter_nil; [by rewrite app_nil_r|].
      intros [_ Hv]. unfold visitedAt in Hv. simpl in Hv.
      rewrite E in Hv. congruence.
    + rewrite filter_cons_True; [done|].
      split; [done|]. unfold visitedAt. simpl. by rewrite E.
  - rewrite filter_cons_False, filter_nil; [by rewrite app_nil_r|].
    intros [Hin _]. apply (shape_cellAt _ _ g) in Hin; [|done].
    rewrite E in Hin. by destruct Hin.
Qed.

(** X2.  On a rectangular grid whose cells sit in their slots,
    [getUnvisitedNeighbors] returns exactly the neighbours above, below, left
    and right of the cell, in this order, that lie in the grid and are not
    visited. *)
Theorem getUnvisitedNeighbors_spec R C g p :
  shape R C g → placed g →
  getUnvisitedNeighbors g p =
  filter (λ q, inside R C q ∧ visitedAt g q = false) (around p).
Proof.
  intros Hs Hp. destruct p as [r c]. unfold getUnvisitedNeighbors, around.
  simpl.
  assert (∀ l r' c' (b : bool),
            (b = false → ¬ inside R C (r', c')) →
            (if b then pushUnvisited l (cellAt g r' c') else l) =
            l ++ filter (λ q, inside R C q ∧ visitedAt g q = false)
                   [(r', c')]) as Hstep.
  { intros l r' c' [] Hb; [by apply pushUnvisited_filter|].
    rewrite filter_cons_False, filter_nil; [by rewrite app_nil_r|].
    intros [? _]. by apply Hb. }
  assert (Z.of_nat (length g) = R) as Hlen by apply Hs.
  rewrite Hlen.
  rewrite (Hstep [] (r - 1) c), (Hstep _ (r + 1) c), (Hstep _ r (c - 1)),
    (Hstep _ r (c + 1)).
  - simpl. rewrite !filter_cons, filter_nil.
    repeat case_decide; done.
  - intros Hb%bool_decide_eq_false. unfold inside. simpl.
    destruct (decide (0 < R)) as [HR|HR]; [|lia].
    rewrite (shape_first_line R C g Hs HR) in Hb. lia.
  - intros Hb%bool_decide_eq_false. unfold inside. simpl. lia.
  - intros Hb%bool_decide_eq_false. unfold inside. simpl. lia.
  - intros Hb%bool_decide_eq_false. unfold inside. simpl. lia.
Qed.

Lemma getUnvisitedNeighbors_spec_witness :
  shape 3 3 (modify (createGrid 3 3) (0, 1) (set_visited true)) ∧
  placed (modify (createGrid 3 3) (0, 1) (set_visited true)) ∧
  getUnvisitedNeighbors (modify (createGrid 3 3) (0, 1) (set_visited true))
    (1, 1) =
  filter (λ q, inside 3 3 q ∧
               visitedAt (modify (createGrid 3 3) (0, 1) (set_visited true))
                 q = false) (around (1, 1)).
Proof.
  assert (shape 3 3 (modify (createGrid 3 3) (0, 1) (set_visited true)))
    as Hs by (apply shape_modify, shape_createGrid; lia).
  assert (placed (modify (createGrid 3 3) (0, 1) (set_visited true)))
    as Hp by (apply placed_modify; [done | apply placed_createGrid]).
  split_and!; [done | done |].
  apply (getUnvisitedNeighbors_spec 3 3 _ (1, 1) Hs Hp).
Defined.

(** X3.  [removeWallBetween] never adds or removes a cell, never touches
    [row], [col] or [visited], never puts a wall back, and leaves every cell
    other than its two arguments as it was. *)
Theorem removeWallBetween_frame g cur next r c :
  match cellAt g r c, cellAt (removeWallBetween g cur next) r c with
  | Some x, Some x' =>
    row x' = row x ∧ col x' = col x ∧ visited x' = visited x ∧
    (∀ d, wall d x' = true → wall d x = true) ∧
    ((r, c) ≠ cur → (r, c) ≠ next → x' = x)
  | None, None => True
  | _, _ => False
  end.
Proof.
  assert (∀ d x, row (clear d x) = row x ∧ col (clear d x) = col x ∧
                 visited (clear d x) = visited x ∧
                 ∀ d', wall d' (clear d x) = true → wall d' x = true) as Hc.
  { intros d x. destruct (clear_fields d x) as (? & ? & ?).
    split_and!; try done. intros d'. rewrite wall_clear.
    by case_decide. }
  assert (∀ d1 d2,
    match cellAt g r c,
          cellAt (modify (modify g cur (clear d1)) next (clear d2)) r c with
    | Some x, Some x' =>
      row x' = row x ∧ col x' = col x ∧ visited x' = visited x ∧
      (∀ d, wall d x' = true → wall d x = true) ∧
      ((r, c) ≠ cur → (r, c) ≠ next → x' = x)
    | None, None => True
    | _, _ => False
    end) as Hmod.
  { intros d1 d2. rewrite !cellAt_modify.
    destruct (cellAt g r c) as [x|]; repeat case_decide; simpl; try done.
    - destruct (Hc d1 x) as (? & ? & ? & ?).
      destruct (Hc d2 (clear d1 x)) as (? & ? & ? & ?).
      split_and!; try congruence; auto.
    - destruct (Hc d2 x) as (? & ? & ? & ?). split_and!; auto. done.
    - destruct (Hc d1 x) as (? & ? & ? & ?). split_and!; auto. done. }
  unfold removeWallBetween. repeat case_bool_decide.
  - apply (Hmod East West).
  - apply (Hmod West East).
  - apply (Hmod South North).
  - apply (Hmod North South).
  - destruct (cellAt g r c); [|done]. split_and!; done.
Qed.

Lemma cellAt_modify_ref g p f (a : CellRef) :
  cellAt (modify g p f) a.1 a.2 =
  if decide (p = a) then f <$> cellAt g a.1 a.2 else cellAt g a.1 a.2.
Proof. destruct a as [r c]. apply cellAt_modify. Qed.

(** X4.  Between two existing cells that are neighbours in the grid,
    [removeWallBetween] opens the passage, in both directions; between cells
    that differ by [1] in neither coordinate (the same cell included) it
    changes nothing. *)
Theorem removeWallBetween_passage g p q :
  is_Some (cellAt g p.1 p.2) → is_Some (cellAt g q.1 q.2) →
  ((∃ d, q = move p d) →
   passage (removeWallBetween g p q) p q = true ∧
   passage (removeWallBetween g p q) q p = true) ∧
  (q.2 - p.2 ≠ 1 → q.2 - p.2 ≠ -1 → q.1 - p.1 ≠ 1 → q.1 - p.1 ≠ -1 →
   removeWallBetween g p q = g).
Proof.
  intros [x Hx] [y Hy]. split.
  - intros [d ->]. rewrite (passage_sym _ (move p d) p).
    assert (passage (removeWallBetween g p (move p d)) p (move p d) = true);
      [|done].
    rewrite removeWallBetween_move. apply passage_dir.
    exists d, (clear d x), (clear (opp d) y).
    rewrite !cellAt_modify_ref.
    rewrite (decide_False (P := move p d = p)) by apply move_ne.
    rewrite !decide_True by done.
    rewrite (decide_False (P := p = move p d))
      by (by intros ?%eq_sym%move_ne).
    rewrite Hx, Hy. simpl. rewrite !wall_clear, !decide_True by done. done.
  - intros. unfold removeWallBetween.
    by rewrite !bool_decide_eq_false_2.
Qed.

Lemma removeWallBetween_passage_witness :
  is_Some (cellAt (createGrid 2 3) 0 1) ∧
  is_Some (cellAt (createGrid 2 3) 1 1) ∧
  passage (removeWallBetween (createGrid 2 3) (0, 1) (1, 1)) (0, 1) (1, 1)
    = true ∧
  removeWallBetween (createGrid 2 3) (0, 0) (0, 2) = createGrid 2 3.
Proof.
  assert (is_Some (cellAt (createGrid 2 3) 0 1)) as H1 by (by eexists).
  assert (is_Some (cellAt (createGrid 2 3) 1 1)) as H2 by (by eexists).
  assert (is_Some (cellAt (createGrid 2 3) 0 0)) as H3 by (by eexists).
  assert (is_Some (cellAt (createGrid 2 3) 0 2)) as H4 by (by eexists).
  split_and!; [done | done | |].
  - apply (removeWallBetween_passage (createGrid 2 3) (0, 1) (1, 1) H1 H2).
    by exists South.
  - by apply (removeWallBetween_passage (createGrid 2 3) (0, 0) (0, 2) H3 H4).
Defined.

(** ** The states of the loop *)

Lemma enter_Returned R C s0 :
  enter R C = Returned s0 →
  0 < R ∧ 0 < C ∧
  s0 = {| grid := modify (createGrid R C) (0, 0) (set_visited true);
          stack := [(0, 0)]; draws := 0; pushed := [(0, 0)] |}.
Proof.
  intros H. destruct (decide (0 < R ∧ 0 < C)) as [[HR HC]|Hbad].
  - rewrite enter_ok in H by done. by injection H as <-.
  - unfold enter in H. rewrite cellAt_createGrid in H.
    rewrite decide_False in H; [done|]. unfold inside. simpl. lia.
Qed.

Lemma run_inv R C rnd n s s' :
  Inv R C s → 0 < R → run n rnd s = Some s' → Inv R C s'.
Proof.
  intros HI HR. revert s HI. induction n as [|n IH]; intros s HI; simpl.
  - by intros [= <-].
  - destruct (step rnd s) as [s1|] eqn:E; [|done].
    apply IH. by eapply step_inv.
Qed.

(** What a push changes: one new cell, one new passage. *)
Lemma push_facts R C s cur below next :
  Inv R C s → 0 < R → stack s = cur :: below →
  next ∈ getUnvisitedNeighbors (grid s) cur →
  (next ∉ pushed s) ∧
  ∀ a b,
    passage (modify (removeWallBetween (grid s) cur next) next
               (set_visited true)) a b = true ↔
    passage (grid s) a b = true ∨ (a = cur ∧ b = next) ∨
    (a = next ∧ b = cur).
Proof.
  intros HI HR Hst Hnext.
  apply (elem_of_getUnvisitedNeighbors R C) in Hnext as (d & -> & Hin & Hnv);
    [|apply (inv_shape _ _ _ HI)|apply (inv_placed _ _ _ HI)|done].
  change (modify _ _ _) with (carved (grid s) cur d).
  assert (cur ∈ pushed s) as Hcur.
  { apply (inv_stack _ _ _ HI). rewrite Hst. left. }
  destruct (inv_cell _ _ _ _ HI Hcur) as (xp & Hxp & Hvp).
  assert (is_Some (cellAt (grid s) (move cur d).1 (move cur d).2))
    as [xq Hxq].
  { apply (shape_cellAt R C); [apply (inv_shape _ _ _ HI)|].
    by rewrite <- surjective_pairing. }
  assert (visited xq = false) as Hvq.
  { unfold visitedAt in Hnv. by rewrite Hxq in Hnv. }
  split.
  - intros H. apply (inv_pushed _ _ _ HI) in H as [_ ?]. congruence.
  - intros a b. apply (passage_carved (grid s) cur d xp xq); [done..|].
    intros d'. destruct (wall d' xq) eqn:Ew; [done|].
    destruct (inv_walls _ _ _ HI _ _ _ Hxq Ew). congruence.
Qed.

Lemma step_stack_path R C rnd s s' :
  Inv R C s → 0 < R → step rnd s = Some s' →
  stack_path s → stack_path s'.
Proof.
  intros HI HR Hstep (Hw & Hnd & Hlast).
  apply step_cases in Hstep
    as (cur & below & Hst & [[Hnone ->]|[(next & Hnext & ->)|(_ & _ & ->)]]);
    unfold stack_path; simpl; [| |done].
  - rewrite Hst in Hw, Hnd, Hlast. split_and!.
    + by apply walk_cons in Hw.
    + by apply NoDup_cons in Hnd as [_ ?].
    + intros Hne. specialize (Hlast ltac:(done)).
      destruct below; [done|]. by rewrite last_cons_cons in Hlast.
  - destruct (push_facts R C s cur below next HI HR Hst Hnext)
      as [Hfresh Hpass].
    split_and!.
    + rewrite Hst. apply walk_cons_cons. split.
      * apply Hpass. auto.
      * rewrite <- Hst. eapply walk_mono; [|done].
        intros a b Hab. apply Hpass. by left.
    + apply NoDup_cons. split; [|done].
      intros Hin. by apply (inv_stack _ _ _ HI) in Hin.
    + intros _. rewrite Hst, last_cons_cons, <- Hst. apply Hlast.
      by rewrite Hst.
Qed.

Lemma run_stack_path R C rnd n s s' :
  Inv R C s → 0 < R → stack_path s → run n rnd s = Some s' →
  stack_path s'.
Proof.
  intros HI HR. revert s HI. induction n as [|n IH]; intros s HI Hp; simpl.
  - by intros [= <-].
  - destruct (step rnd s) as [s1|] eqn:E; [|done].
    apply IH; [by eapply step_inv | by eapply step_stack_path].
Qed.

(** X5.  At every moment of the carving the stack, read from its top, is a
    simple path of passages from the current cell back to the start cell
    [(0, 0)], through visited cells of the grid. *)
Theorem carving_stack_is_path R C rnd n s0 s :
  enter R C = Returned s0 → run n rnd s0 = Some s →
  walk (edge (grid s)) (stack s) ∧ NoDup (stack s) ∧
  (stack s ≠ [] → last (stack s) = Some (0, 0)) ∧
  ∀ p, p ∈ stack s → inside R C p ∧ visitedAt (grid s) p = true.
Proof.
  intros (HR & HC & ->)%enter_Returned Hrun.
  pose proof (inv_enter R C HR HC) as HI0.
  pose proof (run_inv _ _ _ _ _ _ HI0 HR Hrun) as HI.
  assert (stack_path
            {| grid := modify (createGrid R C) (0, 0) (set_visited true);
               stack := [(0, 0)]; draws := 0; pushed := [(0, 0)] |}) as Hp0.
  { unfold stack_path. simpl. split_and!; [apply walk_singleton| |done].
    apply NoDup_singleton. }
  destruct (run_stack_path R C rnd n _ s HI0 HR Hp0 Hrun)
    as (Hw & Hnd & Hlast).
  split_and!; try done.
  intros p Hp. apply (inv_pushed _ _ _ HI). by apply (inv_stack _ _ _ HI).
Qed.

Lemma carving_stack_is_path_witness :
  ∃ s0 s, enter 3 3 = Returned s0 ∧ run 5 rnd_sample s0 = Some s ∧
    walk (edge (grid s)) (stack s) ∧ NoDup (stack s) ∧
    (stack s ≠ [] → last (stack s) = Some (0, 0)) ∧
    ∀ p, p ∈ stack s → inside 3 3 p ∧ visitedAt (grid s) p = true.
Proof.
  eexists _, _.
  assert (enter 3 3 = Returned
            {| grid := modify (createGrid 3 3) (0, 0) (set_visited true);
               stack := [(0, 0)]; draws := 0; pushed := [(0, 0)] |}) as H0
    by reflexivity.
  split; [exact H0|].
  split; [vm_compute; reflexivity|].
  apply (carving_stack_is_path 3 3 rnd_sample 5 _ _ H0).
  vm_compute. reflexivity.
Defined.

(** X6.  At every moment of the carving the grid is a perfect maze on its
    visited part: an unvisited cell has all four walls, facing wall flags
    agree, passages join visited cells only, and any two visited cells are
    joined by exactly one simple path of passages. *)
Theorem carving_keeps_partial_maze R C rnd n s0 s :
  enter R C = Returned s0 → run n rnd s0 = Some s →
  (∀ r c x, cellAt (grid s) r c = Some x → visited x = false →
            walls x = all_walls) ∧
  (∀ r c d x y, cellAt (grid s) r c = Some x →
     cellAt (grid s) (move (r, c) d).1 (move (r, c) d).2 = Some y →
     wall d x = wall (opp d) y) ∧
  (∀ a b, passage (grid s) a b = true →
          visitedAt (grid s) a = true ∧ visitedAt (grid s) b = true) ∧
  tree_on (edge (grid s))
          (λ p, inside R C p ∧ visitedAt (grid s) p = true).
Proof.
  intros (HR & HC & ->)%enter_Returned Hrun.
  pose proof (run_inv _ _ _ _ _ _ (inv_enter R C HR HC) HR Hrun) as HI.
  split_and!.
  - intros r c x Hx Hv.
    assert (∀ d, wall d x = true) as Hw.
    { intros d. destruct (wall d x) eqn:E; [done|].
      destruct (inv_walls _ _ _ HI (r, c) x d Hx E). congruence. }
    pose proof (Hw North). pose proof (Hw South).
    pose proof (Hw West). pose proof (Hw East).
    destruct x as [? ? [] ?]. simpl in *. by subst.
  - intros r c d x y Hx Hy.
    apply (inv_wall_sym R C s (r, c) x y d HI Hx Hy).
  - intros a b Hab. apply (inv_edge R C) in Hab as [Ha Hb]; [|done].
    by apply (inv_pushed _ _ _ HI) in Ha as [_ ?], Hb as [_ ?].
  - intros a b Ha%(inv_pushed _ _ _ HI) Hb%(inv_pushed _ _ _ HI).
    apply (inv_tree _ _ _ HI a b Ha Hb).
Qed.

Lemma carving_keeps_partial_maze_witness :
  ∃ s0 s, enter 3 3 = Returned s0 ∧ run 4 rnd_sample s0 = Some s ∧
  (∀ r c x, cellAt (grid s) r c = Some x → visited x = false →
            walls x = all_walls) ∧
  (∀ r c d x y, cellAt (grid s) r c = Some x →
     cellAt (grid s) (move (r, c) d).1 (move (r, c) d).2 = Some y →
     wall d x = wall (opp d) y) ∧
  (∀ a b, passage (grid s) a b = true →
          visitedAt (grid s) a = true ∧ visitedAt (grid s) b = true) ∧
  tree_on (edge (grid s))
          (λ p, inside 3 3 p ∧ visitedAt (grid s) p = true).
Proof.
  eexists _, _.
  assert (enter 3 3 = Returned
            {| grid := modify (createGrid 3 3) (0, 0) (set_visited true);
               stack := [(0, 0)]; draws := 0; pushed := [(0, 0)] |}) as H0
    by reflexivity.
  split; [exact H0|].
  split; [vm_compute; reflexivity|].
  apply (carving_keeps_partial_maze 3 3 rnd_sample 4 _ _ H0).
  vm_compute. reflexivity.
Defined.

(** ** The number of passes *)

Lemma step_measure_exact R C rnd s s' :
  Inv R C s → 0 < R → 0 < C → random_ok rnd → step rnd s = Some s' →
  S (measure R C s') = measure R C s.
Proof.
  intros HI HR HC Hok Hstep.
  pose proof (step_inv _ _ _ _ _ HI HR Hstep) as HI'.
  pose proof (inv_length_pushed _ _ _ HI' ltac:(lia) ltac:(lia)) as Hlen.
  apply step_cases in Hstep
    as (cur & below & Hst &
        [[Hnone ->]|[(next & Hnext & ->)|(Hidx & Hne & ->)]]);
    unfold measure in *; simpl in *.
  - rewrite Hst. simpl. lia.
  - lia.
  - exfalso. apply at_index_None in Hidx. apply Hidx.
    apply randomIndex_range; [done|].
    destruct (getUnvisitedNeighbors (grid s) cur); [done | simpl; lia].
Qed.

Lemma loop_out_of_fuel R C rnd fuel s :
  0 < R → 0 < C → random_ok rnd → Inv R C s →
  (fuel ≤ measure R C s)%nat → loop fuel rnd s = None.
Proof.
  intros HR HC Hok. revert s.
  induction fuel as [|fuel IH]; intros s HI Hm; [done|]. simpl.
  destruct (step rnd s) as [s1|] eqn:Hstep.
  - apply IH; [by eapply step_inv|].
    pose proof (step_measure_exact _ _ _ _ _ HI HR HC Hok Hstep). lia.
  - exfalso.
    assert (stack s = []) as Hst.
    { unfold step in Hstep. destruct (stack s); [done|].
      case_bool_decide; [done|]. by destruct (at_index _ _). }
    assert (Z.of_nat (length (pushed s)) = R * C) as Hlen.
    { rewrite <- (length_all_cells R C) by lia. f_equal.
      apply Permutation_length, NoDup_Permutation.
      - apply (inv_nodup _ _ _ HI).
      - apply NoDup_all_cells.
      - intros p. rewrite elem_of_all_cells. split.
        + by intros [? _]%(inv_pushed _ _ _ HI).
        + by apply inv_all_pushed. }
    unfold measure in Hm. rewrite Hst in Hm. simpl in Hm. lia.
Qed.

(** X7.  For positive sizes and random numbers within [0, 1) the loop
    condition is evaluated exactly [2 * rows * cols] times (one push and one
    pop per cell, and the final test): with less fuel the run does not
    finish, with more it ends as with exactly that much. *)
Theorem generateMaze_loop_tests rnd R C fuel :
  0 < R → 0 < C → random_ok rnd →
  (Z.of_nat fuel < 2 * R * C → generateMaze fuel rnd R C = OutOfFuel) ∧
  (2 * R * C ≤ Z.of_nat fuel →
   generateMaze fuel rnd R C =
   generateMaze (Z.to_nat (2 * R * C)) rnd R C ∧
   ∃ m, generateMaze fuel rnd R C = Returned m).
Proof.
  intros HR HC Hok. split.
  - intros Hfuel. unfold generateMaze, carve. rewrite enter_ok by done.
    rewrite (loop_out_of_fuel R C); try done; [by apply inv_enter|].
    unfold measure. simpl. nia.
  - intros Hfuel.
    destruct (carve_spec R C rnd (Z.to_nat (2 * R * C)) HR HC Hok
                ltac:(lia)) as (s & Hs & _).
    assert (carve fuel rnd R C = Returned s) as Hs'.
    { unfold carve in *. rewrite enter_ok in * by done.
      destruct (loop (Z.to_nat _) rnd _) as [s1|] eqn:E; [|done].
      rewrite (loop_fuel_mono _ _ fuel _ _ E) by lia. done. }
    rewrite (generateMaze_carve _ _ _ _ _ Hs),
      (generateMaze_carve _ _ _ _ _ Hs'). eauto.
Qed.

Lemma generateMaze_loop_tests_witness :
  random_ok rnd_sample ∧
  generateMaze 17 rnd_sample 3 3 = OutOfFuel ∧
  generateMaze 40 rnd_sample 3 3 = generateMaze 18 rnd_sample 3 3 ∧
  ∃ m, generateMaze 40 rnd_sample 3 3 = Returned m.
Proof.
  pose proof (generateMaze_loop_tests rnd_sample 3 3 17
                ltac:(lia) ltac:(lia) random_ok_sample) as [H17 _].
  pose proof (generateMaze_loop_tests rnd_sample 3 3 40
                ltac:(lia) ltac:(lia) random_ok_sample) as [_ H40].
  destruct (H40 ltac:(lia)) as [Heq Hm].
  split_and!; [apply random_ok_sample | apply H17; lia | exact Heq
              | exact Hm].
Defined.

(** * The renderer *)

(** ** The lines stroked by [renderMaze] *)

Lemma segments_renderCell maze ox oy cs hw r c rest :
  segments (renderCell maze ox oy cs hw r c ++ rest) =
  (sideLine ox oy cs hw r c <$> drawnSides maze r c) ++ segments rest.
Proof.
  unfold renderCell, drawnSides.
  destruct (cellAt (cells maze) r c) as [cell|]; [|done].
  destruct (top (walls cell)), (left (walls cell)),
    (bool_decide (c = cols maze - 1) && right (walls cell)),
    (bool_decide (r = rows maze - 1) && bottom (walls cell)); reflexivity.
Qed.

Lemma segments_renderLine maze ox oy cs hw r (l : list Z) rest :
  segments ((c ← l; renderCell maze ox oy cs hw r c) ++ rest) =
  (c ← l; sideLine ox oy cs hw r c <$> drawnSides maze r c) ++
  segments rest.
Proof.
  induction l as [|c l IH]; [done|]. csimpl.
  by rewrite <- !app_assoc, segments_renderCell, IH.
Qed.

Lemma segments_renderLines maze ox oy cs hw (lr lc : list Z) rest :
  segments ((r ← lr; c ← lc; renderCell maze ox oy cs hw r c) ++ rest) =
  (r ← lr; c ← lc; sideLine ox oy cs hw r c <$> drawnSides maze r c) ++
  segments rest.
Proof.
  induction lr as [|r lr IH]; [done|]. csimpl.
  by rewrite <- !app_assoc, segments_renderLine, IH.
Qed.

Lemma segments_renderMaze maze ox oy options :
  segments (renderMaze maze ox oy options) =
  (λ k, sideLine ox oy (cellSize (spread DEFAULT_OPTIONS options))
          (inject_Z (wallThickness (spread DEFAULT_OPTIONS options)) / 2)%Q
          k.1.1 k.1.2 k.2) <$> drawnWalls maze.
Proof.
  unfold renderMaze, drawnWalls.
  cbn [app segments]. rewrite segments_renderLines. simpl.
  rewrite app_nil_r.
  generalize (seqZ 0 (rows maze)) as lr, (seqZ 0 (cols maze)) as lc.
  intros lr lc.
  induction lr as [|r lr IH]; [done|]. csimpl.
  rewrite fmap_app, <- IH. f_equal.
  clear IH. induction lc as [|c lc IH]; [done|]. csimpl.
  rewrite fmap_app, <- IH. f_equal.
  by rewrite <- list_fmap_compose.
Qed.

Lemma elem_of_drawnWalls maze r c d :
  (r, c, d) ∈ drawnWalls maze ↔
  0 ≤ r < rows maze ∧ 0 ≤ c < cols maze ∧ d ∈ drawnSides maze r c.
Proof.
  unfold drawnWalls. rewrite list_elem_of_bind. split.
  - intros (r' & Hc & Hr). apply list_elem_of_bind in Hc as (c' & Hd & Hc).
    apply list_elem_of_fmap in Hd as (d' & [= -> -> ->] & Hd).
    apply elem_of_seqZ in Hr, Hc. split_and!; try lia. done.
  - intros (Hr & Hc & Hd). exists r. split; [|apply elem_of_seqZ; lia].
    apply list_elem_of_bind. exists c. split; [|apply elem_of_seqZ; lia].
    apply list_elem_of_fmap. by exists d.
Qed.

Lemma elem_of_drawnSides maze r c d :
  d ∈ drawnSides maze r c ↔
  ∃ cell, cellAt (cells maze) r c = Some cell ∧ wall d cell = true ∧
          (d = East → c = cols maze - 1) ∧ (d = South → r = rows maze - 1).
Proof.
  unfold drawnSides. destruct (cellAt (cells maze) r c) as [cell|];
    [|split; [by intros ?%elem_of_nil | by intros (? & ? & _)]].
  rewrite !elem_of_app. split.
  - intros H. exists cell. split; [done|].
    destruct H as [H|[H|[H|H]]].
    + destruct (top (walls cell)) eqn:E;
        [apply list_elem_of_singleton in H as ->|by apply elem_of_nil in H].
      by split_and!.
    + destruct (left (walls cell)) eqn:E;
        [apply list_elem_of_singleton in H as ->|by apply elem_of_nil in H].
      by split_and!.
    + destruct (bool_decide (c = cols maze - 1)) eqn:Ec;
        destruct (right (walls cell)) eqn:E; simpl in H;
        try (by apply elem_of_nil in H).
      apply list_elem_of_singleton in H as ->.
      apply bool_decide_eq_true in Ec. by split_and!.
    + destruct (bool_decide (r = rows maze - 1)) eqn:Er;
        destruct (bottom (walls cell)) eqn:E; simpl in H;
        try (by apply elem_of_nil in H).
      apply list_elem_of_singleton in H as ->.
      apply bool_decide_eq_true in Er. by split_and!.
  - intros (cell' & [= <-] & Hw & HE & HS). destruct d; simpl in Hw.
    + left. rewrite Hw. left.
    + right. right. right. rewrite HS, Hw by done.
      rewrite bool_decide_eq_true_2 by done. left.
    + right. left. rewrite Hw. left.
    + right. right. left. rewrite HE, Hw by done.
      rewrite bool_decide_eq_true_2 by done. left.
Qed.

Lemma sideLine_wallLine ox oy cs wt r c d :
  same_segment (sideLine ox oy cs (inject_Z wt / 2)%Q r c d)
               (wallLine ox oy cs wt r c d).
Proof.
  unfold same_segment, sideLine, wallLine, gridLine.
  destruct d; simpl; rewrite ?inject_Z_plus; split_and!; ring.
Qed.

Lemma same_segment_trans s t u :
  same_segment s t → same_segment t u → same_segment s u.
Proof.
  intros (? & ? & ? & ?) (? & ? & ? & ?).
  unfold same_segment. split_and!; etrans; eauto.
Qed.

Lemma same_segment_sym s t : same_segment s t → same_segment t s.
Proof. intros (? & ? & ? & ?). unfold same_segment. by split_and!. Qed.

Lemma segments_renderMaze_sound maze ox oy options seg :
  seg ∈ segments (renderMaze maze ox oy options) →
  ∃ r c cell d,
    0 ≤ r < rows maze ∧ 0 ≤ c < cols maze ∧
    cellAt (cells maze) r c = Some cell ∧ wall d cell = true ∧
    (d = East → c = cols maze - 1) ∧ (d = South → r = rows maze - 1) ∧
    same_segment seg
      (wallLine ox oy (cellSize (spread DEFAULT_OPTIONS options))
         (wallThickness (spread DEFAULT_OPTIONS options)) r c d).
Proof.
  rewrite segments_renderMaze.
  intros ([[r c] d] & -> & Hk)%list_elem_of_fmap. simpl.
  apply elem_of_drawnWalls in Hk as (Hr & Hc & Hd).
  apply elem_of_drawnSides in Hd as (cell & Hcell & Hw & HE & HS).
  exists r, c, cell, d.
  refine (conj Hr (conj Hc (conj Hcell (conj Hw (conj HE (conj HS _)))))).
  apply sideLine_wallLine.
Qed.

(** X8.  Every line that [renderMaze] strokes runs along a wall that is
    present: it is the side [d] of a cell of the maze whose wall flag for
    [d] is set; right sides are stroked in the last column only, bottom
    sides in the last line only. *)
Theorem renderMaze_strokes_only_walls maze ox oy options seg :
  seg ∈ segments (renderMaze maze ox oy options) →
  ∃ r c cell d,
    0 ≤ r < rows maze ∧ 0 ≤ c < cols maze ∧
    cellAt (cells maze) r c = Some cell ∧ wall d cell = true ∧
    (d = East → c = cols maze - 1) ∧ (d = South → r = rows maze - 1) ∧
    same_segment seg
      (wallLine ox oy (cellSize (spread DEFAULT_OPTIONS options))
         (wallThickness (spread DEFAULT_OPTIONS options)) r c d).
Proof. apply segments_renderMaze_sound. Qed.

Lemma renderMaze_strokes_only_walls_witness :
  ∃ seg, segments (renderMaze sample_maze 0 0 no_options) !! 3%nat = Some seg ∧
    ∃ r c cell d,
      0 ≤ r < rows sample_maze ∧ 0 ≤ c < cols sample_maze ∧
      cellAt (cells sample_maze) r c = Some cell ∧ wall d cell = true ∧
      (d = East → c = cols sample_maze - 1) ∧
      (d = South → r = rows sample_maze - 1) ∧
      same_segment seg (wallLine 0 0 20 4 r c d).
Proof.
  eexists. split; [vm_compute; reflexivity|].
  apply (renderMaze_strokes_only_walls sample_maze 0 0 no_options).
  apply (list_elem_of_lookup_2 _ 3%nat). vm_compute. reflexivity.
Defined.

Lemma drawnWalls_stroked maze ox oy options r c d :
  (r, c, d) ∈ drawnWalls maze →
  ∃ seg, seg ∈ segments (renderMaze maze ox oy options) ∧
    same_segment seg
      (wallLine ox oy (cellSize (spread DEFAULT_OPTIONS options))
         (wallThickness (spread DEFAULT_OPTIONS options)) r c d).
Proof.
  intros Hk. eexists. split.
  - rewrite segments_renderMaze. apply list_elem_of_fmap.
    exists (r, c, d). split; [reflexivity | done].
  - apply sideLine_wallLine.
Qed.

Lemma generated_shape_symmetric rnd R C fuel :
  0 < R → 0 < C → random_ok rnd → 2 * R * C ≤ Z.of_nat fuel →
  ∃ m, generateMaze fuel rnd R C = Returned m ∧
       rows m = R ∧ cols m = C ∧
       shape (rows m) (cols m) (cells m) ∧ placed (cells m) ∧
       symmetric_walls (cells m).
Proof.
  intros HR HC Hok Hfuel.
  destruct (carve_spec R C rnd fuel HR HC Hok Hfuel)
    as (s & Hs & HI & _ & Hall).
  eexists. split; [by apply generateMaze_carve|]. simpl.
  split_and!; try done.
  - apply (inv_shape _ _ _ HI).
  - apply (inv_placed _ _ _ HI).
  - intros r c d x y Hx Hy.
    apply (inv_wall_sym R C s (r, c) x y d HI Hx Hy).
Qed.

(** X9.  On a maze of the declared shape whose facing wall flags agree,
    [renderMaze] strokes the line of every wall that is present, although
    right and bottom walls are drawn for the last column and line only:
    an inner right or bottom wall is the left or top wall of the
    neighbour. *)
Theorem renderMaze_strokes_every_wall maze ox oy options r c cell d :
  shape (rows maze) (cols maze) (cells maze) →
  symmetric_walls (cells maze) →
  cellAt (cells maze) r c = Some cell → wall d cell = true →
  ∃ seg, seg ∈ segments (renderMaze maze ox oy options) ∧
    same_segment seg
      (wallLine ox oy (cellSize (spread DEFAULT_OPTIONS options))
         (wallThickness (spread DEFAULT_OPTIONS options)) r c d).
Proof.
  intros Hs Hsym Hcell Hw.
  assert (inside (rows maze) (cols maze) (r, c)) as [Hr Hc].
  { apply (shape_cellAt _ _ (cells maze)); eauto. }
  simpl in Hr, Hc.
  assert (∀ d', wall d' cell = true → d' ≠ East → d' ≠ South →
                (r, c, d') ∈ drawnWalls maze) as Hown.
  { intros d' Hw' ? ?. apply elem_of_drawnWalls. split_and!; try lia.
    apply elem_of_drawnSides. exists cell. by split_and!. }
  assert (∀ d', is_Some (cellAt (cells maze) (move (r, c) d').1
                           (move (r, c) d').2) →
                wall d' cell = true → d' = East ∨ d' = South →
                (move (r, c) d', opp d') ∈ drawnWalls maze) as Hnext.
  { intros d' [y Hy] Hw' Hd'.
    assert (inside (rows maze) (cols maze) (move (r, c) d')) as [Hr' Hc'].
    { rewrite (surjective_pairing (move (r, c) d')).
      apply (shape_cellAt _ _ (cells maze)); eauto. }
    rewrite (surjective_pairing (move (r, c) d')).
    apply elem_of_drawnWalls. split_and!; try lia.
    apply elem_of_drawnSides. exists y. split; [done|].
    rewrite <- (Hsym r c d' cell y Hcell Hy).
    by destruct Hd' as [-> | ->]. }
  destruct d.
  - apply drawnWalls_stroked, Hown; done.
  - destruct (decide (r = rows maze - 1)) as [Hlast|Hin].
    + apply drawnWalls_stroked, elem_of_drawnWalls. split_and!; try lia.
      apply elem_of_drawnSides. exists cell. by split_and!.
    + apply (drawnWalls_stroked maze ox oy options (r + 1) c North).
      apply (Hnext South); [|done|by right].
      apply (shape_cellAt (rows maze) (cols maze)); [done|].
      unfold inside. simpl. lia.
  - apply drawnWalls_stroked, Hown; done.
  - destruct (decide (c = cols maze - 1)) as [Hlast|Hin].
    + apply drawnWalls_stroked, elem_of_drawnWalls. split_and!; try lia.
      apply elem_of_drawnSides. exists cell. by split_and!.
    + apply (drawnWalls_stroked maze ox oy options r (c + 1) West).
      apply (Hnext East); [|done|by left].
      apply (shape_cellAt (rows maze) (cols maze)); [done|].
      unfold inside. simpl. lia.
Qed.

Lemma renderMaze_strokes_every_wall_witness :
  ∃ m cell, generateMaze 12 rnd_sample 2 3 = Returned m ∧
    shape (rows m) (cols m) (cells m) ∧ symmetric_walls (cells m) ∧
    cellAt (cells m) 0 1 = Some cell ∧ wall South cell = true ∧
    ∃ seg, seg ∈ segments (renderMaze m 0 0 no_options) ∧
      same_segment seg (wallLine 0 0 20 4 0 1 South).
Proof.
  destruct (generated_shape_symmetric rnd_sample 2 3 12 ltac:(lia)
              ltac:(lia) random_ok_sample ltac:(lia))
    as (m & Hm & _ & _ & Hs & _ & Hsym).
  assert (Returned m = generateMaze 12 rnd_sample 2 3) as Hm' by done.
  vm_compute in Hm'. injection Hm' as ->.
  eexists _, _. split; [vm_compute; reflexivity|].
  split; [exact Hs|]. split; [exact Hsym|].
  split; [reflexivity|]. split; [reflexivity|].
  eapply (renderMaze_strokes_every_wall _ 0 0 no_options 0 1 _ South Hs Hsym);
    reflexivity.
Defined.

(** ** The grid lines *)

Lemma gridLine_inj o cs wt k k' :
  cs ≠ 0 → (gridLine o cs wt k == gridLine o cs wt k')%Q → k = k'.
Proof.
  unfold gridLine. intros Hcs H.
  assert (inject_Z (k * cs) == inject_Z (k' * cs))%Q as H'.
  { rewrite !inject_Z_mult.
    set (p := (inject_Z k * inject_Z cs)%Q) in *.
    set (q := (inject_Z k' * inject_Z cs)%Q) in *. lra. }
  apply (proj1 (inject_Z_injective _ _)) in H'.
  exact (Z.mul_reg_r _ _ _ Hcs H').
Qed.

Lemma gridLine_mono o cs wt k k' :
  0 ≤ cs → k ≤ k' → (gridLine o cs wt k <= gridLine o cs wt k')%Q.
Proof.
  unfold gridLine. intros Hcs Hk.
  assert (inject_Z (k * cs) <= inject_Z (k' * cs))%Q as H'.
  { rewrite <- Zle_Qle. nia. }
  rewrite !inject_Z_mult in H'. lra.
Qed.

Lemma gridLine_bounds o cs wt n k :
  0 ≤ cs → 0 ≤ k ≤ n →
  (inject_Z o + inject_Z wt / 2 <= gridLine o cs wt k)%Q ∧
  (gridLine o cs wt k <=
   inject_Z o + inject_Z (n * cs + wt) - inject_Z wt / 2)%Q.
Proof.
  intros Hcs Hk.
  pose proof (gridLine_mono o cs wt 0 k Hcs ltac:(lia)) as H0.
  pose proof (gridLine_mono o cs wt k n Hcs ltac:(lia)) as H1.
  unfold gridLine, Qdiv in *. change (/ 2)%Q with (1 # 2)%Q in *.
  rewrite inject_Z_plus, inject_Z_mult.
  assert (inject_Z 0 * inject_Z cs == 0)%Q as E by ring.
  rewrite E in H0. revert H0 H1.
  generalize (inject_Z k * inject_Z cs)%Q (inject_Z n * inject_Z cs)%Q
    (inject_Z wt) (inject_Z o).
  intros. split; lra.
Qed.

Lemma NoDup_drawnSides maze r c : NoDup (drawnSides maze r c).
Proof.
  unfold drawnSides. destruct (cellAt (cells maze) r c) as [cell|];
    [|apply NoDup_nil_2].
  destruct (top (walls cell)), (left (walls cell)),
    (bool_decide (c = cols maze - 1) && right (walls cell)),
    (bool_decide (r = rows maze - 1) && bottom (walls cell)); simpl;
    by apply (bool_decide_unpack _).
Qed.

Lemma NoDup_drawnWalls maze : NoDup (drawnWalls maze).
Proof.
  unfold drawnWalls. apply NoDup_bind; [| |apply NoDup_seqZ].
  - intros r r' k _ _ (c & Hk & _)%list_elem_of_bind
                      (c' & Hk' & _)%list_elem_of_bind.
    apply list_elem_of_fmap in Hk as (d & -> & _).
    apply list_elem_of_fmap in Hk' as (d' & [= -> _ _] & _). done.
  - intros r _. apply NoDup_bind; [| |apply NoDup_seqZ].
    + intros c c' k _ _ (d & -> & _)%list_elem_of_fmap
                        (d' & [= -> _] & _)%list_elem_of_fmap. done.
    + intros c _. apply NoDup_fmap_2; [by intros ? ? [=]|].
      apply NoDup_drawnSides.
Qed.

(** Two drawn sides on the same line are the same side of the same slot. *)
Lemma wallLine_inj ox oy cs wt R C r c d r' c' d' :
  cs ≠ 0 →
  0 ≤ r < R → 0 ≤ c < C → 0 ≤ r' < R → 0 ≤ c' < C →
  (d = East → c = C - 1) → (d = South → r = R - 1) →
  (d' = East → c' = C - 1) → (d' = South → r' = R - 1) →
  same_segment (wallLine ox oy cs wt r c d) (wallLine ox oy cs wt r' c' d') →
  (r, c, d) = (r', c', d').
Proof.
  intros Hcs Hr Hc Hr' Hc' HE HS HE' HS' (H1 & H2 & H3 & H4).
  destruct d, d'; simpl in *;
    apply gridLine_inj in H1, H2, H3, H4; try done;
    try specialize (HE eq_refl); try specialize (HS eq_refl);
    try specialize (HE' eq_refl); try specialize (HS' eq_refl);
    first [ lia | repeat f_equal; lia ].
Qed.

(** X10.  With a cell size other than [0], [renderMaze] strokes no line
    twice: the lines of two different strokes differ. *)
Theorem renderMaze_strokes_once maze ox oy options i j seg seg' :
  cellSize (spread DEFAULT_OPTIONS options) ≠ 0 → i ≠ j →
  segments (renderMaze maze ox oy options) !! i = Some seg →
  segments (renderMaze maze ox oy options) !! j = Some seg' →
  ¬ same_segment seg seg'.
Proof.
  intros Hcs Hij. rewrite segments_renderMaze, !list_lookup_fmap.
  intros ([[r c] d] & Hi & ->)%fmap_Some ([[r' c'] d'] & Hj & ->)%fmap_Some.
  simpl. intros Hsame. apply Hij.
  apply (NoDup_lookup _ _ _ _ (NoDup_drawnWalls maze) Hi).
  assert ((r, c, d) = (r', c', d')) as ->; [|done].
  apply list_elem_of_lookup_2 in Hi, Hj.
  apply elem_of_drawnWalls in Hi as (Hr & Hc & Hd).
  apply elem_of_drawnWalls in Hj as (Hr' & Hc' & Hd').
  apply elem_of_drawnSides in Hd as (cell & _ & _ & HE & HS).
  apply elem_of_drawnSides in Hd' as (cell' & _ & _ & HE' & HS').
  eapply (wallLine_inj ox oy _ _ (rows maze) (cols maze)); try done.
  eapply same_segment_trans; [apply same_segment_sym, sideLine_wallLine|].
  eapply same_segment_trans; [exact Hsame|]. apply sideLine_wallLine.
Qed.

Lemma renderMaze_strokes_once_witness :
  cellSize (spread DEFAULT_OPTIONS no_options) ≠ 0 ∧
  segments (renderMaze sample_maze 0 0 no_options) !! 3%nat =
    Some {| xa := 84 # 2; ya := 4 # 2; xb := 84 # 2; yb := 44 # 2 |} ∧
  segments (renderMaze sample_maze 0 0 no_options) !! 7%nat =
    Some {| xa := 84 # 2; ya := 44 # 2; xb := 84 # 2; yb := 84 # 2 |} ∧
  ¬ same_segment
      {| xa := 84 # 2; ya := 4 # 2; xb := 84 # 2; yb := 44 # 2 |}
      {| xa := 84 # 2; ya := 44 # 2; xb := 84 # 2; yb := 84 # 2 |}.
Proof.
  assert (cellSize (spread DEFAULT_OPTIONS no_options) ≠ 0) as Hcs by done.
  assert (segments (renderMaze sample_maze 0 0 no_options) !! 3%nat =
    Some {| xa := 84 # 2; ya := 4 # 2; xb := 84 # 2; yb := 44 # 2 |}) as H3
    by reflexivity.
  assert (segments (renderMaze sample_maze 0 0 no_options) !! 7%nat =
    Some {| xa := 84 # 2; ya := 44 # 2; xb := 84 # 2; yb := 84 # 2 |}) as H7
    by reflexivity.
  split_and!; [exact Hcs | exact H3 | exact H7 |].
  apply (renderMaze_strokes_once sample_maze 0 0 no_options 3 7 _ _ Hcs
           ltac:(lia) H3 H7).
Defined.

Lemma getMazeDimensions_as_partial maze options :
  getMazeDimensions maze (as_partial (spread DEFAULT_OPTIONS options)) =
  getMazeDimensions maze options.
Proof. reflexivity. Qed.



(** * The page layout *)

(** ** The smallest scale of an arrangement *)

Lemma minWith_le_r o s : (minWith o s <= s)%Q.
Proof. destruct o; simpl; [apply Q.le_min_r | apply Qle_refl]. Qed.

Lemma minScaleFor_snoc cw ch dims d :
  minScaleFor cw ch (dims ++ [d]) =
  Some (minWith (minScaleFor cw ch dims) (scaleOf cw ch d)).
Proof. unfold minScaleFor. by rewrite foldl_snoc. Qed.

Lemma minScaleFor_spec cw ch dims :
  dims ≠ [] →
  ∃ m, minScaleFor cw ch dims = Some m ∧
       (∀ d, d ∈ dims → (m <= scaleOf cw ch d)%Q) ∧
       ∃ d, d ∈ dims ∧ (m == scaleOf cw ch d)%Q.
Proof.
  induction dims as [|d dims IH] using rev_ind; [done|]. intros _.
  rewrite minScaleFor_snoc. eexists. split; [done|].
  destruct (decide (dims = [])) as [-> | Hne].
  - simpl. split.
    + intros d' ->%list_elem_of_singleton. apply Qle_refl.
    + exists d. split; [left | reflexivity].
  - destruct (IH Hne) as (m & -> & Hle & d0 & Hd0 & Heq). simpl. split.
    + intros d' [Hd' | ->%list_elem_of_singleton]%elem_of_app.
      * eapply Qle_trans; [apply Q.le_min_l | by apply Hle].
      * apply Q.le_min_r.
    + destruct (Q.min_spec m (scaleOf cw ch d)) as [[_ E]|[_ E]].
      * exists d0. split; [apply elem_of_app; by left|].
        by rewrite E.
      * exists d. split; [apply elem_of_app; right; left | done].
Qed.

(** ** Rows and columns of the page grid *)


Lemma rowsFor_ge count cols :
  0 < cols → (inject_Z count / inject_Z cols <= inject_Z (rowsFor count cols))%Q.
Proof. intros. apply Qle_ceiling. Qed.

Lemma rowsFor_pos count cols : 0 < count → 0 < cols → 0 < rowsFor count cols.
Proof.
  intros Hc Hcols. pose proof (rowsFor_ge count cols Hcols) as H.
  assert (0 < inject_Z count / inject_Z cols)%Q as Hpos.
  { apply Qlt_shift_div_l; [by rewrite <- (Zlt_Qlt 0)|].
    rewrite Qmult_0_l. by rewrite <- (Zlt_Qlt 0). }
  rewrite (Zlt_Qlt 0). eapply Qlt_le_trans; done.
Qed.

Lemma rowsFor_one count : rowsFor count 1 = count.
Proof.
  unfold rowsFor. rewrite <- (Qceiling_Z count) at 2.
  apply Qceiling_comp. field.
Qed.


(** ** The choice of the arrangement *)

(** The smallest scale when the page is cut into [cols] columns. *)
Lemma tryArrangement_cases count dims bc br bs cols :
  dims ≠ [] →
  ∃ m, minScaleFor (USABLE_WIDTH / inject_Z cols)
         (USABLE_HEIGHT / inject_Z (rowsFor count cols)) dims = Some m ∧
    ((bs < m)%Q ∧
     tryArrangement count dims (bc, br, Some bs) cols =
       (cols, rowsFor count cols, Some m) ∨
     (m <= bs)%Q ∧
     tryArrangement count dims (bc, br, Some bs) cols = (bc, br, Some bs)).
Proof.
  intros Hne.
  destruct (minScaleFor_spec (USABLE_WIDTH / inject_Z cols)
              (USABLE_HEIGHT / inject_Z (rowsFor count cols)) dims Hne)
    as (m & Hm & _).
  exists m. split; [done|]. unfold tryArrangement. rewrite Hm.
  destruct (Qlt_le_dec bs m); [left | right]; done.
Qed.

Lemma fold_tryArrangement count dims (n : nat) :
  dims ≠ [] →
  ∃ bc bs,
    foldl (tryArrangement count dims) (1, count, Some 0%Q)
          (seqZ 1 (Z.of_nat n)) = (bc, rowsFor count bc, Some bs) ∧
    (bc = 1 ∧ bs = 0%Q ∨
     1 ≤ bc ≤ Z.of_nat n ∧ arrangementScale count dims bc = Some bs) ∧
    (0 <= bs)%Q ∧
    ∀ c, 1 ≤ c ≤ Z.of_nat n →
      ∃ m, arrangementScale count dims c = Some m ∧ (m <= bs)%Q ∧
           (c < bc → (m < bs)%Q).
Proof.
  intros Hne. induction n as [|n IH].
  - exists 1, 0%Q. rewrite rowsFor_one. split_and!; [done | by left | done |].
    intros c Hc. lia.
  - destruct IH as (bc & bs & Hfold & Hbest & Hpos & Hall).
    rewrite seqZ_S, foldl_snoc, Hfold.
    destruct (tryArrangement_cases count dims bc (rowsFor count bc) bs
                (1 + Z.of_nat n) Hne) as (m & Hm & [[Hlt ->] | [Hle ->]]).
    + exists (1 + Z.of_nat n), m. split_and!; [done | | |].
      * right. split; [lia | done].
      * apply Qlt_le_weak. eapply Qle_lt_trans; done.
      * intros c Hc. destruct (decide (c = 1 + Z.of_nat n)) as [-> | Hc'].
        -- exists m. split_and!; [done | apply Qle_refl | lia].
        -- destruct (Hall c) as (m' & Hm' & Hle' & _); [lia|].
           exists m'. split_and!; [done | |].
           ++ apply Qlt_le_weak. eapply Qle_lt_trans; done.
           ++ intros _. eapply Qle_lt_trans; done.
    + exists bc, bs. split_and!; [done | | done |].
      * destruct Hbest as [? | [? ?]]; [by left | right; split; [lia | done]].
      * intros c Hc. destruct (decide (c = 1 + Z.of_nat n)) as [-> | Hc'].
        -- exists m. split_and!; [done | done |].
           intros Hlt. destruct Hbest as [[-> _] | [? _]]; lia.
        -- apply Hall. lia.
Qed.

(** ** The scale fits the cell *)

Lemma USABLE_positive : (0 < USABLE_WIDTH)%Q ∧ (0 < USABLE_HEIGHT)%Q.
Proof. split; reflexivity. Qed.

Lemma Qdiv_pos a (b : Z) : (0 < a)%Q → 0 < b → (0 < a / inject_Z b)%Q.
Proof.
  intros Ha Hb. apply Qlt_shift_div_l; [by rewrite <- (Zlt_Qlt 0)|].
  by rewrite Qmult_0_l.
Qed.


Lemma scaleOf_pos cw ch d :
  (0 < cw)%Q → (0 < ch)%Q → 0 < width d → 0 < height d →
  (0 < scaleOf cw ch d)%Q.
Proof.
  intros Hcw Hch Hw Hh. unfold scaleOf.
  pose proof (Qdiv_pos cw (width d) Hcw Hw) as H1.
  pose proof (Qdiv_pos ch (height d) Hch Hh) as H2.
  destruct (Q.min_spec (cw / inject_Z (width d)) (ch / inject_Z (height d)))
    as [[_ E] | [_ E]]; rewrite E; lra.
Qed.


Lemma arrangementScale_pos count dims c m :
  0 < count → 0 < c →
  Forall (λ d, 0 < width d ∧ 0 < height d) dims →
  arrangementScale count dims c = Some m → (0 < m)%Q.
Proof.
  intros Hcount Hc Hdims Hm.
  destruct dims as [|d0 dims0] eqn:Edims; [done|]. rewrite <- Edims in *.
  destruct (minScaleFor_spec (USABLE_WIDTH / inject_Z c)
              (USABLE_HEIGHT / inject_Z (rowsFor count c)) dims)
    as (m' & Hm' & _ & d & Hd & Heq); [by rewrite Edims|].
  unfold arrangementScale in Hm. rewrite Hm' in Hm. injection Hm as ->.
  rewrite Heq. rewrite Forall_forall in Hdims. destruct (Hdims d Hd).
  apply scaleOf_pos; [| | done | done].
  - apply Qdiv_pos; [apply USABLE_positive | done].
  - apply Qdiv_pos; [apply USABLE_positive | by apply rowsFor_pos].
Qed.


(** ** The layouts, one by one *)

Lemma layouts_take dims bc br bs (n : nat) :
  (n ≤ length dims)%nat →
  seqZ 0 (Z.of_nat n) ≫= layoutAt dims bc br bs =
  imap (λ i d, layoutOf bc br bs (Z.of_nat i) d) (take n dims).
Proof.
  induction n as [|n IH]; intros Hn; [by rewrite take_0|].
  destruct (lookup_lt_is_Some_2 dims n) as [d Hd]; [lia|].
  rewrite seqZ_S, bind_app, IH by lia.
  rewrite (take_S_r _ _ _ Hd), imap_app. f_equal.
  simpl. rewrite app_nil_r. unfold layoutAt. rewrite Z.add_0_l.
  rewrite (proj2 (at_index_Some dims (Z.of_nat n) d)).
  - rewrite length_take, Nat.min_l, Nat.add_0_r by lia. done.
  - rewrite Nat2Z.id. split; [lia | done].
Qed.

Lemma layouts_imap dims bc br bs :
  seqZ 0 (Z.of_nat (length dims)) ≫= layoutAt dims bc br bs =
  imap (λ i d, layoutOf bc br bs (Z.of_nat i) d) dims.
Proof. by rewrite layouts_take, firstn_all. Qed.

(** The sizes [calculateLayout] works with. *)
Lemma mazeDimensions_positive mazes cellSize wallThickness :
  Forall (positive_size cellSize wallThickness) mazes →
  Forall (λ d, 0 < width d ∧ 0 < height d)
    ((λ maze, getMazeDimensions maze (sizeOptions cellSize wallThickness))
       <$> mazes).
Proof. intros H. by apply Forall_fmap. Qed.

Lemma calculateLayout_spec mazes cellSize wallThickness :
  mazes ≠ [] →
  Forall (positive_size cellSize wallThickness) mazes →
  ∃ bc bs,
    1 ≤ bc ≤ Z.of_nat (length mazes) ∧ (0 < bs)%Q ∧
    arrangementScale (Z.of_nat (length mazes))
      ((λ maze, getMazeDimensions maze (sizeOptions cellSize wallThickness))
         <$> mazes) bc = Some bs ∧
    (∀ c, 1 ≤ c ≤ Z.of_nat (length mazes) →
       ∃ m, arrangementScale (Z.of_nat (length mazes))
              ((λ maze, getMazeDimensions maze
                          (sizeOptions cellSize wallThickness)) <$> mazes) c
            = Some m ∧ (m <= bs)%Q ∧ (c < bc → (m < bs)%Q)) ∧
    calculateLayout mazes cellSize wallThickness =
      Some (imap (λ i d, layoutOf bc (rowsFor (Z.of_nat (length mazes)) bc)
                           bs (Z.of_nat i) d)
              ((λ maze, getMazeDimensions maze
                          (sizeOptions cellSize wallThickness)) <$> mazes)).
Proof.
  intros Hne Hpos. apply mazeDimensions_positive in Hpos.
  unfold calculateLayout.
  set (dims := (λ maze, getMazeDimensions maze
                          (sizeOptions cellSize wallThickness)) <$> mazes) in *.
  assert (length dims = length mazes) as Hlen by apply length_fmap.
  assert (0 < Z.of_nat (length mazes)) as Hcount.
  { destruct mazes; [done | simpl; lia]. }
  assert (dims ≠ []) as Hdims.
  { intros E. rewrite E in Hlen. simpl in Hlen. lia. }
  rewrite bool_decide_false by lia.
  rewrite bool_decide_false.
  2:{ rewrite Exists_exists. intros (d & Hd & H0).
      rewrite Forall_forall in Hpos. specialize (Hpos d Hd). lia. }
  destruct (fold_tryArrangement (Z.of_nat (length mazes)) dims (length mazes)
              Hdims) as (bc & bs & -> & Hbest & Hbs & Hall).
  assert (0 < bs)%Q as Hbs'.
  { destruct (Hall 1) as (m & Hm & Hle & _); [lia|].
    eapply Qlt_le_trans; [|exact Hle].
    eapply arrangementScale_pos; [| |exact Hpos|exact Hm]; lia. }
  exists bc, bs. split_and!; [| |done| |done|].
  - destruct Hbest as [[-> _] | [? _]]; lia.
  - destruct Hbest as [[-> _] | [? _]]; lia.
  - destruct Hbest as [[_ ->] | [_ ?]]; [by apply Qlt_irrefl in Hbs' | done].
  - rewrite <- Hlen at 1. by rewrite layouts_imap.
Qed.

(** ** A maze in its cell of the page grid *)






(** X12.  When every maze has a positive width and height,
    [calculateLayout] returns one layout for each maze, in the order of the
    mazes, all with one positive scale; the layout of a maze has that
    maze's width and height multiplied by the scale, so every maze keeps
    its proportions and all mazes of a page are drawn at the same size of
    cell. *)
Theorem calculateLayout_one_per_maze mazes cellSize wallThickness :
  Forall (positive_size cellSize wallThickness) mazes →
  ∃ ls s,
    calculateLayout mazes cellSize wallThickness = Some ls ∧
    length ls = length mazes ∧ (0 < s)%Q ∧
    ∀ (i : nat) maze, mazes !! i = Some maze →
      ∃ l, ls !! i = Some l ∧
        MazeLayout.scale l = s ∧
        MazeLayout.width l =
          (inject_Z (width (getMazeDimensions maze
                       (sizeOptions cellSize wallThickness))) * s)%Q ∧
        MazeLayout.height l =
          (inject_Z (height (getMazeDimensions maze
                       (sizeOptions cellSize wallThickness))) * s)%Q.
Proof.
  intros Hpos. destruct (decide (mazes = [])) as [-> | Hne].
  { exists [], 1%Q. split_and!; [done | done | done |]. intros i maze Hi.
    by rewrite lookup_nil in Hi. }
  destruct (calculateLayout_spec mazes cellSize wallThickness Hne Hpos)
    as (bc & bs & _ & Hbs & _ & _ & Heq).
  eexists _, bs. split_and!; [exact Heq | | done |].
  - by rewrite length_imap, length_fmap.
  - intros i maze Hi. eexists.
    rewrite list_lookup_imap, list_lookup_fmap, Hi. simpl.
    split_and!; reflexivity.
Qed.

Lemma calculateLayout_one_per_maze_witness :
  Forall (positive_size 20 2) [sample_maze; sample_maze] ∧
  ∃ ls s,
    calculateLayout [sample_maze; sample_maze] 20 2 = Some ls ∧
    length ls = length [sample_maze; sample_maze] ∧ (0 < s)%Q ∧
    ∀ (i : nat) maze, [sample_maze; sample_maze] !! i = Some maze →
      ∃ l, ls !! i = Some l ∧
        MazeLayout.scale l = s ∧
        MazeLayout.width l =
          (inject_Z (width (getMazeDimensions maze (sizeOptions 20 2))) * s)%Q ∧
        MazeLayout.height l =
          (inject_Z (height (getMazeDimensions maze (sizeOptions 20 2))) * s)%Q.
Proof.
  assert (Forall (positive_size 20 2) [sample_maze; sample_maze]) as H.
  { repeat constructor. }
  split; [exact H|].
  exact (calculateLayout_one_per_maze [sample_maze; sample_maze] 20 2 H).
Defined.







(** * The export *)

(** Whatever the mazes, [calculateLayout] meets neither [Infinity] nor [NaN]
    when no maze has a width or a height of [0]. *)
Lemma calculateLayout_defined mazes cellSize wallThickness :
  Forall (λ d, width d ≠ 0 ∧ height d ≠ 0)
    ((λ maze, getMazeDimensions maze (sizeOptions cellSize wallThickness))
       <$> mazes) →
  ∃ ls, calculateLayout mazes cellSize wallThickness = Some ls ∧
        length ls = length mazes.
Proof.
  intros Hnz. destruct (decide (mazes = [])) as [-> | Hne]; [by exists []|].
  unfold calculateLayout.
  set (dims := (λ maze, getMazeDimensions maze
                          (sizeOptions cellSize wallThickness)) <$> mazes) in *.
  assert (length dims = length mazes) as Hlen by apply length_fmap.
  assert (dims ≠ []) as Hdims.
  { intros E. rewrite E in Hlen. by destruct mazes. }
  rewrite bool_decide_false by (destruct mazes; [done | simpl; lia]).
  rewrite bool_decide_false.
  2:{ rewrite Exists_exists. intros (d & Hd & H0).
      rewrite Forall_forall in Hnz. specialize (Hnz d Hd). lia. }
  destruct (fold_tryArrangement (Z.of_nat (length mazes)) dims (length mazes)
              Hdims) as (bc & bs & -> & _).
  eexists. split; [done|].
  rewrite <- Hlen at 1. by rewrite layouts_imap, length_imap.
Qed.

Lemma canvasSize_snoc mazes maze cs wt rs :
  canvasSize (mazes ++ [maze]) cs wt rs =
  (Z.max (canvasSize mazes cs wt rs).1
         (width (getMazeDimensions maze (sizeOptions cs wt)) * rs),
   Z.max (canvasSize mazes cs wt rs).2
         (height (getMazeDimensions maze (sizeOptions cs wt)) * rs)).
Proof.
  unfold canvasSize. rewrite foldl_snoc. by destruct (foldl _ _ mazes).
Qed.

Lemma canvasSize_spec mazes cs wt rs :
  let W := (canvasSize mazes cs wt rs).1 in
  let H := (canvasSize mazes cs wt rs).2 in
  0 ≤ W ∧ 0 ≤ H ∧
  (∀ maze, maze ∈ mazes →
     width (getMazeDimensions maze (sizeOptions cs wt)) * rs ≤ W ∧
     height (getMazeDimensions maze (sizeOptions cs wt)) * rs ≤ H) ∧
  (W = 0 ∨ ∃ maze, maze ∈ mazes ∧
     W = width (getMazeDimensions maze (sizeOptions cs wt)) * rs) ∧
  (H = 0 ∨ ∃ maze, maze ∈ mazes ∧
     H = height (getMazeDimensions maze (sizeOptions cs wt)) * rs).
Proof.
  induction mazes as [|maze mazes IH] using rev_ind.
  - simpl. split_and!; [done | done | | by left | by left].
    intros maze Hm. inversion Hm.
  - rewrite canvasSize_snoc. cbv zeta in *. cbn [fst snd].
    destruct IH as (HW & HH & Hall & HWex & HHex).
    set (W := (canvasSize mazes cs wt rs).1) in *.
    set (H := (canvasSize mazes cs wt rs).2) in *.
    split_and!; [lia | lia | | |].
    + intros m [Hm | ->%list_elem_of_singleton]%elem_of_app; [|lia].
      destruct (Hall m Hm). lia.
    + destruct (Z.max_spec W
        (width (getMazeDimensions maze (sizeOptions cs wt)) * rs))
        as [[_ E] | [_ E]]; rewrite E.
      * right. exists maze. split; [apply elem_of_app; right; left | done].
      * destruct HWex as [? | (m & Hm & ?)]; [by left | right].
        exists m. split; [apply elem_of_app; by left | done].
    + destruct (Z.max_spec H
        (height (getMazeDimensions maze (sizeOptions cs wt)) * rs))
        as [[_ E] | [_ E]]; rewrite E.
      * right. exists maze. split; [apply elem_of_app; right; left | done].
      * destruct HHex as [? | (m & Hm & ?)]; [by left | right].
        exists m. split; [apply elem_of_app; by left | done].
Qed.

Lemma images_app calls calls' :
  images (calls ++ calls') = images calls ++ images calls'.
Proof. apply omap_app. Qed.

Lemma images_Ctx cmds : images (Ctx <$> cmds) = [].
Proof. induction cmds as [|c cmds IH]; [done | exact IH]. Qed.

Lemma images_exportPage W H cs wt rs maze layout :
  images (exportPage W H cs wt rs (Some maze) (Some layout))
  = [placement layout].
Proof.
  unfold exportPage. rewrite !images_app, images_Ctx. reflexivity.
Qed.

Lemma images_pages W H cs wt rs mazes ls (n : nat) :
  length ls = length mazes → (n ≤ length mazes)%nat →
  images (i ← seq 0 n; exportPage W H cs wt rs (mazes !! i) (ls !! i))
  = placement <$> take n ls.
Proof.
  intros Hlen. induction n as [|n IH]; intros Hn; [by rewrite take_0|].
  destruct (lookup_lt_is_Some_2 mazes n) as [maze Hmaze]; [lia|].
  destruct (lookup_lt_is_Some_2 ls n) as [l Hl]; [lia|].
  rewrite seq_S, bind_app, images_app, IH by lia.
  rewrite (take_S_r _ _ _ Hl), fmap_app. f_equal.
  simpl. rewrite app_nil_r, Hmaze, Hl. apply images_exportPage.
Qed.

Lemma images_export W H cs wt rs mazes ls filename :
  length ls = length mazes →
  images ([SetCanvasWidth W; SetCanvasHeight H] ++
          (i ← seq 0 (length mazes);
           exportPage W H cs wt rs (mazes !! i) (ls !! i)) ++
          [SaveDoc filename])
  = placement <$> ls.
Proof.
  intros Hlen. rewrite !images_app, images_pages by done. simpl.
  by rewrite app_nil_r, <- Hlen, firstn_all.
Qed.

(** With a drawing context and at least one maze, [exportToPdf] goes
    through to [doc.save]. *)
Lemma exportToPdf_Saved mazes filename :
  mazes ≠ [] →
  ∃ ls,
    calculateLayout mazes 20 4 = Some ls ∧ length ls = length mazes ∧
    exportToPdf true mazes filename =
    Saved ([SetCanvasWidth (canvasSize mazes 20 4 2).1;
            SetCanvasHeight (canvasSize mazes 20 4 2).2] ++
           (i ← seq 0 (length mazes);
            exportPage (canvasSize mazes 20 4 2).1 (canvasSize mazes 20 4 2).2
              20 4 2 (mazes !! i) (ls !! i)) ++
           [SaveDoc (default "mazes.pdf" filename)]).
Proof.
  intros Hne.
  destruct (calculateLayout_defined mazes 20 4) as (ls & Hls & Hlen).
  { apply Forall_fmap, Forall_forall. intros maze _. simpl. lia. }
  exists ls. split; [done|]. split; [done|].
  unfold exportToPdf. rewrite bool_decide_false by by destruct mazes.
  rewrite Hls. simpl negb. cbv iota.
  by destruct (canvasSize mazes 20 4 2).
Qed.

(** X16.  Given a drawing context and at least one maze, [exportToPdf]
    neither throws nor meets [NaN]: it adds one picture to the document for
    each maze, in the order of the mazes, each in the rectangle that
    [calculateLayout] gives for a cell size of [20] and a wall thickness of
    [4]; the picture in the rectangle number [i] is taken just after maze
    number [i] has been drawn, at twice its size, on the cleared canvas; the
    last call saves the document under [filename], or as [mazes.pdf]. *)
Theorem exportToPdf_one_picture_per_maze mazes filename :
  mazes ≠ [] →
  ∃ calls ls W H,
    exportToPdf true mazes filename = Saved calls ∧
    calculateLayout mazes 20 4 = Some ls ∧
    length ls = length mazes ∧
    images calls = placement <$> ls ∧
    last calls = Some (SaveDoc (default "mazes.pdf" filename)) ∧
    ∀ (i : nat) maze l, mazes !! i = Some maze → ls !! i = Some l →
      ∃ before after,
        calls = before ++
          [Ctx (SetFillStyle "#ffffff");
           Ctx (FillRect 0 0 (inject_Z W) (inject_Z H));
           CtxSave; CtxScale 2 2] ++
          (Ctx <$> renderMaze maze 0 0 (sizeOptions 20 4)) ++
          [CtxRestore;
           AddImage "PNG" (MazeLayout.x l) (MazeLayout.y l)
             (MazeLayout.width l) (MazeLayout.height l)] ++ after ∧
        images before = placement <$> take i ls.
Proof.
  intros Hne.
  destruct (exportToPdf_Saved mazes filename Hne) as (ls & Hls & Hlen & ->).
  set (W := (canvasSize mazes 20 4 2).1). set (H := (canvasSize mazes 20 4 2).2).
  eexists _, ls, W, H. split_and!; [done | done | done | | |].
  - by apply images_export.
  - by rewrite !app_assoc, last_snoc.
  - intros i maze l Hmaze Hl.
    assert (i < length mazes)%nat as Hi by by eapply lookup_lt_Some.
    replace (length mazes) with (i + S (length mazes - S i))%nat by lia.
    rewrite seq_app, bind_app.
    change (seq (0 + i) (S (length mazes - S i)))
      with (i :: seq (S i) (length mazes - S i)).
    rewrite bind_cons, Hmaze, Hl.
    exists ([SetCanvasWidth W; SetCanvasHeight H] ++
            (i0 ← seq 0 i; exportPage W H 20 4 2 (mazes !! i0) (ls !! i0))),
      ((i0 ← seq (S i) (length mazes - S i);
        exportPage W H 20 4 2 (mazes !! i0) (ls !! i0)) ++
       [SaveDoc (default "mazes.pdf" filename)]).
    split.
    + unfold exportPage. rewrite <- !app_assoc. reflexivity.
    + rewrite images_app, images_pages by (done || lia). done.
Qed.

Lemma exportToPdf_one_picture_per_maze_witness :
  [sample_maze; sample_maze; sample_maze] ≠ [] ∧
  ∃ calls ls W H,
    exportToPdf true [sample_maze; sample_maze; sample_maze] None
      = Saved calls ∧
    calculateLayout [sample_maze; sample_maze; sample_maze] 20 4 = Some ls ∧
    length ls = length [sample_maze; sample_maze; sample_maze] ∧
    images calls = placement <$> ls ∧
    last calls = Some (SaveDoc "mazes.pdf") ∧
    ∀ (i : nat) maze l,
      [sample_maze; sample_maze; sample_maze] !! i = Some maze →
      ls !! i = Some l →
      ∃ before after,
        calls = before ++
          [Ctx (SetFillStyle "#ffffff");
           Ctx (FillRect 0 0 (inject_Z W) (inject_Z H));
           CtxSave; CtxScale 2 2] ++
          (Ctx <$> renderMaze maze 0 0 (sizeOptions 20 4)) ++
          [CtxRestore;
           AddImage "PNG" (MazeLayout.x l) (MazeLayout.y l)
             (MazeLayout.width l) (MazeLayout.height l)] ++ after ∧
        images before = placement <$> take i ls.
Proof.
  assert ([sample_maze; sample_maze; sample_maze] ≠ []) as N by done.
  split; [exact N|].
  exact (exportToPdf_one_picture_per_maze _ None N).
Defined.

Lemma segments_renderMaze_inside maze ox oy options seg :
  0 ≤ cellSize (spread DEFAULT_OPTIONS options) →
  seg ∈ segments (renderMaze maze ox oy options) →
  let half := (inject_Z (wallThickness (spread DEFAULT_OPTIONS options)) / 2)%Q in
  let W := inject_Z (width (getMazeDimensions maze options)) in
  let H := inject_Z (height (getMazeDimensions maze options)) in
  (inject_Z ox + half <= xa seg)%Q ∧ (xa seg <= inject_Z ox + W - half)%Q ∧
  (inject_Z ox + half <= xb seg)%Q ∧ (xb seg <= inject_Z ox + W - half)%Q ∧
  (inject_Z oy + half <= ya seg)%Q ∧ (ya seg <= inject_Z oy + H - half)%Q ∧
  (inject_Z oy + half <= yb seg)%Q ∧ (yb seg <= inject_Z oy + H - half)%Q.
Proof.
  intros Hcs Hseg half W H.
  apply segments_renderMaze_sound in Hseg
    as (r & c & cell & d & Hr & Hc & _ & _ & _ & _ & Hsame).
  set (cs := cellSize (spread DEFAULT_OPTIONS options)) in *.
  set (wt := wallThickness (spread DEFAULT_OPTIONS options)) in *.
  pose proof (λ o n k, gridLine_bounds o cs wt n k Hcs) as Hline.
  assert (W = inject_Z (cols maze * cs + wt)) as HW by reflexivity.
  assert (H = inject_Z (rows maze * cs + wt)) as HH by reflexivity.
  rewrite HW, HH.
  destruct Hsame as (H1 & H2 & H3 & H4). rewrite H1, H2, H3, H4.
  destruct d; simpl; split_and!;
    first [ apply (Hline ox (cols maze)); lia
          | apply (Hline oy (rows maze)); lia ].
Qed.

Lemma exportToPdf_Saved_inv hasContext mazes filename calls :
  exportToPdf hasContext mazes filename = Saved calls →
  mazes ≠ [] ∧ hasContext = true.
Proof.
  unfold exportToPdf. case_bool_decide as Hlen; [done|].
  destruct hasContext; [|done]. intros _. split; [|done].
  intros ->. by apply Hlen.
Qed.

(** X17.  The canvas of [exportToPdf] is wide and high enough for every
    maze at twice its size: the background that [renderMaze] fills, and
    every line it strokes, with the half wall thickness of [2] that the
    stroke adds around the line, lie on the canvas. *)
Theorem exportToPdf_canvas_holds_every_maze hasContext mazes filename calls
    maze seg :
  exportToPdf hasContext mazes filename = Saved calls →
  maze ∈ mazes →
  seg ∈ segments (renderMaze maze 0 0 (sizeOptions 20 4)) →
  ∃ W H,
    calls !! 0%nat = Some (SetCanvasWidth W) ∧
    calls !! 1%nat = Some (SetCanvasHeight H) ∧
    2 * width (getMazeDimensions maze (sizeOptions 20 4)) ≤ W ∧
    2 * height (getMazeDimensions maze (sizeOptions 20 4)) ≤ H ∧
    (0 <= 2 * (xa seg - 2))%Q ∧ (2 * (xa seg + 2) <= inject_Z W)%Q ∧
    (0 <= 2 * (xb seg - 2))%Q ∧ (2 * (xb seg + 2) <= inject_Z W)%Q ∧
    (0 <= 2 * (ya seg - 2))%Q ∧ (2 * (ya seg + 2) <= inject_Z H)%Q ∧
    (0 <= 2 * (yb seg - 2))%Q ∧ (2 * (yb seg + 2) <= inject_Z H)%Q.
Proof.
  intros Hsaved Hmaze Hseg.
  destruct (exportToPdf_Saved_inv _ _ _ _ Hsaved) as [Hne ->].
  destruct (exportToPdf_Saved mazes filename Hne) as (ls & _ & _ & Heq).
  rewrite Heq in Hsaved. injection Hsaved as <-.
  destruct (canvasSize_spec mazes 20 4 2) as (_ & _ & Hall & _).
  destruct (Hall maze Hmaze) as [HW HH].
  set (W := (canvasSize mazes 20 4 2).1) in *.
  set (H := (canvasSize mazes 20 4 2).2) in *.
  exists W, H. split; [done|]. split; [done|].
  split; [lia|]. split; [lia|].
  destruct (segments_renderMaze_inside maze 0 0 (sizeOptions 20 4) seg
              ltac:(done) Hseg) as (A1 & A2 & A3 & A4 & A5 & A6 & A7 & A8).
  rewrite Zle_Qle, inject_Z_mult in HW, HH.
  revert A1 A2 A3 A4 A5 A6 A7 A8 HW HH.
  change (inject_Z (wallThickness (spread DEFAULT_OPTIONS (sizeOptions 20 4)))
          / 2)%Q with (4 # 2)%Q.
  change (inject_Z 0) with 0%Q. change (inject_Z 2) with 2%Q.
  generalize (inject_Z (width (getMazeDimensions maze (sizeOptions 20 4))))
    (inject_Z (height (getMazeDimensions maze (sizeOptions 20 4))))
    (inject_Z W) (inject_Z H) (xa seg) (xb seg) (ya seg) (yb seg).
  intros. split_and!; lra.
Qed.

Lemma exportToPdf_canvas_holds_every_maze_witness :
  ∃ calls seg,
    exportToPdf true [sample_maze; sample_maze] None = Saved calls ∧
    sample_maze ∈ [sample_maze; sample_maze] ∧
    segments (renderMaze sample_maze 0 0 (sizeOptions 20 4)) !! 3%nat
      = Some seg ∧
    calls !! 0%nat = Some (SetCanvasWidth 88) ∧
    calls !! 1%nat = Some (SetCanvasHeight 88) ∧
    (2 * (xa seg + 2) <= inject_Z 88)%Q.
Proof.
  eexists _, _. split; [vm_compute; reflexivity|].
  assert (sample_maze ∈ [sample_maze; sample_maze]) as Hin by left.
  split; [exact Hin|]. split; [vm_compute; reflexivity|].
  destruct (exportToPdf_canvas_holds_every_maze true
              [sample_maze; sample_maze] None _ sample_maze
              {| xa := 84 # 2; ya := 4 # 2; xb := 84 # 2; yb := 44 # 2 |}
              ltac:(vm_compute; reflexivity) Hin)
    as (W & H & HW & HH & _ & _ & _ & Hxa & _).
  { apply (list_elem_of_lookup_2 _ 3%nat). vm_compute. reflexivity. }
  vm_compute in HW. injection HW as <-.
  vm_compute in HH. injection HH as <-.
  split; [reflexivity|]. split; [reflexivity|]. exact Hxa.
Defined.

(** X18.  When all mazes have the same numbers of lines and columns, as
    those of one page of the application have, the canvas of [exportToPdf]
    is exactly twice the size of a maze, and every picture is put on the
    page at one and the same positive fraction of the width and of the
    height of the canvas: the mazes are printed without distortion, all at
    the same size. *)
Theorem exportToPdf_same_size_undistorted hasContext mazes filename calls R C :
  0 ≤ R → 0 ≤ C →
  Forall (λ maze, rows maze = R ∧ cols maze = C) mazes →
  exportToPdf hasContext mazes filename = Saved calls →
  calls !! 0%nat = Some (SetCanvasWidth (2 * (C * 20 + 4))) ∧
  calls !! 1%nat = Some (SetCanvasHeight (2 * (R * 20 + 4))) ∧
  ∃ s, (0 < s)%Q ∧
    ∀ x y w h, (x, y, w, h) ∈ images calls →
      (w == s * inject_Z (2 * (C * 20 + 4)))%Q ∧
      (h == s * inject_Z (2 * (R * 20 + 4)))%Q.
Proof.
  intros HR HC Hsame Hsaved.
  destruct (exportToPdf_Saved_inv _ _ _ _ Hsaved) as [Hne ->].
  destruct (exportToPdf_Saved mazes filename Hne) as (ls & Hls & Hlen & Heq).
  assert (images calls = placement <$> ls) as Himgs.
  { rewrite Heq in Hsaved. injection Hsaved as <-. by apply images_export. }
  assert (calls !! 0%nat = Some (SetCanvasWidth (canvasSize mazes 20 4 2).1) ∧
          calls !! 1%nat = Some (SetCanvasHeight (canvasSize mazes 20 4 2).2))
    as [Hc0 Hc1].
  { rewrite Heq in Hsaved. by injection Hsaved as <-. }
  clear Heq Hsaved. rewrite Forall_forall in Hsame.
  assert ((canvasSize mazes 20 4 2).1 = 2 * (C * 20 + 4) ∧
          (canvasSize mazes 20 4 2).2 = 2 * (R * 20 + 4)) as [EW EH].
  { destruct (canvasSize_spec mazes 20 4 2) as (_ & _ & Hall & HW & HH).
    destruct mazes as [|maze0 mazes0] eqn:E; [done|]. rewrite <- E in *.
    assert (maze0 ∈ mazes) as H0 by (rewrite E; left).
    destruct (Hall maze0 H0) as [HW0 HH0].
    destruct (Hsame maze0 H0) as [HR0 HC0]. simpl in HW0, HH0.
    split.
    - destruct HW as [HW | (m & Hm & HW)]; [lia|].
      destruct (Hsame m Hm) as [_ HCm]. simpl in HW. lia.
    - destruct HH as [HH | (m & Hm & HH)]; [lia|].
      destruct (Hsame m Hm) as [HRm _]. simpl in HH. lia. }
  rewrite EW in Hc0. rewrite EH in Hc1. split; [done|]. split; [done|].
  destruct (calculateLayout_spec mazes 20 4 Hne)
    as (bc & bs & _ & Hbs & _ & _ & Heq').
  { apply Forall_forall. intros maze Hm. destruct (Hsame maze Hm).
    unfold positive_size. simpl. lia. }
  rewrite Heq' in Hls. injection Hls as <-. clear Heq'.
  exists (bs / 2)%Q. split.
  { apply Qlt_shift_div_l; [done | by rewrite Qmult_0_l]. }
  intros x y w h Himg. rewrite Himgs in Himg.
  apply list_elem_of_fmap in Himg as (l & Hl & Hin).
  apply list_elem_of_lookup_1 in Hin as [i Hi].
  rewrite list_lookup_imap, list_lookup_fmap in Hi.
  destruct (mazes !! i) as [maze|] eqn:Hmaze; [|done].
  destruct (Hsame maze) as [HRm HCm]; [by eapply list_elem_of_lookup_2|].
  simpl in Hi. injection Hi as <-. injection Hl as -> -> -> ->.
  rewrite HRm, HCm. rewrite !(inject_Z_mult 2). change (inject_Z 2) with 2%Q.
  split; field.
Qed.

Lemma exportToPdf_same_size_undistorted_witness :
  0 ≤ 2 ∧ 0 ≤ 2 ∧
  Forall (λ maze, rows maze = 2 ∧ cols maze = 2) [sample_maze; sample_maze] ∧
  ∃ calls,
    exportToPdf true [sample_maze; sample_maze] None = Saved calls ∧
    calls !! 0%nat = Some (SetCanvasWidth (2 * (2 * 20 + 4))) ∧
    calls !! 1%nat = Some (SetCanvasHeight (2 * (2 * 20 + 4))) ∧
    ∃ s, (0 < s)%Q ∧
      ∀ x y w h, (x, y, w, h) ∈ images calls →
        (w == s * inject_Z (2 * (2 * 20 + 4)))%Q ∧
        (h == s * inject_Z (2 * (2 * 20 + 4)))%Q.
Proof.
  assert (Forall (λ maze, rows maze = 2 ∧ cols maze = 2)
            [sample_maze; sample_maze]) as Hsame by repeat constructor.
  split; [lia|]. split; [lia|]. split; [exact Hsame|].
  eexists. split; [vm_compute; reflexivity|].
  apply (exportToPdf_same_size_undistorted true [sample_maze; sample_maze]
           None _ 2 2 ltac:(lia) ltac:(lia) Hsame).
  vm_compute. reflexivity.
Defined.
